(** * Context Cache: a shallow embedding of the indexing and search engine

    The development follows the TypeScript sources of the repository:
    the chunker ([chunkText]), the embedded store and its operations, the
    note indexer ([indexFiles]), the conversation indexer
    ([indexConversationFile], [indexConversationFiles]), the rankers
    ([bm25Search], [vectorSearch]), rank fusion ([mergeWithRRF]), hybrid
    search ([hybridSearch]) and the database reset ([resetDatabase]).

    Conventions.
    - JavaScript strings are modelled by [string]; every character stands
      for one code unit (the model covers code units below 256).
    - Integral JavaScript numbers (indices, sizes, limits, row identifiers)
      are modelled by [Z].
    - Similarities are IEEE-754 binary64 numbers and are modelled by Rocq's
      primitive [float]s, which have the same arithmetic (including NaN).
    - Fused scores only combine reciprocals of small integers; they are
      modelled by exact rationals [Q] and compared with [==].
    - SQLite is modelled by a record of tables (lists of rows in rowid
      order) with the constraints of the schema in [initDatabase]. *)

From Stdlib Require Import ZArith List String Ascii Bool Lia QArith Floats.
From Stdlib Require Import Permutation Sorted Lqa DecimalString.
Import ListNotations.

Local Open Scope string_scope.
Local Open Scope list_scope.
Local Open Scope Z_scope.

(* ================================================================= *)
(** * Part I: definitions *)
(* ================================================================= *)

(** ** JavaScript string and array primitives used by the sources *)

Module JS.

Definition length (s : string) : Z := Z.of_nat (String.length s).

Definition clamp (lo hi x : Z) : Z := Z.min (Z.max x lo) hi.

(** [s.charAt(k)] as an option. *)
Definition charAt (s : string) (k : nat) : option ascii := String.get k s.

(** Scan the indices [n-1, n-2, ..., 0] for the character [c]. *)
Fixpoint lastIndexBelow (c : ascii) (s : string) (n : nat) : Z :=
  match n with
  | O => -1
  | S k =>
      match charAt s k with
      | Some d => if Ascii.eqb d c then Z.of_nat k else lastIndexBelow c s k
      | None => lastIndexBelow c s k
      end
  end.

(** [s.lastIndexOf(c, fromIndex)] for a one-character search string:
    the greatest index [i <= clamp(fromIndex, 0, len - 1)] holding [c],
    or [-1]. *)
Definition lastIndexOf (s : string) (c : ascii) (fromIndex : Z) : Z :=
  if length s <? 1 then -1
  else lastIndexBelow c s (S (Z.to_nat (clamp 0 (length s - 1) fromIndex))).

(** [s.substring(a, b)]: both ends are clamped to [0, len] and swapped
    when out of order. *)
Definition substring (s : string) (a b : Z) : string :=
  let fa := clamp 0 (length s) a in
  let fb := clamp 0 (length s) b in
  let from := Z.min fa fb in
  let to := Z.max fa fb in
  String.substring (Z.to_nat from) (Z.to_nat (to - from)) s.

(** White space and line terminators among the code units below 256. *)
Definition isWhiteSpace (c : ascii) : bool :=
  let n := nat_of_ascii c in
  (Nat.eqb n 9 || Nat.eqb n 10 || Nat.eqb n 11 || Nat.eqb n 12
   || Nat.eqb n 13 || Nat.eqb n 32 || Nat.eqb n 160)%bool.

Fixpoint trimStart (s : string) : string :=
  match s with
  | EmptyString => EmptyString
  | String c r => if isWhiteSpace c then trimStart r else s
  end.

Fixpoint trimEnd (s : string) : string :=
  match s with
  | EmptyString => EmptyString
  | String c r =>
      match trimEnd r with
      | EmptyString => if isWhiteSpace c then EmptyString else String c EmptyString
      | r' => String c r'
      end
  end.

Definition trim (s : string) : string := trimEnd (trimStart s).

(** [xs.slice(0, n)]: a negative [n] counts from the end. *)
Definition slice0 {A : Type} (xs : list A) (n : Z) : list A :=
  if n <? 0 then firstn (Z.to_nat (Z.of_nat (List.length xs) + n)) xs
  else firstn (Z.to_nat n) xs.

End JS.

(** ** The chunker (chunker.ts) *)

Definition space : ascii := " "%char.

(** The end of the window that starts at [start]: [start + chunkSize],
    moved back to the last space at or before it when the window does not
    reach the end of the text and that space lies after [start]. *)
Definition windowEnd (text : string) (chunkSize start : Z) : Z :=
  let e := start + chunkSize in
  if e <? JS.length text then
    let lastSpace := JS.lastIndexOf text space e in
    if lastSpace >? start then lastSpace else e
  else e.

(** The [while] loop of [chunkText]; [fuel] bounds the number of
    iterations and [None] means the bound was reached. *)
Fixpoint chunkLoop (fuel : nat) (text : string) (chunkSize overlap : Z)
         (start : Z) (chunks : list string) : option (list string) :=
  match fuel with
  | O => None
  | S fuel' =>
      if start <? JS.length text then
        let e := windowEnd text chunkSize start in
        let chunks' := chunks ++ [JS.trim (JS.substring text start e)] in
        let start' := e - overlap in
        if e >=? JS.length text then Some chunks'
        else chunkLoop fuel' text chunkSize overlap start' chunks'
      else Some chunks
  end.

Definition chunkText (fuel : nat) (text : string) (chunkSize overlap : Z)
  : option (list string) :=
  if JS.length text <=? chunkSize then Some [text]
  else chunkLoop fuel text chunkSize overlap 0 [].

(** The windows [(start, end)] emitted by the first [fuel] iterations of
    the loop, in order. *)
Fixpoint chunkWindows (fuel : nat) (text : string) (chunkSize overlap : Z)
         (start : Z) : list (Z * Z) :=
  match fuel with
  | O => []
  | S fuel' =>
      if start <? JS.length text then
        let e := windowEnd text chunkSize start in
        if e >=? JS.length text then [(start, e)]
        else (start, e) :: chunkWindows fuel' text chunkSize overlap (e - overlap)
      else []
  end.

(** Two windows emitted one right after the other. *)
Definition consecutive {A : Type} (ws : list A) (w1 w2 : A) : Prop :=
  exists i : nat, nth_error ws i = Some w1 /\ nth_error ws (S i) = Some w2.

(** The stride property as the specification words it: between any two
    consecutive windows the start moves by [chunkSize - overlap]. *)
Definition fixedStride (text : string) (chunkSize overlap : Z) (fuel : nat) : Prop :=
  forall w1 w2,
    consecutive (chunkWindows fuel text chunkSize overlap 0) w1 w2 ->
    fst w2 - fst w1 = chunkSize - overlap.

(** [n] copies of a character. *)
Fixpoint repeatChar (c : ascii) (n : nat) : string :=
  match n with
  | O => EmptyString
  | S k => String c (repeatChar c k)
  end.

(** A note whose first word is followed by one long unbroken token. *)
Definition longTokenNote : string := String.append "ab " (repeatChar "x"%char 600).


(** ** SHA-256 (the digest behind [crypto.createHash('sha256')]) *)

Module Sha256.

Definition mask32 : Z := 0xffffffff.
Definition w32 (x : Z) : Z := Z.land x mask32.
Definition add32 (a b : Z) : Z := w32 (a + b).
Definition not32 (x : Z) : Z := Z.lxor x mask32.
Definition rotr (n x : Z) : Z :=
  Z.lor (Z.shiftr x n) (w32 (Z.shiftl x (32 - n))).

Definition Ch (x y z : Z) : Z := Z.lxor (Z.land x y) (Z.land (not32 x) z).
Definition Maj (x y z : Z) : Z :=
  Z.lxor (Z.lxor (Z.land x y) (Z.land x z)) (Z.land y z).
Definition bigSigma0 (x : Z) : Z := Z.lxor (Z.lxor (rotr 2 x) (rotr 13 x)) (rotr 22 x).
Definition bigSigma1 (x : Z) : Z := Z.lxor (Z.lxor (rotr 6 x) (rotr 11 x)) (rotr 25 x).
Definition smallSigma0 (x : Z) : Z := Z.lxor (Z.lxor (rotr 7 x) (rotr 18 x)) (Z.shiftr x 3).
Definition smallSigma1 (x : Z) : Z := Z.lxor (Z.lxor (rotr 17 x) (rotr 19 x)) (Z.shiftr x 10).

(** The round constants are the first 32 bits of the fractional parts of
    the cube roots of the first 64 primes, and the initial hash value
    those of the square roots of the first 8 primes. *)
Definition isPrime (n : nat) : bool :=
  forallb (fun d => negb (Nat.eqb (Nat.modulo n d) 0)) (seq 2 (n - 2)).

Definition primes : list Z := map Z.of_nat (filter isPrime (seq 2 310)).

(** The integer cube root, one bit at a time from bit [bits - 1] down. *)
Fixpoint cubeRoot (bits : nat) (n r : Z) : Z :=
  match bits with
  | O => r
  | S b =>
      let c := r + Z.shiftl 1 (Z.of_nat b) in
      cubeRoot b n (if c * c * c <=? n then c else r)
  end.

Definition K : list Z :=
  Eval vm_compute in map (fun p => w32 (cubeRoot 36 (Z.shiftl p 96) 0)) primes.

Definition H0 : list Z :=
  Eval vm_compute in map (fun p => w32 (Z.sqrt (Z.shiftl p 64))) (firstn 8 primes).

(** Big-endian bytes of the low [8 * n] bits of [x]. *)
Fixpoint beBytes (n : nat) (x : Z) : list Z :=
  match n with
  | O => []
  | S k => Z.land (Z.shiftr x (8 * Z.of_nat k)) 0xff :: beBytes k x
  end.

(** Padding: a 1 bit, zeros up to 56 modulo 64 bytes, the bit length. *)
Definition pad (msg : list Z) : list Z :=
  let len := Z.of_nat (List.length msg) in
  let zeros := Z.to_nat ((55 - len) mod 64) in
  msg ++ 0x80 :: repeat 0 zeros ++ beBytes 8 (8 * len).

Fixpoint beWord (bs : list Z) (acc : Z) : Z :=
  match bs with
  | [] => acc
  | b :: r => beWord r (Z.lor (Z.shiftl acc 8) b)
  end.

(** The sixteen big-endian words of a 64-byte block. *)
Fixpoint blockWords (n : nat) (bs : list Z) : list Z :=
  match n with
  | O => []
  | S k => beWord (firstn 4 bs) 0 :: blockWords k (skipn 4 bs)
  end.

(** Message schedule: [win] holds the last sixteen words, oldest first. *)
Fixpoint schedule (n : nat) (win : list Z) : list Z :=
  match n with
  | O => []
  | S k =>
      let w := add32 (add32 (smallSigma1 (nth 14 win 0)) (nth 9 win 0))
                     (add32 (smallSigma0 (nth 1 win 0)) (nth 0 win 0)) in
      w :: schedule k (tl win ++ [w])
  end.

Record regs := { ra : Z; rb : Z; rc : Z; rd : Z; re : Z; rf : Z; rg : Z; rh : Z }.

Definition round (r : regs) (kw : Z * Z) : regs :=
  let t1 := add32 (add32 (add32 (rh r) (bigSigma1 (re r)))
                         (add32 (Ch (re r) (rf r) (rg r)) (fst kw))) (snd kw) in
  let t2 := add32 (bigSigma0 (ra r)) (Maj (ra r) (rb r) (rc r)) in
  {| ra := add32 t1 t2; rb := ra r; rc := rb r; rd := rc r;
     re := add32 (rd r) t1; rf := re r; rg := rf r; rh := rg r |}.

Definition compress (h : list Z) (block : list Z) : list Z :=
  let w16 := blockWords 16 block in
  let w := w16 ++ schedule 48 w16 in
  let r0 := {| ra := nth 0 h 0; rb := nth 1 h 0; rc := nth 2 h 0; rd := nth 3 h 0;
               re := nth 4 h 0; rf := nth 5 h 0; rg := nth 6 h 0; rh := nth 7 h 0 |} in
  let r := fold_left round (combine K w) r0 in
  [ add32 (nth 0 h 0) (ra r); add32 (nth 1 h 0) (rb r);
    add32 (nth 2 h 0) (rc r); add32 (nth 3 h 0) (rd r);
    add32 (nth 4 h 0) (re r); add32 (nth 5 h 0) (rf r);
    add32 (nth 6 h 0) (rg r); add32 (nth 7 h 0) (rh r) ].

Fixpoint blocks (n : nat) (h : list Z) (bs : list Z) : list Z :=
  match n with
  | O => h
  | S k => blocks k (compress h (firstn 64 bs)) (skipn 64 bs)
  end.

Definition digest (msg : list Z) : list Z :=
  let p := pad msg in
  flat_map (beBytes 4) (blocks (Nat.div (List.length p) 64) H0 p).

Definition hexDigit (n : Z) : ascii :=
  if n <? 10 then ascii_of_nat (Z.to_nat (48 + n))
  else ascii_of_nat (Z.to_nat (87 + n)).

Fixpoint hex (bs : list Z) : string :=
  match bs with
  | [] => EmptyString
  | b :: r => String (hexDigit (Z.shiftr b 4)) (String (hexDigit (Z.land b 0xf)) (hex r))
  end.

(** UTF-8 encoding of a string of code units below 256. *)
Fixpoint utf8 (s : string) : list Z :=
  match s with
  | EmptyString => []
  | String c r =>
      let n := Z.of_nat (nat_of_ascii c) in
      if n <? 128 then n :: utf8 r
      else Z.lor 0xc0 (Z.shiftr n 6) :: Z.lor 0x80 (Z.land n 0x3f) :: utf8 r
  end.

(** [crypto.createHash('sha256').update(content).digest('hex')]. *)
Definition sha256hex (content : string) : string := hex (digest (utf8 content)).

End Sha256.

(** ** The embedding byte layout ([Float32Array] over a [Buffer]) *)

Module Float32.

(** Precision and exponent bound of IEEE-754 binary32. *)
Definition prec32 : Z := 24.
Definition emax32 : Z := 128.

(** Rounding of a binary64 number to the nearest binary32 value, ties to
    even (the conversion a [Float32Array] applies to each element it
    stores, that is [Math.fround]). *)
Definition round32 (x : float) : spec_float :=
  match Prim2SF x with
  | S754_finite s m e => binary_round prec32 emax32 s m e
  | sf => sf
  end.

Definition signBit (s : bool) : Z := if s then 0x80000000 else 0.

(** The 32-bit pattern: sign, 8 exponent bits (bias 127), 23 fraction
    bits.  A finite value is [m * 2^e] with [m < 2^24]; it is subnormal
    when [m < 2^23]. *)
Definition bitsOf (sf : spec_float) : Z :=
  match sf with
  | S754_zero s => signBit s
  | S754_infinity s => signBit s + 0x7f800000
  | S754_nan => 0x7fc00000
  | S754_finite s m e =>
      let expField := if Z.pos m <? 0x800000 then 0 else (e + 150) mod 256 in
      signBit s + expField * 0x800000 + Z.pos m mod 0x800000
  end.

(** The number denoted by a 32-bit pattern, as a binary64 number. *)
Definition valueOf (w : Z) : float :=
  let s := Z.odd (w / 0x80000000)%Z in
  let e := ((w / 0x800000) mod 256)%Z in
  let f := (w mod 0x800000)%Z in
  if (e =? 255)%Z then
    if (f =? 0)%Z then (if s then neg_infinity else infinity) else nan
  else if (e =? 0)%Z then
    match f with
    | Zpos m => SF2Prim (S754_finite s m (-149)%Z)
    | _ => if s then neg_zero else zero
    end
  else
    match (f + 0x800000)%Z with
    | Zpos m => SF2Prim (S754_finite s m (e - 150)%Z)
    | _ => nan
    end.


(** Little-endian bytes of a 32-bit word, and back. *)
Definition leBytes (w : Z) : list Z :=
  [ w mod 256; (w / 256) mod 256; (w / 65536) mod 256; (w / 16777216) mod 256 ].

Fixpoint leWords (bs : list Z) : list Z :=
  match bs with
  | b0 :: b1 :: b2 :: b3 :: r =>
      (b0 + 256 * b1 + 65536 * b2 + 16777216 * b3) :: leWords r
  | _ => []
  end.

(** [Buffer.from(new Float32Array(embedding).buffer)]. *)
Definition embeddingBuffer (embedding : list float) : list Z :=
  flat_map leBytes (map (fun x => bitsOf (round32 x)) embedding).

(** [new Float32Array(b.buffer, b.byteOffset, b.byteLength / 4)], read
    element by element. *)
Definition embeddingArray (buf : list Z) : list float :=
  map valueOf (leWords buf).

End Float32.

(** ** Effects: mutable state, exceptions and non-termination *)

(** The result of a JavaScript computation that returned or threw. *)
Inductive outcome (A : Type) : Type :=
| Ok (a : A)
| Throw (msg : string).
Arguments Ok {A} a.
Arguments Throw {A} msg.

(** A computation over a mutable state [S]: [None] when it does not finish
    (the chunker ran out of fuel), otherwise the final state together with
    the value returned or the exception thrown.  An exception keeps the
    state changes made before it. *)
Definition Eff (S A : Type) : Type := S -> option (S * outcome A).

Definition ret {S A : Type} (a : A) : Eff S A := fun s => Some (s, Ok a).
Definition throw {S A : Type} (msg : string) : Eff S A := fun s => Some (s, Throw msg).
Definition diverge {S A : Type} : Eff S A := fun _ => None.

Definition bind {S A B : Type} (m : Eff S A) (k : A -> Eff S B) : Eff S B :=
  fun s =>
    match m s with
    | None => None
    | Some (s', Ok a) => k a s'
    | Some (s', Throw msg) => Some (s', Throw msg)
    end.

Notation "x <- m ;; k" := (bind m (fun x => k))
  (at level 61, m at next level, right associativity).
Notation "m ;;; k" := (bind m (fun _ => k))
  (at level 61, right associativity).

Definition gets {S A : Type} (f : S -> A) : Eff S A := fun s => Some (s, Ok (f s)).
Definition modify {S : Type} (f : S -> S) : Eff S unit := fun s => Some (f s, Ok tt).
Definition liftOutcome {S A : Type} (o : outcome A) : Eff S A := fun s => Some (s, o).

(** [try { m } catch (err) { handler(err) }]. *)
Definition tryCatch {S A : Type} (m : Eff S A) (handler : string -> Eff S A) : Eff S A :=
  fun s =>
    match m s with
    | None => None
    | Some (s', Ok a) => Some (s', Ok a)
    | Some (s', Throw msg) => handler msg s'
    end.

(** [for (const x of xs) { body(x) }]. *)
Fixpoint forEach {S A : Type} (xs : list A) (body : A -> Eff S unit) : Eff S unit :=
  match xs with
  | [] => ret tt
  | x :: r => body x ;;; forEach r body
  end.

(** [for (let i = start; i < start + xs.length; i++) { body(i, xs[i - start]) }]. *)
Fixpoint forEachIndexed {S A : Type} (start : Z) (xs : list A)
         (body : Z -> A -> Eff S unit) : Eff S unit :=
  match xs with
  | [] => ret tt
  | x :: r => body start x ;;; forEachIndexed (start + 1) r body
  end.

(** ** The store (database/init.ts and database/operations.ts)

    Tables are lists of rows in insertion order.  The constraints are those
    of the schema: primary keys, [UNIQUE], and the two
    [FOREIGN KEY ... ON DELETE CASCADE] clauses, which the bundled SQLite
    of better-sqlite3 enforces.  The timestamp columns of [files] are not
    modelled. *)

Record FileRecord := {
  file_id : Z;
  file_path : string;
  file_hash : string
}.

Record ChunkRecord := {
  chunk_id : Z;
  chunk_file_id : Z;
  chunk_index : Z;
  chunk_content : string;
  chunk_raw_text : string;
  chunk_embedding : option (list Z)
}.

(** A row of the FTS5 table [chunks_fts]. *)
Record FtsRow := {
  fts_rowid : Z;
  fts_content : string
}.

(** [Conversation] and [Exchange] of conversations/types.ts.  An absent
    optional string is [None]. *)
Record Conversation := {
  conv_id : string;
  conv_source : string;
  conv_sessionId : string;
  conv_timestamp : string;
  conv_archivePath : string;
  conv_exchangeCount : Z;
  conv_lastIndexed : option Z;
  conv_copilotVersion : option string;
  conv_cwd : option string
}.

Record Exchange := {
  ex_id : string;
  ex_conversationId : string;
  ex_exchangeIndex : Z;
  ex_timestamp : string;
  ex_userMessage : string;
  ex_assistantMessage : string;
  ex_toolCalls : option (list string);
  ex_parentId : option string
}.

Record ConversationRow := {
  row_conversation : Conversation;
  row_hash : string
}.

Record ExchangeRow := {
  row_exchange : Exchange;
  row_embedding : option (list Z)
}.

(** [seq_files] and [seq_chunks] are the rows of [sqlite_sequence] that
    back the two [AUTOINCREMENT] keys ([None]: no row). *)
Record Database := {
  files : list FileRecord;
  chunks : list ChunkRecord;
  chunks_fts : list FtsRow;
  conversations : list ConversationRow;
  exchanges : list ExchangeRow;
  seq_files : option Z;
  seq_chunks : option Z
}.

Definition emptyDatabase : Database :=
  {| files := []; chunks := []; chunks_fts := []; conversations := [];
     exchanges := []; seq_files := None; seq_chunks := None |}.

Definition setFiles (db : Database) (fs : list FileRecord) (sq : option Z) : Database :=
  {| files := fs; chunks := chunks db; chunks_fts := chunks_fts db;
     conversations := conversations db; exchanges := exchanges db;
     seq_files := sq; seq_chunks := seq_chunks db |}.

Definition setChunks (db : Database) (cs : list ChunkRecord) (sq : option Z) : Database :=
  {| files := files db; chunks := cs; chunks_fts := chunks_fts db;
     conversations := conversations db; exchanges := exchanges db;
     seq_files := seq_files db; seq_chunks := sq |}.

Definition setFts (db : Database) (rows : list FtsRow) : Database :=
  {| files := files db; chunks := chunks db; chunks_fts := rows;
     conversations := conversations db; exchanges := exchanges db;
     seq_files := seq_files db; seq_chunks := seq_chunks db |}.

Definition setConversations (db : Database) (cs : list ConversationRow)
           (es : list ExchangeRow) : Database :=
  {| files := files db; chunks := chunks db; chunks_fts := chunks_fts db;
     conversations := cs; exchanges := es;
     seq_files := seq_files db; seq_chunks := seq_chunks db |}.

(** The rowid an [AUTOINCREMENT] key assigns: one more than the largest
    rowid ever used. *)
Definition nextRowid (ids : list Z) (sq : option Z) : Z :=
  Z.max (fold_right Z.max 0 ids) (match sq with Some n => n | None => 0 end) + 1.

(** A statement either changes the database or fails and leaves it as it
    was. *)
Definition Stmt (A : Type) : Type := Database -> outcome (Database * A).

Definition insertFile (filePath hash : string) : Stmt Z :=
  fun db =>
    if existsb (fun f => String.eqb (file_path f) filePath) (files db)
    then Throw "UNIQUE constraint failed: files.path"
    else
      let id := nextRowid (map file_id (files db)) (seq_files db) in
      Ok (setFiles db (files db ++ [{| file_id := id; file_path := filePath;
                                       file_hash := hash |}]) (Some id), id).

Definition getFileByPath (db : Database) (filePath : string) : option FileRecord :=
  find (fun f => String.eqb (file_path f) filePath) (files db).

Definition getAllFiles (db : Database) : list FileRecord := files db.

Definition updateFileHash (fileId : Z) (hash : string) : Stmt unit :=
  fun db =>
    Ok (setFiles db
          (map (fun f => if file_id f =? fileId
                         then {| file_id := file_id f; file_path := file_path f;
                                 file_hash := hash |}
                         else f) (files db))
          (seq_files db), tt).

(** [DELETE FROM files WHERE id = ?]; the chunks of the file go with it
    ([ON DELETE CASCADE]). *)
Definition deleteFile (fileId : Z) : Stmt unit :=
  fun db =>
    let db1 := setFiles db (filter (fun f => negb (file_id f =? fileId)) (files db))
                        (seq_files db) in
    Ok (setChunks db1 (filter (fun c => negb (chunk_file_id c =? fileId)) (chunks db1))
                  (seq_chunks db1), tt).

(** [DELETE FROM chunks WHERE file_id = ?]. *)
Definition deleteChunksByFileId (fileId : Z) : Stmt unit :=
  fun db =>
    Ok (setChunks db (filter (fun c => negb (chunk_file_id c =? fileId)) (chunks db))
                  (seq_chunks db), tt).

Definition insertChunkWithEmbedding (fileId chunkIndex : Z) (content rawText : string)
           (embedding : list Z) : Stmt Z :=
  fun db =>
    if negb (existsb (fun f => file_id f =? fileId) (files db))
    then Throw "FOREIGN KEY constraint failed"
    else if existsb (fun c => (chunk_file_id c =? fileId) && (chunk_index c =? chunkIndex))%bool
                    (chunks db)
    then Throw "UNIQUE constraint failed: chunks.file_id, chunks.chunk_index"
    else
      let id := nextRowid (map chunk_id (chunks db)) (seq_chunks db) in
      Ok (setChunks db (chunks db ++ [{| chunk_id := id; chunk_file_id := fileId;
                                         chunk_index := chunkIndex;
                                         chunk_content := content;
                                         chunk_raw_text := rawText;
                                         chunk_embedding := Some embedding |}])
                    (Some id), id).

(** [INSERT INTO chunks_fts (rowid, content) VALUES (?, ?)]. *)
Definition insertFts (rowid : Z) (content : string) : Stmt unit :=
  fun db =>
    if existsb (fun r => fts_rowid r =? rowid) (chunks_fts db)
    then Throw "constraint failed"
    else Ok (setFts db (chunks_fts db ++ [{| fts_rowid := rowid; fts_content := content |}]),
             tt).

(** ** Reset (reset.ts) *)

Definition resetDatabase (db : Database) : Database :=
  (* DELETE FROM chunks; DELETE FROM files *)
  let db1 := setChunks db [] (seq_chunks db) in
  let db2 := setFiles db1 [] (seq_files db1) in
  (* DELETE FROM chunks_fts *)
  let db3 := setFts db2 [] in
  (* DELETE FROM sqlite_sequence WHERE name IN ('files', 'chunks') *)
  let db4 := setChunks (setFiles db3 (files db3) None) (chunks db3) None in
  (* VACUUM changes no row *)
  db4.

(** ** The note indexer (indexer/index.ts) *)

(** States that carry the database connection. *)
Class HasDb (S : Type) := {
  getDb : S -> Database;
  putDb : S -> Database -> S
}.

(** Run one statement; a failing statement throws and changes nothing. *)
Definition run {S A : Type} `{HasDb S} (st : Stmt A) : Eff S A :=
  fun s =>
    match st (getDb s) with
    | Ok (db', a) => Some (putDb s db', Ok a)
    | Throw msg => Some (s, Throw msg)
    end.

(** [db.transaction(fn)()]: the changes of [fn] are rolled back when it
    throws. *)
Definition transaction {S A : Type} `{HasDb S} (m : Eff S A) : Eff S A :=
  fun s =>
    match m s with
    | None => None
    | Some (s', Ok a) => Some (s', Ok a)
    | Some (s', Throw msg) => Some (putDb s' (getDb s), Throw msg)
    end.

Record IndexStats := {
  filesProcessed : Z;
  filesAdded : Z;
  filesUpdated : Z;
  filesSkipped : Z;
  filesDeleted : Z;
  chunksCreated : Z;
  errors : list string
}.

Definition emptyStats : IndexStats :=
  {| filesProcessed := 0; filesAdded := 0; filesUpdated := 0; filesSkipped := 0;
     filesDeleted := 0; chunksCreated := 0; errors := [] |}.

(** The [stats] object is shared and mutated in place, so it is part of the
    state next to the database. *)
Record NoteState := {
  ns_db : Database;
  ns_stats : IndexStats
}.

#[global] Instance NoteState_HasDb : HasDb NoteState := {
  getDb := ns_db;
  putDb := fun s db => {| ns_db := db; ns_stats := ns_stats s |}
}.

Definition updStats (f : IndexStats -> IndexStats) : Eff NoteState unit :=
  modify (fun s => {| ns_db := ns_db s; ns_stats := f (ns_stats s) |}).

Definition incProcessed (t : IndexStats) : IndexStats :=
  {| filesProcessed := filesProcessed t + 1; filesAdded := filesAdded t;
     filesUpdated := filesUpdated t; filesSkipped := filesSkipped t;
     filesDeleted := filesDeleted t; chunksCreated := chunksCreated t;
     errors := errors t |}.
Definition incAdded (t : IndexStats) : IndexStats :=
  {| filesProcessed := filesProcessed t; filesAdded := filesAdded t + 1;
     filesUpdated := filesUpdated t; filesSkipped := filesSkipped t;
     filesDeleted := filesDeleted t; chunksCreated := chunksCreated t;
     errors := errors t |}.
Definition incUpdated (t : IndexStats) : IndexStats :=
  {| filesProcessed := filesProcessed t; filesAdded := filesAdded t;
     filesUpdated := filesUpdated t + 1; filesSkipped := filesSkipped t;
     filesDeleted := filesDeleted t; chunksCreated := chunksCreated t;
     errors := errors t |}.
Definition incSkipped (t : IndexStats) : IndexStats :=
  {| filesProcessed := filesProcessed t; filesAdded := filesAdded t;
     filesUpdated := filesUpdated t; filesSkipped := filesSkipped t + 1;
     filesDeleted := filesDeleted t; chunksCreated := chunksCreated t;
     errors := errors t |}.
Definition incDeleted (t : IndexStats) : IndexStats :=
  {| filesProcessed := filesProcessed t; filesAdded := filesAdded t;
     filesUpdated := filesUpdated t; filesSkipped := filesSkipped t;
     filesDeleted := filesDeleted t + 1; chunksCreated := chunksCreated t;
     errors := errors t |}.
Definition incChunks (t : IndexStats) : IndexStats :=
  {| filesProcessed := filesProcessed t; filesAdded := filesAdded t;
     filesUpdated := filesUpdated t; filesSkipped := filesSkipped t;
     filesDeleted := filesDeleted t; chunksCreated := chunksCreated t + 1;
     errors := errors t |}.
Definition pushError (msg : string) (t : IndexStats) : IndexStats :=
  {| filesProcessed := filesProcessed t; filesAdded := filesAdded t;
     filesUpdated := filesUpdated t; filesSkipped := filesSkipped t;
     filesDeleted := filesDeleted t; chunksCreated := chunksCreated t;
     errors := errors t ++ [msg] |}.

(** A Markdown file found by [findMarkdownFiles]: its absolute path, its
    path relative to the knowledge base, and its content. *)
Record MarkdownFile := {
  md_path : string;
  md_relative : string;
  md_content : string
}.

(** [embedder.generateEmbedding], which may reject. *)
Definition Embedder : Type := string -> outcome (list float).

Section NoteIndexer.

Variable fuel : nat.
Variable embedder : Embedder.
Variables chunkSize chunkOverlap : Z.

Definition processFileContent (fileId : Z) (file : MarkdownFile) : Eff NoteState unit :=
  match chunkText fuel (md_content file) chunkSize chunkOverlap with
  | None => diverge
  | Some chunkList =>
      forEachIndexed 0 chunkList (fun i chunkContent =>
        embedding <- liftOutcome (embedder chunkContent) ;;
        let embeddingBuffer := Float32.embeddingBuffer embedding in
        chunkId <- run (insertChunkWithEmbedding fileId i chunkContent chunkContent
                                                 embeddingBuffer) ;;
        run (insertFts chunkId chunkContent) ;;;
        updStats incChunks)
  end.

(** The first loop of [indexFiles]: rows whose path is no longer on disk. *)
Definition deleteMissing (currentFilePaths : list string) (dbFile : FileRecord)
  : Eff NoteState unit :=
  if existsb (String.eqb (file_path dbFile)) currentFilePaths then ret tt
  else
    tryCatch
      (run (deleteChunksByFileId (file_id dbFile)) ;;;
       run (deleteFile (file_id dbFile)) ;;;
       updStats incDeleted)
      (fun err => updStats (pushError
         (String.append "Error deleting "
            (String.append (file_path dbFile) (String.append ": " err))))).

(** The body of the second loop of [indexFiles]. *)
Definition indexFile (file : MarkdownFile) : Eff NoteState unit :=
  updStats incProcessed ;;;
  tryCatch
    (let relativePath := md_relative file in
     let fileHash := Sha256.sha256hex (md_content file) in
     existingFile <- gets (fun s => getFileByPath (ns_db s) relativePath) ;;
     match existingFile with
     | Some existing =>
         if String.eqb (file_hash existing) fileHash then updStats incSkipped
         else
           updStats incUpdated ;;;
           run (deleteChunksByFileId (file_id existing)) ;;;
           run (updateFileHash (file_id existing) fileHash) ;;;
           processFileContent (file_id existing) file
     | None =>
         updStats incAdded ;;;
         fileId <- run (insertFile relativePath fileHash) ;;
         processFileContent fileId file
     end)
    (fun err => updStats (pushError
       (String.append "Error processing "
          (String.append (md_path file) (String.append ": " err))))).

Definition indexFiles (markdownFiles : list MarkdownFile) : Eff NoteState unit :=
  let currentFilePaths := map md_relative markdownFiles in
  dbFiles <- gets (fun s => getAllFiles (ns_db s)) ;;
  forEach dbFiles (deleteMissing currentFilePaths) ;;;
  forEach markdownFiles indexFile.

(** One ingestion run from a given database: the database and the
    statistics it leaves, or [None] when the run does not finish. *)
Definition ingest (db : Database) (markdownFiles : list MarkdownFile)
  : option (Database * IndexStats) :=
  match indexFiles markdownFiles {| ns_db := db; ns_stats := emptyStats |} with
  | Some (s, _) => Some (ns_db s, ns_stats s)
  | None => None
  end.

End NoteIndexer.

(** Lexical shadow coherence: every chunk has exactly one row of
    [chunks_fts] with its identifier, and every row of [chunks_fts] belongs
    to a chunk of the store. *)
Definition shadowRowsOf (db : Database) (id : Z) : list FtsRow :=
  filter (fun r => fts_rowid r =? id) (chunks_fts db).

Definition shadowCoherent (db : Database) : Prop :=
  (forall c, In c (chunks db) -> List.length (shadowRowsOf db (chunk_id c)) = 1%nat) /\
  (forall r, In r (chunks_fts db) -> exists c, In c (chunks db) /\ chunk_id c = fts_rowid r).

(** A computation that only ever appends to [chunks_fts]. *)
Definition appendsShadowRows {A : Type} (m : Eff NoteState A) : Prop :=
  forall s s' o,
    m s = Some (s', o) ->
    exists extra, chunks_fts (ns_db s') = chunks_fts (ns_db s) ++ extra.

(** An embedder that maps every text to the same vector, as the stub of
    the tests does. *)
Definition stubEmbedder : Embedder := fun _ => Ok [1%float; 0%float; 0%float].

Definition noteA (content : string) : MarkdownFile :=
  {| md_path := "/kb/a.md"; md_relative := "a.md"; md_content := content |}.

(** ** Conversations: the Copilot parser (parsers/copilot.ts) *)

(** A tool request of an assistant message; an absent field is the empty
    string, which the code treats like [undefined]. *)
Record ToolRequest := {
  tr_name : string;
  tr_tool : string
}.

(** The [data] payload of an event.  Absent fields are empty: every use in
    the parser goes through [||] or a truthiness test, which do not
    distinguish an absent field from an empty one. *)
Record EventData := {
  d_sessionId : string;
  d_copilotVersion : string;
  d_content : string;
  d_toolRequests : list ToolRequest;
  d_name : string
}.

Record CopilotEvent := {
  ev_type : string;
  ev_data : EventData;
  ev_id : string;
  ev_timestamp : string;
  ev_parentId : string
}.

Record ParsedConversation := {
  conversation : Conversation;
  parsedExchanges : list Exchange
}.

(** JavaScript truthiness of a string. *)
Definition truthy (s : string) : bool := negb (String.eqb s EmptyString).

(** [s || undefined] for an optional field. *)
Definition orUndefined (s : string) : option string :=
  if truthy s then Some s else None.

(** [randomUUID()]: identifiers are drawn from a counter, so that two draws
    never coincide. *)
Definition uuid (n : nat) : string :=
  String.append "uuid-" (NilEmpty.string_of_uint (Nat.to_uint n)).

Definition toolCallsOf (e : Exchange) : list string :=
  match ex_toolCalls e with Some l => l | None => [] end.

Definition withAssistant (e : Exchange) (msg : string) (tools : list string) : Exchange :=
  {| ex_id := ex_id e; ex_conversationId := ex_conversationId e;
     ex_exchangeIndex := ex_exchangeIndex e; ex_timestamp := ex_timestamp e;
     ex_userMessage := ex_userMessage e; ex_assistantMessage := msg;
     ex_toolCalls := Some tools; ex_parentId := ex_parentId e |}.

Definition withConversationId (sessionId : string) (e : Exchange) : Exchange :=
  {| ex_id := ex_id e; ex_conversationId := sessionId;
     ex_exchangeIndex := ex_exchangeIndex e; ex_timestamp := ex_timestamp e;
     ex_userMessage := ex_userMessage e; ex_assistantMessage := ex_assistantMessage e;
     ex_toolCalls := ex_toolCalls e; ex_parentId := ex_parentId e |}.

(** The loop state of [extractExchanges]. *)
Record ExtractState := {
  xs_exchanges : list Exchange;
  xs_current : option Exchange;
  xs_index : Z;
  xs_uuid : nat
}.

Definition completed (cur : option Exchange) : bool :=
  match cur with
  | Some c => (truthy (ex_userMessage c) && truthy (ex_assistantMessage c))%bool
  | None => false
  end.

Definition extractStep (st : ExtractState) (event : CopilotEvent) : ExtractState :=
  if String.eqb (ev_type event) "user.message" then
    let pushed := completed (xs_current st) in
    let exchanges' := if pushed
                      then xs_exchanges st ++ match xs_current st with
                                              | Some c => [c] | None => [] end
                      else xs_exchanges st in
    let index' := if pushed then xs_index st + 1 else xs_index st in
    {| xs_exchanges := exchanges';
       xs_current := Some {| ex_id := uuid (xs_uuid st);
                             ex_conversationId := EmptyString;
                             ex_exchangeIndex := index';
                             ex_timestamp := ev_timestamp event;
                             ex_userMessage := d_content (ev_data event);
                             ex_assistantMessage := EmptyString;
                             ex_toolCalls := Some [];
                             ex_parentId := orUndefined (ev_parentId event) |};
       xs_index := index';
       xs_uuid := S (xs_uuid st) |}
  else if String.eqb (ev_type event) "assistant.message" then
    match xs_current st with
    | Some c =>
        let content := d_content (ev_data event) in
        let msg := if truthy (ex_assistantMessage c)
                   then String.append (ex_assistantMessage c)
                          (String.append (String "010"%char EmptyString) content)
                   else content in
        let toolNames :=
          filter truthy
                 (map (fun tr => if truthy (tr_name tr) then tr_name tr else tr_tool tr)
                      (d_toolRequests (ev_data event))) in
        {| xs_exchanges := xs_exchanges st;
           xs_current := Some (withAssistant c msg (toolCallsOf c ++ toolNames));
           xs_index := xs_index st; xs_uuid := xs_uuid st |}
    | None => st
    end
  else if (String.eqb (ev_type event) "tool.call"
           || String.eqb (ev_type event) "tool.invoke")%bool then
    match xs_current st with
    | Some c =>
        if truthy (d_name (ev_data event)) then
          {| xs_exchanges := xs_exchanges st;
             xs_current := Some (withAssistant c (ex_assistantMessage c)
                                   (toolCallsOf c ++ [d_name (ev_data event)]));
             xs_index := xs_index st; xs_uuid := xs_uuid st |}
        else st
    | None => st
    end
  else st.

Definition findSessionStart (events : list CopilotEvent) : option CopilotEvent :=
  find (fun e => String.eqb (ev_type e) "session.start") events.

(** [extractExchanges(events)], given the next unused identifier; returns
    the exchanges and the next unused identifier. *)
Definition extractExchanges (events : list CopilotEvent) (next : nat)
  : list Exchange * nat :=
  let st := fold_left extractStep events
                      {| xs_exchanges := []; xs_current := None;
                         xs_index := 0; xs_uuid := next |} in
  let all := if completed (xs_current st)
             then xs_exchanges st ++ match xs_current st with
                                     | Some c => [c] | None => [] end
             else xs_exchanges st in
  let sessionId :=
    match findSessionStart events with
    | Some e => if truthy (d_sessionId (ev_data e)) then d_sessionId (ev_data e)
                else "unknown"
    | None => "unknown"
    end in
  (map (withConversationId sessionId) all, xs_uuid st).

(** ** Conversations: the indexer (conversations/indexer.ts) *)

(** An archive on disk: its raw text, and the events obtained by
    [JSON.parse] from its non-blank, well-formed lines. *)
Record Archive := {
  ar_content : string;
  ar_events : list CopilotEvent
}.

(** What a run reads but does not change: the files, the clock, and the
    OpenCode parser, which reads a foreign database and is not modelled. *)
Record Env := {
  env_fs : list (string * Archive);
  env_now : Z;
  env_parseOpencode : string -> string -> outcome ParsedConversation
}.

Record IndexOptions := {
  opt_embedder : option Embedder;
  opt_sessionId : option string
}.

(** The state a run changes: the database, the identifier source, and the
    texts handed to the embedder so far. *)
Record World := {
  w_db : Database;
  w_uuid : nat;
  w_embedded : list string
}.

#[global] Instance World_HasDb : HasDb World := {
  getDb := w_db;
  putDb := fun w db => {| w_db := db; w_uuid := w_uuid w; w_embedded := w_embedded w |}
}.

Definition readFile (env : Env) (filePath : string) : outcome Archive :=
  match find (fun entry => String.eqb (fst entry) filePath) (env_fs env) with
  | Some entry => Ok (snd entry)
  | None => Throw (String.append "ENOENT: no such file or directory, open " filePath)
  end.

Definition parseCopilotConversation (env : Env) (filePath : string)
  : Eff World ParsedConversation :=
  archive <- liftOutcome (readFile env filePath) ;;
  let events := ar_events archive in
  match findSessionStart events with
  | None => throw (String.append "No session.start event found in " filePath)
  | Some sessionStart =>
      let sessionId := d_sessionId (ev_data sessionStart) in
      next <- gets w_uuid ;;
      let '(exchangeList, next') := extractExchanges events next in
      modify (fun w => {| w_db := w_db w; w_uuid := next';
                          w_embedded := w_embedded w |}) ;;;
      ret {| conversation :=
               {| conv_id := sessionId; conv_source := "copilot";
                  conv_sessionId := sessionId;
                  conv_timestamp := ev_timestamp sessionStart;
                  conv_archivePath := filePath;
                  conv_exchangeCount := Z.of_nat (List.length exchangeList);
                  conv_lastIndexed := None;
                  conv_copilotVersion :=
                    orUndefined (d_copilotVersion (ev_data sessionStart));
                  conv_cwd := None |};
             parsedExchanges := exchangeList |}
  end.

(** [computeConversationFileHash(filePath)] (conversations/hashing.ts). *)
Definition computeConversationFileHash (env : Env) (filePath : string) : outcome string :=
  match readFile env filePath with
  | Ok archive => Ok (Sha256.sha256hex (ar_content archive))
  | Throw msg => Throw msg
  end.

Definition getConversation (db : Database) (id : string) : option ConversationRow :=
  find (fun r => String.eqb (conv_id (row_conversation r)) id) (conversations db).

Definition getAllConversationsBySource (db : Database) (source : string)
  : list ConversationRow :=
  filter (fun r => String.eqb (conv_source (row_conversation r)) source)
         (conversations db).

Definition exchangesOf (db : Database) (conversationId : string) : list ExchangeRow :=
  filter (fun r => String.eqb (ex_conversationId (row_exchange r)) conversationId)
         (exchanges db).

(** [DELETE FROM conversations WHERE id = ?]; the exchanges of the
    conversation go with it ([ON DELETE CASCADE]). *)
Definition deleteConversation (id : string) : Stmt unit :=
  fun db =>
    Ok (setConversations db
          (filter (fun r => negb (String.eqb (conv_id (row_conversation r)) id))
                  (conversations db))
          (filter (fun r => negb (String.eqb (ex_conversationId (row_exchange r)) id))
                  (exchanges db)), tt).

(** [DELETE FROM exchanges WHERE conversation_id = ?]. *)
Definition deleteExchangesForConversation (conversationId : string) : Stmt unit :=
  fun db =>
    Ok (setConversations db (conversations db)
          (filter (fun r => negb (String.eqb (ex_conversationId (row_exchange r))
                                             conversationId))
                  (exchanges db)), tt).

(** [INSERT OR REPLACE INTO conversations ...]: a row with the same
    identifier is deleted first (with its exchanges), then the new row is
    added.  [last_indexed] is [conversation.lastIndexed || Date.now()]. *)
Definition insertConversation (now : Z) (c : Conversation) (hash : string) : Stmt unit :=
  fun db =>
    let lastIndexed := match conv_lastIndexed c with
                       | Some t => if t =? 0 then now else t
                       | None => now
                       end in
    let stored := {| conv_id := conv_id c; conv_source := conv_source c;
                     conv_sessionId := conv_sessionId c;
                     conv_timestamp := conv_timestamp c;
                     conv_archivePath := conv_archivePath c;
                     conv_exchangeCount := conv_exchangeCount c;
                     conv_lastIndexed := Some lastIndexed;
                     conv_copilotVersion := conv_copilotVersion c;
                     conv_cwd := conv_cwd c |} in
    let replaced := existsb (fun r => String.eqb (conv_id (row_conversation r)) (conv_id c))
                            (conversations db) in
    Ok (setConversations db
          (filter (fun r => negb (String.eqb (conv_id (row_conversation r)) (conv_id c)))
                  (conversations db)
             ++ [{| row_conversation := stored; row_hash := hash |}])
          (if replaced
           then filter (fun r => negb (String.eqb (ex_conversationId (row_exchange r))
                                                  (conv_id c)))
                       (exchanges db)
           else exchanges db), tt).

Definition insertExchange (e : Exchange) : Stmt unit :=
  fun db =>
    if existsb (fun r => String.eqb (ex_id (row_exchange r)) (ex_id e)) (exchanges db)
    then Throw "UNIQUE constraint failed: exchanges.id"
    else if negb (existsb (fun r => String.eqb (conv_id (row_conversation r))
                                               (ex_conversationId e))
                          (conversations db))
    then Throw "FOREIGN KEY constraint failed"
    else Ok (setConversations db (conversations db)
               (exchanges db ++ [{| row_exchange := e; row_embedding := None |}]), tt).

(** [UPDATE exchanges SET embedding = ? WHERE id = ?]. *)
Definition insertExchangeEmbedding (exchangeId : string) (embedding : list float)
  : Stmt unit :=
  fun db =>
    let embeddingBuffer := Float32.embeddingBuffer embedding in
    Ok (setConversations db (conversations db)
          (map (fun r => if String.eqb (ex_id (row_exchange r)) exchangeId
                         then {| row_exchange := row_exchange r;
                                 row_embedding := Some embeddingBuffer |}
                         else r) (exchanges db)), tt).

Fixpoint joinWith (sep : string) (parts : list string) : string :=
  match parts with
  | [] => EmptyString
  | [x] => x
  | x :: r => String.append x (String.append sep (joinWith sep r))
  end.

Definition newline : string := String "010"%char EmptyString.

Definition formatExchangeForEmbedding (e : Exchange) : string :=
  let text := String.append "User: "
                (String.append (ex_userMessage e)
                   (String.append newline (String.append newline
                      (String.append "Assistant: " (ex_assistantMessage e))))) in
  match ex_toolCalls e with
  | Some (t :: ts) =>
      String.append text
        (String.append newline (String.append newline
           (String.append "Tools used: " (joinWith ", " (t :: ts)))))
  | _ => text
  end.

(** [generateExchangeEmbeddings]: every exchange is paired with its
    embedding (the [_embedding] property the code attaches to it). *)
Fixpoint generateExchangeEmbeddings (embedder : Embedder) (es : list Exchange)
  : Eff World (list (Exchange * option (list float))) :=
  match es with
  | [] => ret []
  | e :: r =>
      let text := formatExchangeForEmbedding e in
      modify (fun w => {| w_db := w_db w; w_uuid := w_uuid w;
                          w_embedded := w_embedded w ++ [text] |}) ;;;
      embedding <- liftOutcome (embedder text) ;;
      rest <- generateExchangeEmbeddings embedder r ;;
      ret ((e, Some embedding) :: rest)
  end.

Record FileResult := {
  indexed : bool;
  exchangeCount : Z
}.

Fixpoint lower (s : string) : string :=
  match s with
  | EmptyString => EmptyString
  | String c r =>
      let n := nat_of_ascii c in
      String (if (Nat.leb 65 n && Nat.leb n 90)%bool then ascii_of_nat (n + 32) else c)
             (lower r)
  end.

Definition includes (s sub : string) : bool :=
  match String.index 0 sub s with Some _ => true | None => false end.

Fixpoint basename (s : string) : string :=
  match s with
  | EmptyString => EmptyString
  | String c r => if includes r "/" then basename r
                  else if Ascii.eqb c "/"%char then r else s
  end.

(** [path.extname(filePath).toLowerCase() === '.db']. *)
Definition hasDbExtension (filePath : string) : bool :=
  let base := lower (basename filePath) in
  let n := String.length base in
  (Nat.ltb 3 n && String.eqb (String.substring (n - 3) 3 base) ".db")%bool.

(** The first step of [indexConversationFile]: the source is detected
    from the file name and the matching parser is invoked. *)
Definition parseArtifact (env : Env) (filePath : string) (options : IndexOptions)
  : Eff World ParsedConversation :=
  let isOpenCodeDb := (hasDbExtension filePath || includes filePath "opencode.db")%bool in
  if isOpenCodeDb then
    match opt_sessionId options with
    | Some sessionId =>
        if truthy sessionId
        then liftOutcome (env_parseOpencode env filePath sessionId)
        else throw "sessionId required for OpenCode database"
    | None => throw "sessionId required for OpenCode database"
    end
  else parseCopilotConversation env filePath.

Definition indexConversationFile (env : Env) (filePath : string) (options : IndexOptions)
  : Eff World FileResult :=
  parsed <- parseArtifact env filePath options ;;
  (* Compute hash of current file content *)
  fileHash <- liftOutcome (computeConversationFileHash env filePath) ;;
  (* Check if conversation already exists with same hash *)
  existing <- gets (fun w => getConversation (w_db w) (conv_id (conversation parsed))) ;;
  let count := Z.of_nat (List.length (parsedExchanges parsed)) in
  let unchanged := match existing with
                   | Some row => String.eqb (row_hash row) fileHash
                   | None => false
                   end in
  if unchanged then ret {| indexed := false; exchangeCount := count |}
  else
    withEmbeddings <-
      match opt_embedder options with
      | Some embedder => generateExchangeEmbeddings embedder (parsedExchanges parsed)
      | None => ret (map (fun e => (e, None)) (parsedExchanges parsed))
      end ;;
    transaction
      (run (deleteExchangesForConversation (conv_id (conversation parsed))) ;;;
       run (insertConversation (env_now env) (conversation parsed) fileHash) ;;;
       forEach withEmbeddings (fun item =>
         run (insertExchange (fst item)) ;;;
         match snd item with
         | Some embedding => run (insertExchangeEmbedding (ex_id (fst item)) embedding)
         | None => ret tt
         end)) ;;;
    ret {| indexed := true; exchangeCount := count |}.

Record IndexResult := {
  conversationsIndexed : Z;
  exchangesIndexed : Z;
  conversationsSkipped : Z;
  conversationsDeleted : Z;
  indexErrors : list string
}.

Definition emptyResult : IndexResult :=
  {| conversationsIndexed := 0; exchangesIndexed := 0; conversationsSkipped := 0;
     conversationsDeleted := 0; indexErrors := [] |}.

(** The test of the delete-detection loop: a Copilot conversation whose
    archive path is non-empty and absent from the current files. *)
Definition archiveGone (filePaths : list string) (row : ConversationRow) : bool :=
  (truthy (conv_archivePath (row_conversation row))
   && negb (existsb (String.eqb (conv_archivePath (row_conversation row))) filePaths))%bool.

(** The delete-detection loop of [indexConversationFiles]: the database it
    leaves and the updated summary. *)
Fixpoint deleteDetection (filePaths : list string) (rows : list ConversationRow)
         (db : Database) (result : IndexResult) : Database * IndexResult :=
  match rows with
  | [] => (db, result)
  | row :: rest =>
      if archiveGone filePaths row then
        match deleteConversation (conv_id (row_conversation row)) db with
        | Ok (db', _) =>
            deleteDetection filePaths rest db'
              {| conversationsIndexed := conversationsIndexed result;
                 exchangesIndexed := exchangesIndexed result;
                 conversationsSkipped := conversationsSkipped result;
                 conversationsDeleted := conversationsDeleted result + 1;
                 indexErrors := indexErrors result |}
        | Throw err =>
            deleteDetection filePaths rest db
              {| conversationsIndexed := conversationsIndexed result;
                 exchangesIndexed := exchangesIndexed result;
                 conversationsSkipped := conversationsSkipped result;
                 conversationsDeleted := conversationsDeleted result;
                 indexErrors :=
                   indexErrors result
                   ++ [String.append "Error deleting conversation "
                         (String.append (conv_id (row_conversation row))
                            (String.append ": " err))] |}
        end
      else deleteDetection filePaths rest db result
  end.

(** The indexing loop of [indexConversationFiles]. *)
Fixpoint indexLoop (env : Env) (options : IndexOptions) (filePaths : list string)
         (w : World) (result : IndexResult) : option (World * IndexResult) :=
  match filePaths with
  | [] => Some (w, result)
  | filePath :: rest =>
      match indexConversationFile env filePath options w with
      | None => None
      | Some (w', Ok r) =>
          indexLoop env options rest w'
            (if indexed r
             then {| conversationsIndexed := conversationsIndexed result + 1;
                     exchangesIndexed := exchangesIndexed result + exchangeCount r;
                     conversationsSkipped := conversationsSkipped result;
                     conversationsDeleted := conversationsDeleted result;
                     indexErrors := indexErrors result |}
             else {| conversationsIndexed := conversationsIndexed result;
                     exchangesIndexed := exchangesIndexed result;
                     conversationsSkipped := conversationsSkipped result + 1;
                     conversationsDeleted := conversationsDeleted result;
                     indexErrors := indexErrors result |})
      | Some (w', Throw err) =>
          indexLoop env options rest w'
            {| conversationsIndexed := conversationsIndexed result;
               exchangesIndexed := exchangesIndexed result;
               conversationsSkipped := conversationsSkipped result;
               conversationsDeleted := conversationsDeleted result;
               indexErrors := indexErrors result
                                ++ [String.append filePath (String.append ": " err)] |}
      end
  end.

Definition indexConversationFiles (env : Env) (filePaths : list string)
           (options : IndexOptions) (w : World) : option (World * IndexResult) :=
  let copilotConversations := getAllConversationsBySource (w_db w) "copilot" in
  let '(db1, result) :=
    deleteDetection filePaths copilotConversations (w_db w) emptyResult in
  indexLoop env options filePaths (putDb w db1) result.

(** The canonical payload as the specification describes it: the
    conversation's identifier, session identifier and source tag, and each
    exchange's position, user text and assistant text. *)
Definition canonicalPayload (p : ParsedConversation)
  : string * string * string * list (Z * string * string) :=
  (conv_id (conversation p), conv_sessionId (conversation p),
   conv_source (conversation p),
   map (fun e => (ex_exchangeIndex e, ex_userMessage e, ex_assistantMessage e))
       (parsedExchanges p)).

(** Whether the stored row with identifier [id] carries the fingerprint
    [hash]. *)
Definition storedFingerprintIs (db : Database) (id hash : string) : bool :=
  match getConversation db id with
  | Some row => String.eqb (row_hash row) hash
  | None => false
  end.

(** *** Archives as the tests write them *)

Definition quote : string := String "034"%char EmptyString.
Definition quoted (s : string) : string := String.append quote (String.append s quote).

Definition field (name value : string) : string :=
  String.append (quoted name) (String.append ":" value).

Definition object (fields : list string) : string :=
  String.append "{" (String.append (joinWith "," fields) "}").

(** [JSON.stringify] of an event whose strings need no escaping. *)
Definition stringify (e : CopilotEvent) : string :=
  let d := ev_data e in
  let data :=
    (if truthy (d_sessionId d) then [field "sessionId" (quoted (d_sessionId d))] else [])
    ++ (if truthy (d_copilotVersion d)
        then [field "copilotVersion" (quoted (d_copilotVersion d))] else [])
    ++ (if truthy (d_content d) then [field "content" (quoted (d_content d))] else [])
    ++ (if truthy (d_name d) then [field "name" (quoted (d_name d))] else []) in
  object [ field "type" (quoted (ev_type e));
           field "data" (object data);
           field "id" (quoted (ev_id e));
           field "timestamp" (quoted (ev_timestamp e));
           field "parentId" (if truthy (ev_parentId e) then quoted (ev_parentId e)
                             else "null") ].

(** The archive written by joining one line per event, and its events. *)
Definition writeArchive (events : list CopilotEvent) : Archive :=
  {| ar_content := joinWith newline (map stringify events); ar_events := events |}.

Definition noData : EventData :=
  {| d_sessionId := EmptyString; d_copilotVersion := EmptyString;
     d_content := EmptyString; d_toolRequests := []; d_name := EmptyString |}.

Definition sessionStartEvent (sessionId timestamp : string) : CopilotEvent :=
  {| ev_type := "session.start";
     ev_data := {| d_sessionId := sessionId; d_copilotVersion := "0.0.400";
                   d_content := EmptyString; d_toolRequests := [];
                   d_name := EmptyString |};
     ev_id := "e1"; ev_timestamp := timestamp; ev_parentId := EmptyString |}.

Definition messageEvent (kind id parent timestamp content : string) : CopilotEvent :=
  {| ev_type := kind;
     ev_data := {| d_sessionId := EmptyString; d_copilotVersion := EmptyString;
                   d_content := content; d_toolRequests := []; d_name := EmptyString |};
     ev_id := id; ev_timestamp := timestamp; ev_parentId := parent |}.

(** The conversation of the indexer tests, with the time of the two
    messages left open. *)
Definition testEvents (userTime assistantTime : string) : list CopilotEvent :=
  [ sessionStartEvent "test-session-1" "2026-02-18T10:00:00Z";
    messageEvent "user.message" "e2" "e1" userTime "Test question";
    messageEvent "assistant.message" "e3" "e2" assistantTime "Test answer" ].

Definition testPath : string := "/archive/conv1.jsonl".

Definition noOpencode : string -> string -> outcome ParsedConversation :=
  fun _ _ => Throw "unable to open database file".

Definition testEnv (userTime assistantTime : string) : Env :=
  {| env_fs := [(testPath, writeArchive (testEvents userTime assistantTime))];
     env_now := 1771408800000;
     env_parseOpencode := noOpencode |}.

(** The first export, and a re-export in which only the two message
    timestamps moved. *)
Definition firstExport : Env := testEnv "2026-02-18T10:00:05Z" "2026-02-18T10:00:10Z".
Definition reExport : Env := testEnv "2026-02-18T10:00:06Z" "2026-02-18T10:00:11Z".

Definition withStub : IndexOptions :=
  {| opt_embedder := Some stubEmbedder; opt_sessionId := None |}.

Definition freshWorld : World :=
  {| w_db := emptyDatabase; w_uuid := 0; w_embedded := [] |}.

(** The world after the first export was ingested. *)
Definition worldAfterFirst : World :=
  match indexConversationFile firstExport testPath withStub freshWorld with
  | Some (w, _) => w
  | None => freshWorld
  end.

(** The parse of the first export in a fresh world, and of the re-export
    in the world left by the first ingestion. *)
Definition parsedOr (r : option (World * outcome ParsedConversation))
  : World * ParsedConversation :=
  match r with
  | Some (w, Ok p) => (w, p)
  | _ => (freshWorld,
          {| conversation :=
               {| conv_id := EmptyString; conv_source := EmptyString;
                  conv_sessionId := EmptyString; conv_timestamp := EmptyString;
                  conv_archivePath := EmptyString; conv_exchangeCount := 0;
                  conv_lastIndexed := None; conv_copilotVersion := None;
                  conv_cwd := None |};
             parsedExchanges := [] |})
  end.

Definition firstParse : World * ParsedConversation :=
  parsedOr (parseArtifact firstExport testPath withStub freshWorld).
Definition secondParse : World * ParsedConversation :=
  parsedOr (parseArtifact firstExport testPath withStub worldAfterFirst).
Definition reExportParse : World * ParsedConversation :=
  parsedOr (parseArtifact reExport testPath withStub worldAfterFirst).

(** ** Sorting ([Array.prototype.sort] with a comparator)

    [before a b] holds when the comparator is negative on [(a, b)], that is
    when [a] has to come strictly before [b].  The sort is stable, as the
    language requires; on a comparator that is a strict weak order every
    stable sort returns this list. *)

Fixpoint insertSorted {A : Type} (before : A -> A -> bool) (x : A) (l : list A) : list A :=
  match l with
  | [] => [x]
  | y :: r => if before y x then y :: insertSorted before x r else x :: l
  end.

Fixpoint sortBy {A : Type} (before : A -> A -> bool) (l : list A) : list A :=
  match l with
  | [] => []
  | x :: r => insertSorted before x (sortBy before r)
  end.

(** ** Reciprocal rank fusion (search/rrf.ts) *)

(** [RankedResult]; the score is a binary64 number in the inputs and an
    exact rational in the fused output. *)
Record RankedResult (T : Type) := {
  id : Z;
  score : T
}.
Arguments id {T} r.
Arguments score {T} r.
Arguments Build_RankedResult {T} id score.

(** The accumulator [Map<number, number>]: keys in insertion order. *)
Definition ScoreMap : Type := list (Z * Q).

Fixpoint mapGet (m : ScoreMap) (key : Z) : option Q :=
  match m with
  | [] => None
  | (k0, v0) :: r => if k0 =? key then Some v0 else mapGet r key
  end.

(** [scores.set(key, v)]: an existing key keeps its position. *)
Fixpoint mapSet (m : ScoreMap) (key : Z) (v : Q) : ScoreMap :=
  match m with
  | [] => [(key, v)]
  | (k0, v0) :: r => if k0 =? key then (k0, v) :: r else (k0, v0) :: mapSet r key v
  end.

(** [scores.get(key) || 0]. *)
Definition currentScore (m : ScoreMap) (key : Z) : Q :=
  match mapGet m key with Some v => v | None => 0%Q end.

(** [1 / (k + rank + 1)]. *)
Definition rrfScore (k rank : Z) : Q := (1 / inject_Z (k + rank + 1))%Q.

(** [results.forEach((result, rank) => ...)], from position [rank] on. *)
Fixpoint addRanked {T : Type} (k rank : Z) (results : list (RankedResult T))
         (scores : ScoreMap) : ScoreMap :=
  match results with
  | [] => scores
  | result :: rest =>
      addRanked k (rank + 1) rest
                (mapSet scores (id result)
                        (currentScore scores (id result) + rrfScore k rank)%Q)
  end.

(** The accumulator after all lists were processed. *)
Definition accumulate {T : Type} (resultLists : list (list (RankedResult T))) (k : Z)
  : ScoreMap :=
  fold_left (fun scores results => addRanked k 0 results scores) resultLists [].

Definition entryOf (e : Z * Q) : RankedResult Q := {| id := fst e; score := snd e |}.

(** The comparator [(a, b) => b.score - a.score] is negative when [a] has
    the greater score. *)
Definition higherScore (a b : RankedResult Q) : bool :=
  negb (Qle_bool (score a) (score b)).

Definition mergeWithRRF {T : Type} (resultLists : list (list (RankedResult T))) (k : Z)
  : list (RankedResult Q) :=
  let merged := map entryOf (accumulate resultLists k) in
  sortBy higherScore merged.

(** *** The fusion formula, as a specification *)








(** The two ranked lists of the fusion scenario, [f1 f2 f3] and
    [f2 f1 f4]; input scores play no role. *)
Definition ranked (i : Z) : RankedResult float := {| id := i; score := 0%float |}.
Definition scenarioLists : list (list (RankedResult float)) :=
  [[ranked 1; ranked 2; ranked 3]; [ranked 2; ranked 1; ranked 4]].

(** ** The rankers (search/bm25.ts, search/vector.ts) *)

Record BM25Result := {
  bm25_chunk_id : Z;
  bm25_content : string;
  bm25_score : float
}.

Record VectorResult := {
  vec_chunk_id : Z;
  vec_content : string;
  similarity : float
}.

(** FTS5 is part of SQLite: [FtsEngine] stands for its [MATCH] operator and
    its [bm25()] function.  Given the table and the query text it either
    rejects the query or tells, for every row, whether it matches and with
    which score. *)
Definition FtsEngine : Type := list FtsRow -> string -> outcome (FtsRow -> option float).

(** [LIMIT ?]: a negative limit means no limit. *)
Definition sqlLimit {A : Type} (limit : Z) (rows : list A) : list A :=
  if limit <? 0 then rows else firstn (Z.to_nat limit) rows.

Definition bm25Search (fts : FtsEngine) (db : Database) (query : string) (limit : Z)
  : outcome (list BM25Result) :=
  match fts (chunks_fts db) query with
  | Throw msg => Throw msg
  | Ok matchRow =>
      let joined :=
        flat_map (fun row =>
          match matchRow row with
          | Some sc =>
              map (fun c => {| bm25_chunk_id := fts_rowid row;
                               bm25_content := chunk_content c;
                               bm25_score := sc |})
                  (filter (fun c => chunk_id c =? fts_rowid row) (chunks db))
          | None => []
          end) (chunks_fts db) in
      Ok (sqlLimit limit (sortBy (fun a b => PrimFloat.ltb (bm25_score a) (bm25_score b))
                                 joined))
  end.

(** The loop of [cosineSimilarity]: [b[i]] is [undefined] beyond the end of
    [b], and arithmetic on [undefined] gives NaN. *)
Fixpoint cosineLoop (a b : list float) (dotProduct normA normB : float)
  : float * float * float :=
  match a with
  | [] => (dotProduct, normA, normB)
  | x :: a' =>
      let y := hd nan b in
      cosineLoop a' (tl b) (dotProduct + x * y)%float (normA + x * x)%float
                 (normB + y * y)%float
  end.

Definition cosineSimilarity (a b : list float) : float :=
  let '(dotProduct, normA, normB) := cosineLoop a b 0%float 0%float 0%float in
  (dotProduct / (sqrt normA * sqrt normB))%float.

(** The comparator [(a, b) => b.similarity - a.similarity]. *)
Definition moreSimilar (a b : VectorResult) : bool :=
  PrimFloat.ltb (similarity b - similarity a)%float 0%float.

Definition similarityOf (queryEmbedding : list float) (c : ChunkRecord) : list VectorResult :=
  match chunk_embedding c with
  | Some embedding =>
      [{| vec_chunk_id := chunk_id c; vec_content := chunk_content c;
          similarity := cosineSimilarity queryEmbedding
                                         (Float32.embeddingArray embedding) |}]
  | None => []
  end.

Definition vectorSearch (db : Database) (queryEmbedding : list float) (limit : Z)
  : list VectorResult :=
  let results := flat_map (similarityOf queryEmbedding) (chunks db) in
  JS.slice0 (sortBy moreSimilar results) limit.

(** A vector all of whose components are zero ([+0] or [-0]): its norm is
    zero. *)
Definition zeroVector (v : list float) : bool := forallb is_zero v.

(** A number that is a zero or NaN. *)
Definition zeroOrNaN (x : float) : Prop :=
  Prim2SF x = S754_nan \/ exists s, Prim2SF x = S754_zero s.

(** ** Hybrid search (search/hybrid.ts) *)

Record SearchResult := {
  sr_content : string;
  sr_source_path : string;
  sr_score : Q;
  sr_chunk_index : Z
}.

(** [SELECT c.content, c.chunk_index, f.path FROM chunks c JOIN files f ON
    c.file_id = f.id WHERE c.id = ?]. *)
Definition chunkDetails (db : Database) (chunkId : Z) : option (string * Z * string) :=
  match find (fun c => chunk_id c =? chunkId) (chunks db) with
  | Some c =>
      match find (fun f => file_id f =? chunk_file_id c) (files db) with
      | Some f => Some (chunk_content c, chunk_index c, file_path f)
      | None => None
      end
  | None => None
  end.

(** The fused entries that are retained: [merged.slice(0, limit)]. *)
Definition topResults (fts : FtsEngine) (db : Database) (query : string)
           (queryEmbedding : list float) (limit : Z) : outcome (list (RankedResult Q)) :=
  match bm25Search fts db query (limit * 2) with
  | Throw msg => Throw msg
  | Ok bm25Results =>
      let vectorResults := vectorSearch db queryEmbedding (limit * 2) in
      let bm25Ranked := map (fun r => {| id := bm25_chunk_id r; score := bm25_score r |})
                            bm25Results in
      let vectorRanked := map (fun r => {| id := vec_chunk_id r; score := similarity r |})
                              vectorResults in
      let merged := mergeWithRRF [bm25Ranked; vectorRanked] 60 in
      Ok (JS.slice0 merged limit)
  end.

Definition normalizedScore (minScore scoreRange : Q) (ranked : RankedResult Q) : Q :=
  if Qlt_le_dec 0 scoreRange then ((score ranked - minScore) / scoreRange)%Q else 1%Q.

Definition formatResult (db : Database) (minScore scoreRange : Q)
           (ranked : RankedResult Q) : list SearchResult :=
  match chunkDetails db (id ranked) with
  | Some (content, index, path) =>
      [{| sr_content := content; sr_source_path := path;
          sr_score := normalizedScore minScore scoreRange ranked;
          sr_chunk_index := index |}]
  | None => []
  end.

Definition hybridSearch (fts : FtsEngine) (db : Database) (query : string)
           (queryEmbedding : list float) (limit : Z) : outcome (list SearchResult) :=
  match topResults fts db query queryEmbedding limit with
  | Throw msg => Throw msg
  | Ok top =>
      let maxScore := match top with r :: _ => score r | [] => 1%Q end in
      let minScore := match top with _ :: _ => score (last top {| id := 0; score := 0%Q |})
                                   | [] => 0%Q end in
      let scoreRange := (maxScore - minScore)%Q in
      Ok (flat_map (formatResult db minScore scoreRange) top)
  end.

(** Every chunk belongs to a file of the store (the foreign key of
    [chunks]). *)
Definition chunksHaveFiles (db : Database) : Prop :=
  forall c, In c (chunks db) -> exists f, In f (files db) /\ file_id f = chunk_file_id c.

(** An engine under which every row matches every query with the same
    score. *)
Definition matchAll : FtsEngine := fun _ _ => Ok (fun _ => Some (-1)%float).

(** The store after one note was ingested, and a store whose only chunk
    has the zero vector as embedding (as in the set-up of the reset tests). *)
Definition oneNoteDb : Database :=
  match ingest 100 stubEmbedder 500 50 emptyDatabase [noteA "hello world"] with
  | Some (db, _) => db
  | None => emptyDatabase
  end.

Definition zeroEmbedder : Embedder := fun _ => Ok [0%float; 0%float; 0%float].

Definition zeroVectorDb : Database :=
  match ingest 100 zeroEmbedder 500 50 emptyDatabase [noteA "hello world"] with
  | Some (db, _) => db
  | None => emptyDatabase
  end.

(** ** Further definitions used by the properties of Part III *)

(** Whether the character [c] occurs in [s]. *)
Fixpoint containsChar (c : ascii) (s : string) : bool :=
  match s with
  | EmptyString => false
  | String d r => (Ascii.eqb d c || containsChar c r)%bool
  end.

(** A start the loop of [chunkText] can reach when [0 <= overlap <
    chunkSize]: it is not negative, or it lies [overlap] characters before
    a space to which the previous window was backed off. *)
Definition reachableStart (text : string) (overlap start : Z) : Prop :=
  0 <= start \/
  (0 < start + overlap /\ JS.charAt text (Z.to_nat (start + overlap)) = Some space).

(** [SELECT * FROM chunks WHERE file_id = ? ORDER BY chunk_index]. *)
Definition getChunksByFileId (db : Database) (fileId : Z) : list ChunkRecord :=
  sortBy (fun a b => chunk_index a <? chunk_index b)
         (filter (fun c => chunk_file_id c =? fileId) (chunks db)).

(** [SELECT * FROM chunks WHERE id = ?]. *)
Definition getChunkWithEmbedding (db : Database) (chunkId : Z) : option ChunkRecord :=
  find (fun c => chunk_id c =? chunkId) (chunks db).

(** A property of the state that a computation keeps, whether it returns
    or throws. *)
Definition preserves {A : Type} (P : NoteState -> Prop) (m : Eff NoteState A) : Prop :=
  forall s s' o, P s -> m s = Some (s', o) -> P s'.

(** A property of the database that a statement keeps. *)
Definition stmtPreserves {A : Type} (Q : Database -> Prop) (st : Stmt A) : Prop :=
  forall db db' a, Q db -> st db = Ok (db', a) -> Q db'.




(** Every row of [files] stands for a current path. *)
Definition filesAreCurrent (currentFilePaths : list string) (db : Database) : Prop :=
  forall f, In f (files db) -> In (file_path f) currentFilePaths.

(** Every chunk has a row of [chunks_fts], no two rows of [chunks_fts]
    share a rowid, and no rowid is beyond the counter of [chunks]. *)
Definition chunksShadowed (db : Database) : Prop :=
  NoDup (map fts_rowid (chunks_fts db)) /\
  (forall c, In c (chunks db) -> In (chunk_id c) (map fts_rowid (chunks_fts db))) /\
  (forall r, In r (chunks_fts db) ->
             exists n, seq_chunks db = Some n /\ fts_rowid r <= n).

(** The two insertions of one round of [processFileContent] keep [Q]:
    whether the row of [chunks_fts] is inserted or refused, the database
    left behind satisfies [Q]. *)
Definition insertionsPreserve (Q : Database -> Prop) : Prop :=
  forall fileId i content raw emb db db1 id,
    Q db ->
    insertChunkWithEmbedding fileId i content raw emb db = Ok (db1, id) ->
    match insertFts id content db1 with
    | Ok (db2, _) => Q db2
    | Throw _ => Q db1
    end.

(** A computation that finishes from every state. *)
Definition finishes {S A : Type} (m : Eff S A) : Prop := forall s, m s <> None.

(** A computation on the conversation store that leaves the database as
    it found it. *)
Definition keepsDb {A : Type} (m : Eff World A) : Prop :=
  forall w w' o, m w = Some (w', o) -> w_db w' = w_db w.

(** Exchanges numbered from 0 in list order, each with a user text and an
    assistant text. *)
Definition wellFormedExchanges (es : list Exchange) : Prop :=
  (forall i e, nth_error es i = Some e -> ex_exchangeIndex e = Z.of_nat i) /\
  Forall (fun e => truthy (ex_userMessage e) = true /\
                   truthy (ex_assistantMessage e) = true) es.

(** What the loop of [extractExchanges] keeps between two events. *)
Definition extractInvariant (st : ExtractState) : Prop :=
  wellFormedExchanges (xs_exchanges st) /\
  xs_index st = Z.of_nat (List.length (xs_exchanges st)) /\
  match xs_current st with
  | Some c => ex_exchangeIndex c = xs_index st
  | None => True
  end.

(** The session identifier [extractExchanges] stamps on the exchanges. *)
Definition stampedSessionId (events : list CopilotEvent) : string :=
  match findSessionStart events with
  | Some e => if truthy (d_sessionId (ev_data e)) then d_sessionId (ev_data e)
              else "unknown"
  | None => "unknown"
  end.


(* ================================================================= *)
(** * Part II: properties *)
(* ================================================================= *)

(** ** The chunker *)

Lemma chunkLoop_windows fuel text chunkSize overlap :
  forall start acc out,
    chunkLoop fuel text chunkSize overlap start acc = Some out ->
    out = acc ++ map (fun w => JS.trim (JS.substring text (fst w) (snd w)))
                     (chunkWindows fuel text chunkSize overlap start).
Proof.
  induction fuel as [|fuel IH]; intros start acc out H; simpl in *.
  - discriminate.
  - destruct (start <? JS.length text).
    + destruct (windowEnd text chunkSize start >=? JS.length text).
      * injection H as <-. reflexivity.
      * apply IH in H. rewrite H, <- app_assoc. reflexivity.
    + injection H as <-. now rewrite app_nil_r.
Qed.

Lemma chunkText_windows fuel text chunkSize overlap out :
  JS.length text > chunkSize ->
  chunkText fuel text chunkSize overlap = Some out ->
  out = map (fun w => JS.trim (JS.substring text (fst w) (snd w)))
            (chunkWindows fuel text chunkSize overlap 0).
Proof.
  intros Hlen H. unfold chunkText in H.
  destruct (JS.length text <=? chunkSize) eqn:E.
  - apply Z.leb_le in E. lia.
  - now apply chunkLoop_windows in H.
Qed.

Lemma windowEnd_cases text chunkSize start :
  windowEnd text chunkSize start = start + chunkSize \/
  (windowEnd text chunkSize start = JS.lastIndexOf text space (start + chunkSize)
   /\ start < windowEnd text chunkSize start).
Proof.
  unfold windowEnd.
  destruct (start + chunkSize <? JS.length text); [|now left].
  destruct (JS.lastIndexOf text space (start + chunkSize) >? start) eqn:E; [|now left].
  right. split; [reflexivity|]. apply Z.gtb_lt in E. lia.
Qed.

Lemma chunkWindows_consecutive fuel text chunkSize overlap :
  forall start w1 w2,
    consecutive (chunkWindows fuel text chunkSize overlap start) w1 w2 ->
    snd w1 = windowEnd text chunkSize (fst w1) /\ fst w2 = snd w1 - overlap.
Proof.
  induction fuel as [|fuel IH]; intros start w1 w2 [i [H1 H2]]; simpl in *.
  - destruct i; discriminate.
  - destruct (start <? JS.length text); [|destruct i; discriminate].
    destruct (windowEnd text chunkSize start >=? JS.length text).
    + destruct i as [|[|i]]; discriminate.
    + destruct i as [|i]; simpl in *.
      * injection H1 as <-. simpl. split; [reflexivity|].
        destruct fuel as [|fuel]; simpl in H2; [discriminate|].
        destruct (windowEnd text chunkSize start - overlap <? JS.length text);
          [|discriminate].
        destruct (windowEnd text chunkSize (windowEnd text chunkSize start - overlap)
                  >=? JS.length text); injection H2 as <-; reflexivity.
      * apply (IH (windowEnd text chunkSize start - overlap)). now exists i.
Qed.

(** C6 (as stated, refuted): on ["aaaa bbbb cccc"] with chunk length 6 and
    overlap 1 the first window is backed off to the space at index 4, and
    the next window starts at 3, not at 6 - 1 = 5. *)
Lemma chunkText_stride_counterexample :
  JS.length "aaaa bbbb cccc" > 6 /\
  chunkText 10 "aaaa bbbb cccc" 6 1 = Some ["aaaa"; "a bbbb"; "b cccc"] /\
  chunkWindows 10 "aaaa bbbb cccc" 6 1 0 = [(0, 4); (3, 9); (8, 14)] /\
  ~ fixedStride "aaaa bbbb cccc" 6 1 10.
Proof.
  split; [reflexivity|]. split; [reflexivity|]. split; [reflexivity|].
  intros H. specialize (H (0, 4) (3, 9)).
  assert (C : consecutive (chunkWindows 10 "aaaa bbbb cccc" 6 1 0) (0, 4) (3, 9))
    by (exists 0%nat; split; reflexivity).
  apply H in C. simpl in C. discriminate.
Qed.

(** C6 (amended): for a text longer than the chunk length, the start of the
    next window is the end of the emitted window minus the overlap.  The
    emitted end is [start + chunkSize] unless it was backed off to the last
    space at or before that position, so the start advances by exactly
    [chunkSize - overlap] precisely when the end was not moved. *)
Theorem chunkText_next_start text chunkSize overlap fuel w1 w2 :
  JS.length text > chunkSize ->
  consecutive (chunkWindows fuel text chunkSize overlap 0) w1 w2 ->
  fst w2 = snd w1 - overlap /\
  (snd w1 = fst w1 + chunkSize \/
   (snd w1 = JS.lastIndexOf text space (fst w1 + chunkSize) /\ fst w1 < snd w1)) /\
  (fst w2 - fst w1 = chunkSize - overlap <-> snd w1 = fst w1 + chunkSize).
Proof.
  intros _ C. apply chunkWindows_consecutive in C as [E S].
  split; [exact S|]. split.
  - rewrite E. apply windowEnd_cases.
  - rewrite S. split; lia.
Qed.

Lemma chunkText_next_start_witness :
  fst (3, 9) = snd (0, 4) - 1 /\
  (snd (0, 4) = fst (0, 4) + 6 \/
   (snd (0, 4) = JS.lastIndexOf "aaaa bbbb cccc" space (fst (0, 4) + 6)
    /\ fst (0, 4) < snd (0, 4))) /\
  (fst (3, 9) - fst (0, 4) = 6 - 1 <-> snd (0, 4) = fst (0, 4) + 6).
Proof.
  apply (chunkText_next_start "aaaa bbbb cccc" 6 1 10 (0, 4) (3, 9)).
  - reflexivity.
  - exists 0%nat. split; reflexivity.
Defined.

Lemma chunkLoop_stuck text chunkSize overlap start :
  start < JS.length text ->
  windowEnd text chunkSize start < JS.length text ->
  windowEnd text chunkSize start - overlap = start ->
  forall fuel acc, chunkLoop fuel text chunkSize overlap start acc = None.
Proof.
  intros Hs He Hfix fuel. induction fuel as [|fuel IH]; intros acc; simpl.
  - reflexivity.
  - destruct (start <? JS.length text) eqn:E1; [|apply Z.ltb_ge in E1; lia].
    destruct (windowEnd text chunkSize start >=? JS.length text) eqn:E2.
    + apply Z.geb_le in E2. lia.
    + rewrite Hfix. apply IH.
Qed.

(** C10 (violated by the code): with chunk length 5 and overlap 2, so that
    [0 < overlap < chunkSize], the loop on ["a bbbbbbbbbb"] backs the first
    window off to the space at index 1, sets [start] to -1, and from then on
    recomputes the same window for ever: no number of iterations produces a
    result. *)
Theorem chunkText_diverges :
  0 < 2 < 5 /\ forall fuel, chunkText fuel "a bbbbbbbbbb" 5 2 = None.
Proof.
  split; [lia|]. intros [|fuel]; [reflexivity|].
  change (chunkLoop fuel "a bbbbbbbbbb" 5 2 (-1) ([] ++ ["a"]) = None).
  apply chunkLoop_stuck; reflexivity.
Qed.

(** The same happens with the default configuration (chunk length 500,
    overlap 50) on a note whose first word is followed by a 600-character
    token without spaces. *)
Lemma chunkText_diverges_default :
  forall fuel, chunkText fuel longTokenNote 500 50 = None.
Proof.
  intros [|fuel]; [reflexivity|].
  assert (E0 : chunkText (S fuel) longTokenNote 500 50
               = chunkLoop fuel longTokenNote 500 50 (-48) ([] ++ ["ab"])).
  { unfold chunkText.
    replace (JS.length longTokenNote <=? 500) with false by (vm_compute; reflexivity).
    cbn [chunkLoop].
    replace (0 <? JS.length longTokenNote) with true by (vm_compute; reflexivity).
    replace (windowEnd longTokenNote 500 0) with 2 by (vm_compute; reflexivity).
    replace (2 >=? JS.length longTokenNote) with false by (vm_compute; reflexivity).
    replace (JS.trim (JS.substring longTokenNote 0 2)) with "ab"
      by (vm_compute; reflexivity).
    reflexivity. }
  rewrite E0. apply chunkLoop_stuck; vm_compute; reflexivity.
Qed.

(** ** The embedding byte layout *)







(** The layout on a concrete vector: [1.0] is stored as [00 00 80 3f] and
    [0.5] as [00 00 00 3f]. *)
Example embeddingBuffer_example :
  Float32.embeddingBuffer [1%float; 0.5%float] = [0; 0; 128; 63; 0; 0; 0; 63].
Proof. vm_compute. reflexivity. Qed.

(** ** The conversation indexer *)

Lemma parseArtifact_keeps env filePath options w w1 o :
  parseArtifact env filePath options w = Some (w1, o) ->
  w_db w1 = w_db w /\ w_embedded w1 = w_embedded w.
Proof.
  unfold parseArtifact.
  destruct (hasDbExtension filePath || includes filePath "opencode.db")%bool.
  - destruct (opt_sessionId options) as [sid|];
      [destruct (truthy sid)|]; intros H; injection H as <- _; auto.
  - unfold parseCopilotConversation, bind, liftOutcome.
    destruct (readFile env filePath) as [archive|msg].
    + destruct (findSessionStart (ar_events archive)) as [ss|].
      * unfold gets. destruct (extractExchanges (ar_events archive) (w_uuid w)) as [l n].
        unfold modify, ret. intros H. injection H as <- _. auto.
      * intros H. injection H as <- _. auto.
    + intros H. injection H as <- _. auto.
Qed.

(** C1 (as stated, refuted): a re-export in which only the timestamps of
    the two messages moved has the same canonical payload as the stored
    conversation, yet its fingerprint differs from the stored one and the
    conversation is embedded and written again. *)
Lemma timestamp_only_change_counterexample :
  canonicalPayload (snd firstParse) = canonicalPayload (snd reExportParse) /\
  parseArtifact reExport testPath withStub worldAfterFirst
    = Some (fst reExportParse, Ok (snd reExportParse)) /\
  (exists row,
      getConversation (w_db worldAfterFirst) (conv_id (conversation (snd reExportParse)))
        = Some row /\
      computeConversationFileHash reExport testPath <> Ok (row_hash row)) /\
  (exists w3,
      indexConversationFile reExport testPath withStub worldAfterFirst
        = Some (w3, Ok {| indexed := true; exchangeCount := 1 |}) /\
      w_embedded w3 <> w_embedded worldAfterFirst /\
      w_db w3 <> w_db worldAfterFirst).
Proof.
  split; [vm_compute; reflexivity|].
  split; [vm_compute; reflexivity|].
  split.
  - eexists. split; [vm_compute; reflexivity|]. vm_compute. discriminate.
  - eexists. split; [vm_compute; reflexivity|]. split; vm_compute; discriminate.
Qed.

(** C1 (amended): the fingerprint compared against the stored row is the
    SHA-256 digest of the raw content of the artifact.  When the stored row
    with the parsed identifier carries that digest the conversation is
    skipped and neither the store nor the embedder is touched; otherwise the
    call never reports a skip. *)
Theorem fingerprint_is_file_digest env filePath options w w1 parsed archive :
  parseArtifact env filePath options w = Some (w1, Ok parsed) ->
  readFile env filePath = Ok archive ->
  if storedFingerprintIs (w_db w) (conv_id (conversation parsed))
                         (Sha256.sha256hex (ar_content archive))
  then indexConversationFile env filePath options w
       = Some (w1, Ok {| indexed := false;
                         exchangeCount := Z.of_nat (List.length (parsedExchanges parsed)) |})
       /\ w_db w1 = w_db w /\ w_embedded w1 = w_embedded w
  else forall w2 r,
      indexConversationFile env filePath options w = Some (w2, Ok r) ->
      indexed r = true.
Proof.
  intros Hparse Hread.
  destruct (parseArtifact_keeps _ _ _ _ _ _ Hparse) as [Hdb Hemb].
  assert (E : indexConversationFile env filePath options w
              = (if storedFingerprintIs (w_db w) (conv_id (conversation parsed))
                                        (Sha256.sha256hex (ar_content archive))
                 then ret {| indexed := false;
                             exchangeCount :=
                               Z.of_nat (List.length (parsedExchanges parsed)) |}
                 else
                   withEmbeddings <-
                     match opt_embedder options with
                     | Some embedder =>
                         generateExchangeEmbeddings embedder (parsedExchanges parsed)
                     | None => ret (map (fun e => (e, None)) (parsedExchanges parsed))
                     end ;;
                   transaction
                     (run (deleteExchangesForConversation (conv_id (conversation parsed))) ;;;
                      run (insertConversation (env_now env) (conversation parsed)
                             (Sha256.sha256hex (ar_content archive))) ;;;
                      forEach withEmbeddings (fun item =>
                        run (insertExchange (fst item)) ;;;
                        match snd item with
                        | Some embedding =>
                            run (insertExchangeEmbedding (ex_id (fst item)) embedding)
                        | None => ret tt
                        end)) ;;;
                   ret {| indexed := true;
                          exchangeCount :=
                            Z.of_nat (List.length (parsedExchanges parsed)) |}) w1).
  { unfold storedFingerprintIs, indexConversationFile, bind at 1.
    rewrite Hparse. unfold bind at 1, liftOutcome, computeConversationFileHash.
    rewrite Hread. unfold bind at 1, gets. rewrite Hdb. reflexivity. }
  rewrite E. clear E.
  destruct (storedFingerprintIs (w_db w) (conv_id (conversation parsed))
                                (Sha256.sha256hex (ar_content archive))).
  - split; [reflexivity|]. split; assumption.
  - intros w2 r. unfold bind at 1.
    destruct (match opt_embedder options with
              | Some embedder => generateExchangeEmbeddings embedder (parsedExchanges parsed)
              | None => ret (map (fun e => (e, None)) (parsedExchanges parsed))
              end w1) as [[w' [l|m]]|]; try discriminate.
    unfold bind at 1.
    match goal with |- context [transaction ?m w'] =>
      destruct (transaction m w') as [[w'' [u|m']]|] end; try discriminate.
    unfold ret. intros H. injection H as _ <-. reflexivity.
Qed.

Lemma fingerprint_is_file_digest_witness :
  indexConversationFile firstExport testPath withStub worldAfterFirst
  = Some (fst secondParse,
          Ok {| indexed := false;
                exchangeCount := Z.of_nat (List.length (parsedExchanges (snd secondParse))) |})
  /\ w_db (fst secondParse) = w_db worldAfterFirst
  /\ w_embedded (fst secondParse) = w_embedded worldAfterFirst.
Proof.
  assert (Hparse : parseArtifact firstExport testPath withStub worldAfterFirst
                   = Some (fst secondParse, Ok (snd secondParse)))
    by (vm_compute; reflexivity).
  assert (Hread : readFile firstExport testPath
                  = Ok (writeArchive (testEvents "2026-02-18T10:00:05Z"
                                                 "2026-02-18T10:00:10Z")))
    by reflexivity.
  generalize (fingerprint_is_file_digest firstExport testPath withStub worldAfterFirst
                (fst secondParse) (snd secondParse) _ Hparse Hread).
  replace (storedFingerprintIs (w_db worldAfterFirst)
             (conv_id (conversation (snd secondParse)))
             (Sha256.sha256hex
                (ar_content (writeArchive (testEvents "2026-02-18T10:00:05Z"
                                                      "2026-02-18T10:00:10Z")))))
    with true by (vm_compute; reflexivity).
  exact (fun H => H).
Defined.

(** *** Delete-detection and the cascade *)

Lemma find_filter_none {A : Type} (p q : A -> bool) (l : list A) :
  (forall x, p x = true -> q x = false) ->
  find p (filter q l) = None.
Proof.
  intros Hpq. induction l as [|x l IH]; [reflexivity|].
  simpl. destruct (q x) eqn:Q; [|exact IH].
  simpl. destruct (p x) eqn:P; [|exact IH].
  apply Hpq in P. congruence.
Qed.

Lemma filter_filter_nil {A : Type} (p q : A -> bool) (l : list A) :
  (forall x, p x = true -> q x = false) ->
  filter p (filter q l) = [].
Proof.
  intros Hpq. induction l as [|x l IH]; [reflexivity|].
  simpl. destruct (q x) eqn:Q; [|exact IH].
  simpl. destruct (p x) eqn:P; [|exact IH].
  apply Hpq in P. congruence.
Qed.

Lemma find_filter_keeps_none {A : Type} (p q : A -> bool) (l : list A) :
  find p l = None -> find p (filter q l) = None.
Proof.
  induction l as [|x l IH]; [reflexivity|].
  simpl. destruct (p x) eqn:P; [discriminate|]. intros H.
  destruct (q x); simpl; [rewrite P|]; auto.
Qed.

Lemma filter_filter_keeps_nil {A : Type} (p q : A -> bool) (l : list A) :
  filter p l = [] -> filter p (filter q l) = [].
Proof.
  induction l as [|x l IH]; [reflexivity|].
  simpl. destruct (p x) eqn:P; [discriminate|]. intros H.
  destruct (q x); simpl; [rewrite P|]; auto.
Qed.

(** The single [DELETE] statement removes the conversation row and, by the
    cascade, all of its exchanges. *)
Lemma deleteConversation_cascade id db :
  exists db', deleteConversation id db = Ok (db', tt) /\
              getConversation db' id = None /\ exchangesOf db' id = [].
Proof.
  eexists. split; [reflexivity|]. split.
  - unfold getConversation. simpl. apply find_filter_none.
    intros x ->. reflexivity.
  - unfold exchangesOf. simpl. apply filter_filter_nil.
    intros x ->. reflexivity.
Qed.

(** A deletion never brings back a conversation or an exchange. *)
Lemma deleteConversation_keeps_absent id id' db db' u :
  deleteConversation id' db = Ok (db', u) ->
  getConversation db id = None /\ exchangesOf db id = [] ->
  getConversation db' id = None /\ exchangesOf db' id = [].
Proof.
  intros H [Hc He]. injection H as <- _. split.
  - unfold getConversation in *. simpl. now apply find_filter_keeps_none.
  - unfold exchangesOf in *. simpl. now apply filter_filter_keeps_nil.
Qed.

Lemma deleteDetection_keeps_absent filePaths id :
  forall rows db n,
    getConversation db id = None /\ exchangesOf db id = [] ->
    getConversation (fst (deleteDetection filePaths rows db n)) id = None /\
    exchangesOf (fst (deleteDetection filePaths rows db n)) id = [].
Proof.
  induction rows as [|row rows IH]; intros db n H; cbn [deleteDetection]; [exact H|].
  destruct (archiveGone filePaths row); [|now apply IH].
  destruct (deleteConversation (conv_id (row_conversation row)) db) as [[db1 u]|msg] eqn:D.
  - apply IH. exact (deleteConversation_keeps_absent _ _ _ _ _ D H).
  - now apply IH.
Qed.

Lemma deleteDetection_removes filePaths row :
  forall rows db n,
    In row rows ->
    archiveGone filePaths row = true ->
    getConversation (fst (deleteDetection filePaths rows db n))
                    (conv_id (row_conversation row)) = None /\
    exchangesOf (fst (deleteDetection filePaths rows db n))
                (conv_id (row_conversation row)) = [].
Proof.
  induction rows as [|r rows IH]; intros db n Hin Hgone; [contradiction|].
  cbn [deleteDetection]. destruct Hin as [->|Hin].
  - rewrite Hgone.
    destruct (deleteConversation_cascade (conv_id (row_conversation row)) db)
      as [db1 [D [Hc He]]].
    rewrite D. apply deleteDetection_keeps_absent. now split.
  - destruct (archiveGone filePaths r); [|now apply IH].
    destruct (deleteConversation (conv_id (row_conversation r)) db) as [[db1 u]|msg];
      now apply IH.
Qed.

(** C3: a Copilot conversation whose archive path is absent from the
    current files is deleted by delete-detection; the [DELETE] statement
    removes the row together with all of its exchanges, and after the loop
    neither the conversation nor any exchange of it is in the store. *)
Theorem delete_detection_cascades db filePaths row :
  In row (getAllConversationsBySource db "copilot") ->
  archiveGone filePaths row = true ->
  (forall db0, exists db1,
      deleteConversation (conv_id (row_conversation row)) db0 = Ok (db1, tt) /\
      getConversation db1 (conv_id (row_conversation row)) = None /\
      exchangesOf db1 (conv_id (row_conversation row)) = []) /\
  (let db' := fst (deleteDetection filePaths (getAllConversationsBySource db "copilot") db
                                   emptyResult) in
   getConversation db' (conv_id (row_conversation row)) = None /\
   exchangesOf db' (conv_id (row_conversation row)) = [] /\
   forall e, In e (exchanges db') ->
             ex_conversationId (row_exchange e) <> conv_id (row_conversation row)).
Proof.
  intros Hin Hgone. split.
  - intros db0. apply deleteConversation_cascade.
  - destruct (deleteDetection_removes filePaths row _ db emptyResult Hin Hgone) as [Hc He].
    cbv zeta. split; [exact Hc|]. split; [exact He|].
    intros e Hine Heq.
    assert (Hf : In e (exchangesOf
                         (fst (deleteDetection filePaths
                                 (getAllConversationsBySource db "copilot") db
                                 emptyResult))
                         (conv_id (row_conversation row)))).
    { unfold exchangesOf. apply filter_In. split; [exact Hine|].
      rewrite Heq. apply String.eqb_refl. }
    rewrite He in Hf. contradiction.
Qed.

Lemma delete_detection_cascades_witness :
  let row := {| row_conversation :=
                  {| conv_id := "test-session-1"; conv_source := "copilot";
                     conv_sessionId := "test-session-1";
                     conv_timestamp := "2026-02-18T10:00:00Z";
                     conv_archivePath := testPath; conv_exchangeCount := 1;
                     conv_lastIndexed := Some 1771408800000;
                     conv_copilotVersion := Some "0.0.400"; conv_cwd := None |};
                row_hash := "462bfb3279b493035b8985f301f42650367f379e20bf324a999e4536c772f3c6" |} in
  exchangesOf (w_db worldAfterFirst) "test-session-1" <> [] /\
  let db' := fst (deleteDetection [] (getAllConversationsBySource (w_db worldAfterFirst) "copilot")
                                  (w_db worldAfterFirst) emptyResult) in
  getConversation db' "test-session-1" = None /\
  exchangesOf db' "test-session-1" = [] /\
  forall e, In e (exchanges db') ->
            ex_conversationId (row_exchange e) <> "test-session-1".
Proof.
  intros row. split; [vm_compute; discriminate|].
  refine (proj2 (delete_detection_cascades (w_db worldAfterFirst) [] row _ _)).
  - vm_compute. left. reflexivity.
  - vm_compute. reflexivity.
Defined.

(** ** Reset *)

Lemma resetDatabase_tables db :
  files (resetDatabase db) = [] /\ chunks (resetDatabase db) = [] /\
  chunks_fts (resetDatabase db) = [] /\
  seq_files (resetDatabase db) = None /\ seq_chunks (resetDatabase db) = None /\
  conversations (resetDatabase db) = conversations db /\
  exchanges (resetDatabase db) = exchanges db.
Proof. repeat split; reflexivity. Qed.

(** C7 (violated by the code): [resetDatabase] empties [files], [chunks]
    and [chunks_fts] and clears both autoincrement counters, but it has no
    statement for [conversations] and [exchanges]: on the store left by
    one conversation ingestion both tables still hold their rows after the
    reset. *)
Theorem reset_leaves_conversations :
  let db := resetDatabase (w_db worldAfterFirst) in
  files db = [] /\ chunks db = [] /\ chunks_fts db = [] /\
  seq_files db = None /\ seq_chunks db = None /\
  List.length (conversations db) = 1%nat /\ List.length (exchanges db) = 1%nat.
Proof. vm_compute. repeat split; reflexivity. Qed.

(** ** The note indexer *)

Section ShadowRows.

Variable fuel : nat.
Variable embedder : Embedder.
Variables chunkSize chunkOverlap : Z.

Lemma appends_ret {A : Type} (a : A) : appendsShadowRows (ret a).
Proof. intros s s' o H. injection H as <- _. exists []. now rewrite app_nil_r. Qed.

Lemma appends_pure {A : Type} (m : Eff NoteState A) :
  (forall s s' o, m s = Some (s', o) -> ns_db s' = ns_db s) ->
  appendsShadowRows m.
Proof.
  intros Hm s s' o H. rewrite (Hm _ _ _ H). exists []. now rewrite app_nil_r.
Qed.

Lemma appends_bind {A B : Type} (m : Eff NoteState A) (k : A -> Eff NoteState B) :
  appendsShadowRows m -> (forall a, appendsShadowRows (k a)) ->
  appendsShadowRows (bind m k).
Proof.
  intros Hm Hk s s' o. unfold bind.
  destruct (m s) as [[s1 [a|msg]]|] eqn:E; [| |discriminate].
  - intros H. destruct (Hm _ _ _ E) as [e1 E1]. destruct (Hk a _ _ _ H) as [e2 E2].
    exists (e1 ++ e2). now rewrite E2, E1, app_assoc.
  - intros H. injection H as <- _. exact (Hm _ _ _ E).
Qed.

Lemma appends_tryCatch {A : Type} (m : Eff NoteState A) (h : string -> Eff NoteState A) :
  appendsShadowRows m -> (forall msg, appendsShadowRows (h msg)) ->
  appendsShadowRows (tryCatch m h).
Proof.
  intros Hm Hh s s' o. unfold tryCatch.
  destruct (m s) as [[s1 [a|msg]]|] eqn:E; [| |discriminate].
  - intros H. injection H as <- _. exact (Hm _ _ _ E).
  - intros H. destruct (Hm _ _ _ E) as [e1 E1]. destruct (Hh msg _ _ _ H) as [e2 E2].
    exists (e1 ++ e2). now rewrite E2, E1, app_assoc.
Qed.

Lemma appends_forEach {A : Type} (xs : list A) (body : A -> Eff NoteState unit) :
  (forall x, appendsShadowRows (body x)) -> appendsShadowRows (forEach xs body).
Proof.
  intros Hb. induction xs as [|x xs IH]; cbn [forEach]; [apply appends_ret|].
  apply appends_bind; [apply Hb|intros _; exact IH].
Qed.

Lemma appends_forEachIndexed {A : Type} (xs : list A) (body : Z -> A -> Eff NoteState unit) :
  (forall i x, appendsShadowRows (body i x)) ->
  forall start, appendsShadowRows (forEachIndexed start xs body).
Proof.
  intros Hb. induction xs as [|x xs IH]; intros start; cbn [forEachIndexed];
    [apply appends_ret|].
  apply appends_bind; [apply Hb|intros _; apply IH].
Qed.

Lemma appends_updStats f : appendsShadowRows (updStats f).
Proof. apply appends_pure. intros s s' o H. injection H as <- _. reflexivity. Qed.

Lemma appends_run {A : Type} (st : Stmt A) :
  (forall db db' a, st db = Ok (db', a) ->
                    exists extra, chunks_fts db' = chunks_fts db ++ extra) ->
  appendsShadowRows (run st).
Proof.
  intros Hst s s' o. unfold run. cbn [getDb putDb NoteState_HasDb].
  destruct (st (ns_db s)) as [[db' a]|msg] eqn:E; intros H; injection H as <- _.
  - cbn [ns_db]. exact (Hst _ _ _ E).
  - exists []. now rewrite app_nil_r.
Qed.

Lemma keeps_fts {A : Type} (st : Stmt A) :
  (forall db db' a, st db = Ok (db', a) -> chunks_fts db' = chunks_fts db) ->
  appendsShadowRows (run st).
Proof.
  intros Hst. apply appends_run. intros db db' a H.
  rewrite (Hst _ _ _ H). exists []. now rewrite app_nil_r.
Qed.

(** Neither deletion statement touches [chunks_fts]. *)
Lemma deleteChunksByFileId_keeps_fts fileId db db' u :
  deleteChunksByFileId fileId db = Ok (db', u) -> chunks_fts db' = chunks_fts db.
Proof. intros H. injection H as <- _. reflexivity. Qed.

Lemma deleteFile_keeps_fts fileId db db' u :
  deleteFile fileId db = Ok (db', u) -> chunks_fts db' = chunks_fts db.
Proof. intros H. injection H as <- _. reflexivity. Qed.

Lemma processFileContent_appends fileId file :
  appendsShadowRows (processFileContent fuel embedder chunkSize chunkOverlap fileId file).
Proof.
  unfold processFileContent.
  destruct (chunkText fuel (md_content file) chunkSize chunkOverlap) as [chunkList|].
  - apply appends_forEachIndexed. intros i chunkContent.
    apply appends_bind.
    { apply appends_pure. intros s s' o H. injection H as <- _. reflexivity. }
    intros embedding. apply appends_bind.
    { apply keeps_fts. intros db db' a. unfold insertChunkWithEmbedding.
      destruct (negb _); [discriminate|]. destruct (existsb _ _); [discriminate|].
      intros H. injection H as <- _. reflexivity. }
    intros chunkId. apply appends_bind; [|intros _; apply appends_updStats].
    apply appends_run. intros db db' a. unfold insertFts.
    destruct (existsb _ _); [discriminate|].
    intros H. injection H as <- _. cbn [chunks_fts setFts]. eauto.
  - intros s s' o H. discriminate.
Qed.

(** No ingestion run removes a row of [chunks_fts]: the rows present
    before the run are still there afterwards, whatever was added, updated
    or deleted. *)
Lemma indexFiles_appends markdownFiles :
  appendsShadowRows (indexFiles fuel embedder chunkSize chunkOverlap markdownFiles).
Proof.
  unfold indexFiles. apply appends_bind.
  { apply appends_pure. intros s s' o H. injection H as <- _. reflexivity. }
  intros dbFiles. apply appends_bind; [|intros _].
  - apply appends_forEach. intros dbFile. unfold deleteMissing.
    destruct (existsb _ _); [apply appends_ret|].
    apply appends_tryCatch; [|intros msg; apply appends_updStats].
    apply appends_bind;
      [apply keeps_fts; intros db db' a; apply deleteChunksByFileId_keeps_fts|intros _].
    apply appends_bind;
      [apply keeps_fts; intros db db' a; apply deleteFile_keeps_fts|intros _].
    apply appends_updStats.
  - apply appends_forEach. intros file. unfold indexFile.
    apply appends_bind; [apply appends_updStats|intros _].
    apply appends_tryCatch; [|intros msg; apply appends_updStats].
    apply appends_bind.
    { apply appends_pure. intros s s' o H. injection H as <- _. reflexivity. }
    intros [existing|].
    + destruct (String.eqb _ _); [apply appends_updStats|].
      apply appends_bind; [apply appends_updStats|intros _].
      apply appends_bind;
        [apply keeps_fts; intros db db' a; apply deleteChunksByFileId_keeps_fts|intros _].
      apply appends_bind.
      { apply keeps_fts. intros db db' a H. injection H as <- _. reflexivity. }
      intros _. apply processFileContent_appends.
    + apply appends_bind; [apply appends_updStats|intros _].
      apply appends_bind.
      { apply keeps_fts. intros db db' a. unfold insertFile.
        destruct (existsb _ _); [discriminate|].
        intros H. injection H as <- _. reflexivity. }
      intros fileId. apply processFileContent_appends.
Qed.

End ShadowRows.

(** C2 (violated by the code): after a first run over one note the store
    is coherent; when the note is then removed, the second run deletes the
    file and its chunk but [deleteChunksByFileId] leaves the row of
    [chunks_fts] behind, so a shadow row exists for a fragment that has
    been deleted. *)
Theorem shadow_row_outlives_chunk :
  exists db1 stats1 db2 stats2,
    ingest 100 stubEmbedder 500 50 emptyDatabase [noteA "hello world"] = Some (db1, stats1) /\
    shadowCoherent db1 /\
    ingest 100 stubEmbedder 500 50 db1 [] = Some (db2, stats2) /\
    filesDeleted stats2 = 1 /\ errors stats2 = [] /\
    files db2 = [] /\ chunks db2 = [] /\
    chunks_fts db2 = [{| fts_rowid := 1; fts_content := "hello world" |}] /\
    ~ shadowCoherent db2.
Proof.
  do 4 eexists.
  split; [vm_compute; reflexivity|].
  split.
  { split.
    - intros c [<-|[]]. reflexivity.
    - intros r [<-|[]]. eexists. split; [left; reflexivity|reflexivity]. }
  split; [vm_compute; reflexivity|].
  do 5 (split; [reflexivity|]).
  intros [_ H]. destruct (H _ (or_introl eq_refl)) as [c [[] _]].
Qed.

(** The same defect on the update path: after the note changed, the store
    holds one chunk and two shadow rows. *)
Lemma shadow_row_outlives_update :
  exists db1 stats1 db2 stats2,
    ingest 100 stubEmbedder 500 50 emptyDatabase [noteA "hello world"] = Some (db1, stats1) /\
    ingest 100 stubEmbedder 500 50 db1 [noteA "changed"] = Some (db2, stats2) /\
    filesUpdated stats2 = 1 /\
    map chunk_id (chunks db2) = [2] /\ map fts_rowid (chunks_fts db2) = [1; 2].
Proof.
  do 4 eexists.
  split; [vm_compute; reflexivity|].
  split; [vm_compute; reflexivity|].
  repeat split; reflexivity.
Qed.

(** ** Sorting *)

Section SortFacts.

Context {A : Type} (before : A -> A -> bool).

Lemma insertSorted_perm x l : Permutation (insertSorted before x l) (x :: l).
Proof.
  induction l as [|y r IH]; simpl; [apply Permutation_refl|].
  destruct (before y x); [|apply Permutation_refl].
  eapply Permutation_trans; [apply perm_skip, IH|apply perm_swap].
Qed.

Lemma sortBy_perm l : Permutation (sortBy before l) l.
Proof.
  induction l as [|x r IH]; simpl; [constructor|].
  eapply Permutation_trans; [apply insertSorted_perm|now apply perm_skip].
Qed.

Lemma sortBy_In l x : In x (sortBy before l) <-> In x l.
Proof.
  split; apply Permutation_in; [|apply Permutation_sym]; apply sortBy_perm.
Qed.

Lemma sortBy_length l : List.length (sortBy before l) = List.length l.
Proof. apply Permutation_length, sortBy_perm. Qed.



(** Order: when "does not have to come after" is transitive and [before]
    is asymmetric, the result is sorted. *)
Hypothesis before_asym : forall a b, before a b = true -> before b a = false.
Hypothesis notbefore_trans :
  forall a b c, before b a = false -> before c b = false -> before c a = false.

Lemma insertSorted_sorted x l :
  StronglySorted (fun a b => before b a = false) l ->
  StronglySorted (fun a b => before b a = false) (insertSorted before x l).
Proof.
  induction 1 as [|y r Hs IH Hy]; simpl; [repeat constructor|].
  destruct (before y x) eqn:B.
  - constructor; [exact IH|].
    apply Forall_forall. intros z Hz.
    apply (Permutation_in _ (insertSorted_perm x r)) in Hz as [<-|Hz].
    + now apply before_asym.
    + rewrite Forall_forall in Hy. now apply Hy.
  - constructor; [now constructor|].
    constructor; [exact B|].
    rewrite Forall_forall in *. intros z Hz. eapply notbefore_trans; eauto.
Qed.

Lemma sortBy_sorted l : StronglySorted (fun a b => before b a = false) (sortBy before l).
Proof.
  induction l as [|x r IH]; simpl; [constructor|now apply insertSorted_sorted].
Qed.

End SortFacts.

Lemma firstn_subset {A : Type} (n : nat) (l : list A) x : In x (firstn n l) -> In x l.
Proof.
  revert l. induction n as [|n IH]; intros [|y l]; simpl; try tauto.
  intros [->|H]; [now left|right; now apply IH].
Qed.


Lemma slice0_In {A : Type} (l : list A) n x : In x (JS.slice0 l n) -> In x l.
Proof.
  unfold JS.slice0. destruct (n <? 0); intros H; eapply firstn_subset; eauto.
Qed.


(** ** Rank fusion *)





(** *** The accumulator *)




















(** ** The vector ranker *)

Lemma is_zero_spec x : is_zero x = true -> exists s, Prim2SF x = S754_zero s.
Proof.
  unfold is_zero. rewrite FloatAxioms.eqb_spec.
  change (Prim2SF zero) with (S754_zero false).
  destruct (Prim2SF x) as [s|s| |s m e]; unfold SFeqb; simpl; try discriminate.
  - intros _. now exists s.
  - destruct s; discriminate.
  - destruct s; discriminate.
Qed.

Lemma zeroOrNaN_nan : zeroOrNaN nan.
Proof. left. reflexivity. Qed.

Lemma zeroOrNaN_zero : zeroOrNaN 0%float.
Proof. right. exists false. reflexivity. Qed.

Lemma zeroOrNaN_mul_r x y : zeroOrNaN y -> zeroOrNaN (x * y)%float.
Proof.
  unfold zeroOrNaN. rewrite mul_spec. intros [->|[s ->]];
    destruct (Prim2SF x) as [sx|sx| |sx mx ex]; simpl; eauto.
Qed.

Lemma zeroOrNaN_add x y : zeroOrNaN x -> zeroOrNaN y -> zeroOrNaN (x + y)%float.
Proof.
  unfold zeroOrNaN. rewrite add_spec. intros [->|[s ->]] [->|[t ->]]; simpl; eauto.
  destruct s, t; eauto.
Qed.

Lemma zeroOrNaN_sqrt x : zeroOrNaN x -> zeroOrNaN (sqrt x).
Proof.
  unfold zeroOrNaN. rewrite sqrt_spec. intros [->|[s ->]]; simpl; eauto.
Qed.

Lemma zeroOrNaN_div x y : zeroOrNaN x -> zeroOrNaN y -> (x / y)%float = nan.
Proof.
  intros Hx Hy. apply Prim2SF_inj. rewrite div_spec.
  change (Prim2SF nan) with S754_nan.
  destruct Hx as [->|[s ->]], Hy as [->|[t ->]]; reflexivity.
Qed.

Lemma cosineLoop_zero a :
  forall b dotProduct normA normB,
    Forall zeroOrNaN b -> zeroOrNaN dotProduct -> zeroOrNaN normB ->
    zeroOrNaN (fst (fst (cosineLoop a b dotProduct normA normB))) /\
    zeroOrNaN (snd (cosineLoop a b dotProduct normA normB)).
Proof.
  induction a as [|x a IH]; intros b dotProduct normA normB Hb Hd Hn;
    cbn [cosineLoop]; [now split|].
  assert (Hy : zeroOrNaN (hd nan b)).
  { destruct Hb; [apply zeroOrNaN_nan|assumption]. }
  apply IH.
  - destruct Hb; [constructor|assumption].
  - apply zeroOrNaN_add; [exact Hd|now apply zeroOrNaN_mul_r].
  - apply zeroOrNaN_add; [exact Hn|now apply zeroOrNaN_mul_r].
Qed.

(** The similarity to a zero vector is NaN, whatever the query. *)
Lemma cosineSimilarity_zero a b : zeroVector b = true -> cosineSimilarity a b = nan.
Proof.
  intros Hb.
  assert (Hz : Forall zeroOrNaN b).
  { apply Forall_forall. intros x Hx. right. apply is_zero_spec.
    unfold zeroVector in Hb. rewrite forallb_forall in Hb. now apply Hb. }
  destruct (cosineLoop_zero a b 0%float 0%float 0%float Hz zeroOrNaN_zero zeroOrNaN_zero)
    as [Hd Hn].
  unfold cosineSimilarity.
  destruct (cosineLoop a b 0%float 0%float 0%float) as [[dotProduct normA] normB].
  cbn [fst snd] in *.
  apply zeroOrNaN_div; [exact Hd|].
  apply zeroOrNaN_mul_r. now apply zeroOrNaN_sqrt.
Qed.

Lemma slice0_all {A : Type} (l : list A) n :
  Z.of_nat (List.length l) <= n -> JS.slice0 l n = l.
Proof.
  intros H. unfold JS.slice0.
  destruct (n <? 0) eqn:E; [apply Z.ltb_lt in E; lia|].
  apply firstn_all2. lia.
Qed.

Lemma similarities_length q cs :
  (List.length (flat_map (similarityOf q) cs) <= List.length cs)%nat.
Proof.
  induction cs as [|c cs IH]; [apply Nat.le_refl|].
  cbn [flat_map]. rewrite length_app. unfold similarityOf at 1.
  destruct (chunk_embedding c); simpl; lia.
Qed.

(** C8 (as stated, refuted): in a store whose only chunk has the zero
    vector as embedding, the ranker returns that chunk with a NaN
    similarity. *)
Lemma zero_norm_counterexample :
  map (fun c => option_map Float32.embeddingArray (chunk_embedding c)) (chunks zeroVectorDb)
  = [Some [0%float; 0%float; 0%float]] /\
  vectorSearch zeroVectorDb [1%float; 0%float; 0%float] 10
  = [{| vec_chunk_id := 1; vec_content := "hello world"; similarity := nan |}].
Proof. split; vm_compute; reflexivity. Qed.

(** C8 (amended): a stored fragment whose embedding is the zero vector has
    an undefined similarity (NaN) to every query, and the ranker does not
    exclude it: whenever the limit is at least the number of stored
    fragments, its pair is among the returned ones. *)
Theorem vectorSearch_keeps_zero_norm db queryEmbedding limit c bytes :
  In c (chunks db) ->
  chunk_embedding c = Some bytes ->
  zeroVector (Float32.embeddingArray bytes) = true ->
  Z.of_nat (List.length (chunks db)) <= limit ->
  cosineSimilarity queryEmbedding (Float32.embeddingArray bytes) = nan /\
  In {| vec_chunk_id := chunk_id c; vec_content := chunk_content c; similarity := nan |}
     (vectorSearch db queryEmbedding limit).
Proof.
  intros Hc Hemb Hzero Hlimit.
  pose proof (cosineSimilarity_zero queryEmbedding _ Hzero) as Hnan.
  split; [exact Hnan|].
  unfold vectorSearch. rewrite slice0_all.
  - apply sortBy_In. apply in_flat_map. exists c. split; [exact Hc|].
    unfold similarityOf. rewrite Hemb, Hnan. now left.
  - rewrite sortBy_length.
    pose proof (similarities_length queryEmbedding (chunks db)). lia.
Qed.

Lemma vectorSearch_keeps_zero_norm_witness :
  In {| vec_chunk_id := 1; vec_content := "hello world"; similarity := nan |}
     (vectorSearch zeroVectorDb [1%float; 0%float; 0%float] 10).
Proof.
  refine (proj2 (vectorSearch_keeps_zero_norm zeroVectorDb [1%float; 0%float; 0%float] 10
             {| chunk_id := 1; chunk_file_id := 1; chunk_index := 0;
                chunk_content := "hello world"; chunk_raw_text := "hello world";
                chunk_embedding := Some [0; 0; 0; 0; 0; 0; 0; 0; 0; 0; 0; 0] |}
             [0; 0; 0; 0; 0; 0; 0; 0; 0; 0; 0; 0] _ _ _ _)).
  - vm_compute. left. reflexivity.
  - reflexivity.
  - vm_compute. reflexivity.
  - vm_compute. discriminate.
Defined.

(** ** Hybrid search *)


Lemma sqlLimit_In {A : Type} (l : list A) n x : In x (sqlLimit n l) -> In x l.
Proof.
  unfold sqlLimit. destruct (n <? 0); [tauto|apply firstn_subset].
Qed.















(* ================================================================= *)
(** * Part III: further properties of the code *)
(* ================================================================= *)

(** ** String primitives *)

Lemma lastIndexBelow_spec c s n :
  JS.lastIndexBelow c s n = -1 \/
  (0 <= JS.lastIndexBelow c s n < Z.of_nat n /\
   JS.charAt s (Z.to_nat (JS.lastIndexBelow c s n)) = Some c).
Proof.
  induction n as [|k IH]; cbn [JS.lastIndexBelow]; [now left|].
  destruct (JS.charAt s k) as [d|] eqn:E.
  - destruct (Ascii.eqb d c) eqn:D.
    + apply Ascii.eqb_eq in D. subst d. right. rewrite Nat2Z.id. split; [lia|exact E].
    + destruct IH as [IH|[IH1 IH2]]; [now left|right]. split; [lia|exact IH2].
  - destruct IH as [IH|[IH1 IH2]]; [now left|right]. split; [lia|exact IH2].
Qed.

Lemma lastIndexBelow_complete c s n p :
  (p < n)%nat -> JS.charAt s p = Some c -> Z.of_nat p <= JS.lastIndexBelow c s n.
Proof.
  induction n as [|k IH]; intros Hp Hc; [lia|]. cbn [JS.lastIndexBelow].
  destruct (Nat.eq_dec p k) as [->|Hne].
  - rewrite Hc, Ascii.eqb_refl. lia.
  - assert (Hk : (p < k)%nat) by lia. specialize (IH Hk Hc).
    destruct (JS.charAt s k) as [d|]; [|exact IH].
    destruct (Ascii.eqb d c); [lia|exact IH].
Qed.

Lemma charAt_in_range s k c : JS.charAt s k = Some c -> Z.of_nat k < JS.length s.
Proof.
  unfold JS.charAt, JS.length. revert k.
  induction s as [|d r IH]; intros k H; [destruct k; discriminate|].
  destruct k as [|k]; cbn [String.length]; [lia|].
  cbn [String.get] in H. apply IH in H. lia.
Qed.

Lemma lastIndexOf_spec s c from :
  JS.lastIndexOf s c from = -1 \/
  (0 <= JS.lastIndexOf s c from /\
   JS.lastIndexOf s c from <= Z.max from 0 /\
   JS.lastIndexOf s c from < JS.length s /\
   JS.charAt s (Z.to_nat (JS.lastIndexOf s c from)) = Some c).
Proof.
  unfold JS.lastIndexOf. destruct (JS.length s <? 1) eqn:L; [now left|].
  apply Z.ltb_ge in L.
  destruct (lastIndexBelow_spec c s (S (Z.to_nat (JS.clamp 0 (JS.length s - 1) from))))
    as [H|[H1 H2]]; [now left|right].
  pose proof (charAt_in_range _ _ _ H2) as H3. rewrite Z2Nat.id in H3 by lia.
  unfold JS.clamp in *. repeat split; try lia. exact H2.
Qed.

Lemma lastIndexOf_complete s c from p :
  0 <= p <= from -> JS.charAt s (Z.to_nat p) = Some c -> p <= JS.lastIndexOf s c from.
Proof.
  intros Hp Hc. pose proof (charAt_in_range _ _ _ Hc) as Hlen.
  rewrite Z2Nat.id in Hlen by lia.
  unfold JS.lastIndexOf. destruct (JS.length s <? 1) eqn:L; [apply Z.ltb_lt in L; lia|].
  rewrite <- (Z2Nat.id p) at 1 by lia. apply lastIndexBelow_complete; [|exact Hc].
  unfold JS.clamp. lia.
Qed.

Lemma containsChar_false c s :
  containsChar c s = false -> forall k, JS.charAt s k <> Some c.
Proof.
  unfold JS.charAt. induction s as [|d r IH]; intros H k; [destruct k; discriminate|].
  cbn [containsChar] in H. apply orb_false_iff in H as [Hd Hr].
  destruct k as [|k]; cbn [String.get].
  - intros E. injection E as ->. now rewrite Ascii.eqb_refl in Hd.
  - now apply IH.
Qed.

Lemma lastIndexOf_absent s c from :
  containsChar c s = false -> JS.lastIndexOf s c from = -1.
Proof.
  intros H. destruct (lastIndexOf_spec s c from) as [E|(_ & _ & _ & E)]; [exact E|].
  now apply (containsChar_false _ _ H) in E.
Qed.

Lemma substring_length n m s : (String.length (String.substring n m s) <= m)%nat.
Proof.
  revert n m. induction s as [|c r IH]; intros n m.
  - destruct n, m; simpl; lia.
  - destruct n as [|n]; destruct m as [|m]; cbn [String.substring String.length];
      try lia.
    + specialize (IH 0%nat m). lia.
    + apply IH.
    + apply IH.
Qed.

Lemma trimStart_length s : (String.length (JS.trimStart s) <= String.length s)%nat.
Proof.
  induction s as [|c r IH]; cbn [JS.trimStart String.length]; [lia|].
  destruct (JS.isWhiteSpace c); cbn [String.length]; lia.
Qed.

Lemma trimEnd_length s : (String.length (JS.trimEnd s) <= String.length s)%nat.
Proof.
  induction s as [|c r IH]; cbn [JS.trimEnd String.length]; [lia|].
  destruct (JS.trimEnd r) as [|d r'].
  - destruct (JS.isWhiteSpace c); cbn [String.length]; lia.
  - cbn [String.length] in *. lia.
Qed.

Lemma trim_length s : JS.length (JS.trim s) <= JS.length s.
Proof.
  unfold JS.trim, JS.length.
  pose proof (trimEnd_length (JS.trimStart s)). pose proof (trimStart_length s). lia.
Qed.

Lemma JS_substring_length s a b :
  a < b -> 0 <= b -> JS.length (JS.substring s a b) <= b - Z.max a 0.
Proof.
  intros Hab Hb. unfold JS.substring, JS.length.
  pose proof (substring_length
                (Z.to_nat (Z.min (JS.clamp 0 (Z.of_nat (String.length s)) a)
                                 (JS.clamp 0 (Z.of_nat (String.length s)) b)))
                (Z.to_nat (Z.max (JS.clamp 0 (Z.of_nat (String.length s)) a)
                                 (JS.clamp 0 (Z.of_nat (String.length s)) b)
                           - Z.min (JS.clamp 0 (Z.of_nat (String.length s)) a)
                                   (JS.clamp 0 (Z.of_nat (String.length s)) b)))
                s) as H.
  unfold JS.clamp in *. lia.
Qed.

(** ** The chunker: coverage, chunk size, termination *)

Lemma chunkLoop_covers fuel text chunkSize overlap :
  0 <= overlap ->
  forall start acc out,
    chunkLoop fuel text chunkSize overlap start acc = Some out ->
    forall k, start <= k < JS.length text ->
              exists w, In w (chunkWindows fuel text chunkSize overlap start) /\
                        fst w <= k < snd w.
Proof.
  intros Hov. induction fuel as [|fuel IH]; intros start acc out H k Hk;
    cbn [chunkLoop chunkWindows] in *; [discriminate|].
  destruct (start <? JS.length text) eqn:E; [|apply Z.ltb_ge in E; lia].
  destruct (windowEnd text chunkSize start >=? JS.length text) eqn:G.
  - apply Z.geb_le in G. eexists. split; [left; reflexivity|]. simpl. lia.
  - destruct (Z_lt_dec k (windowEnd text chunkSize start)) as [Hlt|Hge].
    + eexists. split; [left; reflexivity|]. simpl. lia.
    + destruct (IH _ _ _ H k ltac:(lia)) as [w [Hw Hkw]].
      exists w. split; [now right|exact Hkw].
Qed.

(** X1: when the overlap is not negative and the loop finishes, the windows
    it emitted cover the whole text: every character position lies in the
    window of some chunk, so no part of the text is skipped. *)
Theorem chunkText_covers text chunkSize overlap fuel chunks :
  0 <= overlap ->
  JS.length text > chunkSize ->
  chunkText fuel text chunkSize overlap = Some chunks ->
  chunks = map (fun w => JS.trim (JS.substring text (fst w) (snd w)))
               (chunkWindows fuel text chunkSize overlap 0) /\
  forall k, 0 <= k < JS.length text ->
            exists w, In w (chunkWindows fuel text chunkSize overlap 0) /\
                      fst w <= k < snd w.
Proof.
  intros Hov Hlen H. split; [now apply chunkText_windows|].
  unfold chunkText in H.
  destruct (JS.length text <=? chunkSize) eqn:E; [apply Z.leb_le in E; lia|].
  now apply (chunkLoop_covers fuel text chunkSize overlap Hov 0 [] chunks).
Qed.

Lemma chunkText_covers_witness :
  exists w, In w (chunkWindows 10 "aaaa bbbb cccc" 6 1 0) /\ fst w <= 7 < snd w.
Proof.
  refine (proj2 (chunkText_covers "aaaa bbbb cccc" 6 1 10
                   ["aaaa"; "a bbbb"; "b cccc"] _ _ _) 7 _).
  - lia.
  - reflexivity.
  - reflexivity.
  - cbn. lia.
Defined.

Lemma windowEnd_reachable text chunkSize overlap s :
  0 <= overlap < chunkSize ->
  reachableStart text overlap s ->
  s < JS.length text ->
  s < windowEnd text chunkSize s /\
  0 < windowEnd text chunkSize s /\
  windowEnd text chunkSize s <= s + chunkSize /\
  (windowEnd text chunkSize s = s + chunkSize \/
   JS.charAt text (Z.to_nat (windowEnd text chunkSize s)) = Some space) /\
  (windowEnd text chunkSize s < JS.length text ->
   reachableStart text overlap (windowEnd text chunkSize s - overlap)).
Proof.
  intros Hov Hs Hlen. unfold windowEnd.
  assert (Hpos : 0 < s + chunkSize) by (destruct Hs as [Hs|[Hs _]]; lia).
  assert (Hneg : s < 0 -> 0 < s + overlap <= JS.lastIndexOf text space (s + chunkSize)).
  { intros Hn. destruct Hs as [Hs|[Hs1 Hs2]]; [lia|]. split; [exact Hs1|].
    apply lastIndexOf_complete; [lia|exact Hs2]. }
  destruct (s + chunkSize <? JS.length text) eqn:E.
  - apply Z.ltb_lt in E.
    destruct (JS.lastIndexOf text space (s + chunkSize) >? s) eqn:G.
    + apply Z.gtb_lt in G.
      destruct (lastIndexOf_spec text space (s + chunkSize)) as [L|(L1 & L2 & L3 & L4)].
      * assert (0 <= s) by lia. lia.
      * assert (0 < JS.lastIndexOf text space (s + chunkSize)) by lia.
        split; [lia|]. split; [lia|]. split; [lia|]. split; [now right|].
        intros _. right. split; [lia|].
        replace (JS.lastIndexOf text space (s + chunkSize) - overlap + overlap)
          with (JS.lastIndexOf text space (s + chunkSize)) by lia.
        exact L4.
    + assert (Hle : JS.lastIndexOf text space (s + chunkSize) <= s).
      { destruct (Z_le_gt_dec (JS.lastIndexOf text space (s + chunkSize)) s) as [?|Hgt];
          [assumption|]. apply Z.gt_lt, Z.gtb_lt in Hgt. congruence. }
      assert (Hs0 : 0 <= s) by lia.
      split; [lia|]. split; [lia|]. split; [lia|]. split; [now left|].
      intros _. left. lia.
  - apply Z.ltb_ge in E.
    split; [lia|]. split; [lia|]. split; [lia|]. split; [now left|].
    intros H. lia.
Qed.

Lemma chunkWindows_shape fuel text chunkSize overlap :
  0 <= overlap < chunkSize ->
  forall start,
    reachableStart text overlap start ->
    Forall (fun w => fst w < snd w /\ 0 < snd w /\ snd w <= fst w + chunkSize /\
                     (snd w = fst w + chunkSize \/
                      JS.charAt text (Z.to_nat (snd w)) = Some space))
           (chunkWindows fuel text chunkSize overlap start).
Proof.
  intros Hov. induction fuel as [|fuel IH]; intros start Hs; cbn [chunkWindows];
    [constructor|].
  destruct (start <? JS.length text) eqn:E; [|constructor]. apply Z.ltb_lt in E.
  destruct (windowEnd_reachable text chunkSize overlap start Hov Hs E)
    as (H1 & H2 & H3 & H4 & H5).
  destruct (windowEnd text chunkSize start >=? JS.length text) eqn:G.
  - constructor; [|constructor]. cbn [fst snd]. auto.
  - constructor; [cbn [fst snd]; auto|].
    apply IH, H5. destruct (Z_lt_ge_dec (windowEnd text chunkSize start) (JS.length text))
      as [?|Hge]; [assumption|]. apply Z.ge_le, Z.geb_le in Hge. congruence.
Qed.

(** X2: with [0 <= overlap < chunkSize] no chunk is longer than [chunkSize]
    characters, and every window that stops short of [start + chunkSize]
    stops at a space, so the adjustable end never splits a word. *)
Theorem chunkText_bounded text chunkSize overlap fuel chunks :
  0 <= overlap < chunkSize ->
  chunkText fuel text chunkSize overlap = Some chunks ->
  Forall (fun c => JS.length c <= chunkSize) chunks /\
  Forall (fun w => snd w = fst w + chunkSize \/
                   JS.charAt text (Z.to_nat (snd w)) = Some space)
         (chunkWindows fuel text chunkSize overlap 0).
Proof.
  intros Hov H.
  pose proof (chunkWindows_shape fuel text chunkSize overlap Hov 0 (or_introl (Z.le_refl 0)))
    as Hshape.
  split.
  - unfold chunkText in H. destruct (JS.length text <=? chunkSize) eqn:E.
    + apply Z.leb_le in E. injection H as <-. now repeat constructor.
    + apply chunkLoop_windows in H. rewrite H. cbn [app].
      apply Forall_forall. intros c Hc. apply in_map_iff in Hc as [w [<- Hw]].
      rewrite Forall_forall in Hshape. destruct (Hshape w Hw) as (H1 & H2 & H3 & _).
      pose proof (trim_length (JS.substring text (fst w) (snd w))).
      pose proof (JS_substring_length text (fst w) (snd w) H1 ltac:(lia)). lia.
  - eapply Forall_impl; [|exact Hshape]. intros w (_ & _ & _ & Hw). exact Hw.
Qed.

Lemma chunkText_bounded_witness :
  Forall (fun c => JS.length c <= 6) ["aaaa"; "a bbbb"; "b cccc"] /\
  Forall (fun w => snd w = fst w + 6 \/
                   JS.charAt "aaaa bbbb cccc" (Z.to_nat (snd w)) = Some space)
         (chunkWindows 10 "aaaa bbbb cccc" 6 1 0).
Proof.
  apply (chunkText_bounded "aaaa bbbb cccc" 6 1 10 ["aaaa"; "a bbbb"; "b cccc"]).
  - lia.
  - reflexivity.
Defined.

Lemma chunkLoop_fuel_mono text chunkSize overlap fuel :
  forall fuel' start acc out,
    chunkLoop fuel text chunkSize overlap start acc = Some out ->
    (fuel <= fuel')%nat ->
    chunkLoop fuel' text chunkSize overlap start acc = Some out.
Proof.
  induction fuel as [|fuel IH]; intros fuel' start acc out H Hle; [discriminate|].
  destruct fuel' as [|fuel']; [lia|]. cbn [chunkLoop] in *.
  destruct (start <? JS.length text); [|exact H].
  destruct (windowEnd text chunkSize start >=? JS.length text); [exact H|].
  apply IH; [exact H|lia].
Qed.

Lemma chunkLoop_progress text chunkSize overlap lo :
  (forall s, lo <= s < JS.length text -> s < windowEnd text chunkSize s - overlap) ->
  forall fuel start acc,
    lo <= start ->
    (Z.to_nat (JS.length text - start) < fuel)%nat ->
    exists out, chunkLoop fuel text chunkSize overlap start acc = Some out.
Proof.
  intros Hprog. induction fuel as [|fuel IH]; intros start acc Hlo Hfuel; [lia|].
  cbn [chunkLoop]. destruct (start <? JS.length text) eqn:E; [|eauto].
  apply Z.ltb_lt in E.
  destruct (windowEnd text chunkSize start >=? JS.length text) eqn:G; [eauto|].
  specialize (Hprog start ltac:(lia)). apply IH; lia.
Qed.

Lemma chunkText_total_from_progress text chunkSize overlap :
  (forall s, 0 <= s < JS.length text -> s < windowEnd text chunkSize s - overlap) ->
  exists chunks,
    forall fuel, (Z.to_nat (JS.length text) < fuel)%nat ->
                 chunkText fuel text chunkSize overlap = Some chunks.
Proof.
  intros Hprog. unfold chunkText.
  destruct (JS.length text <=? chunkSize); [eauto|].
  destruct (chunkLoop_progress text chunkSize overlap 0 Hprog
              (S (Z.to_nat (JS.length text))) 0 [] ltac:(lia) ltac:(lia)) as [out Hout].
  exists out. intros fuel Hfuel.
  eapply chunkLoop_fuel_mono; [exact Hout|lia].
Qed.

(** X3: without overlap the chunker terminates on every text: for a
    positive chunk length and overlap 0, any number of iterations above
    the length of the text yields the same list of chunks. *)
Theorem chunkText_terminates_without_overlap text chunkSize :
  0 < chunkSize ->
  exists chunks,
    forall fuel, (Z.to_nat (JS.length text) < fuel)%nat ->
                 chunkText fuel text chunkSize 0 = Some chunks.
Proof.
  intros Hcs. apply chunkText_total_from_progress. intros s Hs.
  destruct (windowEnd_cases text chunkSize s) as [->|[_ H]]; lia.
Qed.

Lemma chunkText_terminates_without_overlap_witness :
  exists chunks,
    forall fuel, (Z.to_nat (JS.length "a bbbbbbbbbb") < fuel)%nat ->
                 chunkText fuel "a bbbbbbbbbb" 5 0 = Some chunks.
Proof.
  apply (chunkText_terminates_without_overlap "a bbbbbbbbbb" 5). lia.
Defined.

Lemma windowEnd_without_spaces text chunkSize s :
  containsChar space text = false -> 0 <= s ->
  windowEnd text chunkSize s = s + chunkSize.
Proof.
  intros Hno Hs. unfold windowEnd.
  destruct (s + chunkSize <? JS.length text); [|reflexivity].
  rewrite lastIndexOf_absent by exact Hno.
  destruct (-1 >? s) eqn:G; [apply Z.gtb_lt in G; lia|reflexivity].
Qed.

Lemma chunkWindows_starts fuel text chunkSize overlap :
  containsChar space text = false -> 0 <= overlap < chunkSize ->
  forall start, 0 <= start ->
    Forall (fun w => 0 <= fst w) (chunkWindows fuel text chunkSize overlap start).
Proof.
  intros Hno Hov. induction fuel as [|fuel IH]; intros start Hs; cbn [chunkWindows];
    [constructor|].
  destruct (start <? JS.length text); [|constructor].
  rewrite (windowEnd_without_spaces text chunkSize start Hno Hs).
  destruct (start + chunkSize >=? JS.length text).
  - constructor; [exact Hs|constructor].
  - constructor; [exact Hs|]. apply IH. lia.
Qed.

(** X4: on a text that contains no space, with [0 <= overlap < chunkSize],
    the chunker terminates and every window starts exactly
    [chunkSize - overlap] characters after the previous one. *)
Theorem chunkText_without_spaces text chunkSize overlap :
  containsChar space text = false ->
  0 <= overlap < chunkSize ->
  (exists chunks,
      forall fuel, (Z.to_nat (JS.length text) < fuel)%nat ->
                   chunkText fuel text chunkSize overlap = Some chunks) /\
  (forall fuel, fixedStride text chunkSize overlap fuel).
Proof.
  intros Hno Hov. split.
  - apply chunkText_total_from_progress. intros s Hs.
    rewrite (windowEnd_without_spaces text chunkSize s Hno) by lia. lia.
  - intros fuel w1 w2 C.
    assert (H1 : 0 <= fst w1).
    { pose proof (chunkWindows_starts fuel text chunkSize overlap Hno Hov 0 (Z.le_refl 0))
        as Hst.
      rewrite Forall_forall in Hst. apply Hst.
      destruct C as [i [Hi _]]. eapply nth_error_In; eauto. }
    apply chunkWindows_consecutive in C as [E S].
    rewrite (windowEnd_without_spaces text chunkSize (fst w1) Hno H1) in E. lia.
Qed.

Lemma chunkText_without_spaces_witness :
  exists chunks,
    forall fuel, (Z.to_nat (JS.length "abcdefghij") < fuel)%nat ->
                 chunkText fuel "abcdefghij" 4 1 = Some chunks.
Proof.
  refine (proj1 (chunkText_without_spaces "abcdefghij" 4 1 _ _)).
  - reflexivity.
  - lia.
Defined.




(** ** The store: files and chunks *)

Lemma fold_max_ge (ids : list Z) (x : Z) : In x ids -> x <= fold_right Z.max 0 ids.
Proof.
  induction ids as [|y r IH]; intros H; [destruct H|].
  cbn [fold_right]. destruct H as [->|H]; [lia|]. specialize (IH H). lia.
Qed.

Lemma nextRowid_fresh (ids : list Z) (sq : option Z) (x : Z) :
  In x ids -> x < nextRowid ids sq.
Proof. intros H. apply fold_max_ge in H. unfold nextRowid. lia. Qed.

Lemma nextRowid_above_sequence (ids : list Z) (n : Z) : n < nextRowid ids (Some n).
Proof. unfold nextRowid. lia. Qed.

Lemma find_app_none {A : Type} (p : A -> bool) (l r : list A) :
  find p l = None -> find p (l ++ r) = find p r.
Proof.
  induction l as [|x l IH]; intros H; [reflexivity|].
  cbn [find app] in *. destruct (p x); [discriminate|now apply IH].
Qed.

Lemma find_app_last {A : Type} (p : A -> bool) (l : list A) (x : A) :
  p x = false -> find p (l ++ [x]) = find p l.
Proof.
  intros Hx. induction l as [|y l IH]; cbn [find app]; [now rewrite Hx|].
  destruct (p y); [reflexivity|exact IH].
Qed.

Lemma find_none_existsb {A : Type} (p : A -> bool) (l : list A) :
  find p l = None <-> existsb p l = false.
Proof.
  induction l as [|x l IH]; cbn [find existsb]; [tauto|].
  destruct (p x); cbn [orb]; [split; discriminate|exact IH].
Qed.

(** X6: [insertFile] succeeds exactly when no file has the path.  The new
    row then gets an identifier above every identifier of the table, can
    be read back under its path by [getFileByPath], and leaves the lookup
    of every other path as it was; when the path is taken the insertion
    throws. *)
Theorem insertFile_getFileByPath (db : Database) (p h : string) :
  match getFileByPath db p with
  | Some _ => exists msg, insertFile p h db = Throw msg
  | None =>
      exists db' id,
        insertFile p h db = Ok (db', id) /\
        getFileByPath db' p = Some {| file_id := id; file_path := p; file_hash := h |} /\
        (forall f, In f (files db) -> file_id f < id) /\
        (forall q, q <> p -> getFileByPath db' q = getFileByPath db q) /\
        chunks db' = chunks db
  end.
Proof.
  unfold getFileByPath, insertFile.
  destruct (find (fun f => String.eqb (file_path f) p) (files db)) eqn:F.
  - assert (E : existsb (fun f => String.eqb (file_path f) p) (files db) = true).
    { destruct (existsb (fun f => String.eqb (file_path f) p) (files db)) eqn:E;
        [reflexivity|]. apply find_none_existsb in E. congruence. }
    rewrite E. eauto.
  - pose proof (proj1 (find_none_existsb _ _) F) as E. rewrite E.
    do 2 eexists. split; [reflexivity|]. cbn [files chunks setFiles].
    split; [|split; [|split]].
    + rewrite find_app_none by exact F. cbn [find file_path]. now rewrite String.eqb_refl.
    + intros f Hf. apply nextRowid_fresh, in_map, Hf.
    + intros q Hq. apply find_app_last. cbn [file_path].
      apply String.eqb_neq. congruence.
    + reflexivity.
Qed.

(** X7: identifiers of [files] are never reused: when a file is inserted
    and then deleted, every later insertion gets a larger identifier
    ([AUTOINCREMENT]). *)
Theorem file_ids_never_reused (db db1 db2 db3 : Database) (p h q h' : string)
        (id1 id3 : Z) :
  insertFile p h db = Ok (db1, id1) ->
  deleteFile id1 db1 = Ok (db2, tt) ->
  insertFile q h' db2 = Ok (db3, id3) ->
  id1 < id3.
Proof.
  unfold insertFile, deleteFile. intros H1 H2 H3.
  destruct (existsb _ (files db)); [discriminate|]. injection H1 as <- <-.
  injection H2 as <-. cbn [files setFiles setChunks seq_files] in H3.
  destruct (existsb _ _); [discriminate|]. injection H3 as _ <-.
  apply nextRowid_above_sequence.
Qed.

Lemma file_ids_never_reused_witness :
  1 < 2.
Proof.
  apply (file_ids_never_reused emptyDatabase
           (setFiles emptyDatabase
              [{| file_id := 1; file_path := "a.md"; file_hash := "h" |}] (Some 1))
           (setFiles emptyDatabase [] (Some 1))
           (setFiles emptyDatabase
              [{| file_id := 2; file_path := "a.md"; file_hash := "h" |}] (Some 2))
           "a.md" "h" "a.md" "h"); reflexivity.
Defined.

(** X8: deleting a file removes that file's row and, through the foreign
    key, exactly the chunks of that file; every other file and chunk
    stays, the rows of [chunks_fts] are not touched, and a store in
    which every chunk has its file keeps that property. *)
Theorem deleteFile_cascades (fileId : Z) (db : Database) :
  exists db',
    deleteFile fileId db = Ok (db', tt) /\
    (forall f, In f (files db') <-> In f (files db) /\ file_id f <> fileId) /\
    (forall c, In c (chunks db') <-> In c (chunks db) /\ chunk_file_id c <> fileId) /\
    chunks_fts db' = chunks_fts db /\
    (chunksHaveFiles db -> chunksHaveFiles db').
Proof.
  eexists. split; [reflexivity|]. cbn [files chunks chunks_fts setFiles setChunks].
  assert (Hf : forall f, In f (filter (fun f => negb (file_id f =? fileId)) (files db)) <->
                         In f (files db) /\ file_id f <> fileId).
  { intros f. rewrite filter_In, negb_true_iff, Z.eqb_neq. tauto. }
  assert (Hc : forall c, In c (filter (fun c => negb (chunk_file_id c =? fileId)) (chunks db))
                         <-> In c (chunks db) /\ chunk_file_id c <> fileId).
  { intros c. rewrite filter_In, negb_true_iff, Z.eqb_neq. tauto. }
  repeat split; try apply Hf; try apply Hc; try tauto.
  intros Hown c Hin. cbn [files chunks setFiles setChunks] in *.
  apply Hc in Hin as [Hin Hne]. destruct (Hown c Hin) as [f [Hfin Hid]].
  exists f. split; [|exact Hid]. apply Hf. split; [exact Hfin|congruence].
Qed.

Lemma StronglySorted_weaken {A : Type} (R R' : A -> A -> Prop) (l : list A) :
  (forall a b, R a b -> R' a b) -> StronglySorted R l -> StronglySorted R' l.
Proof.
  intros HR. induction 1 as [|x r Hs IH Hx]; constructor; [exact IH|].
  eapply Forall_impl; [|exact Hx]. intros b. apply HR.
Qed.

(** X9: [getChunksByFileId] returns exactly the chunks of the file, each
    as often as the table holds it, in ascending order of [chunk_index]. *)
Theorem getChunksByFileId_sorted (db : Database) (fileId : Z) :
  Permutation (getChunksByFileId db fileId)
              (filter (fun c => chunk_file_id c =? fileId) (chunks db)) /\
  (forall c, In c (getChunksByFileId db fileId) <->
             In c (chunks db) /\ chunk_file_id c = fileId) /\
  StronglySorted (fun a b => chunk_index a <= chunk_index b) (getChunksByFileId db fileId).
Proof.
  unfold getChunksByFileId. split; [apply sortBy_perm|]. split.
  - intros c. rewrite sortBy_In, filter_In, Z.eqb_eq. tauto.
  - eapply StronglySorted_weaken; [|apply sortBy_sorted].
    + intros a b H. cbn beta in H. apply Z.ltb_ge in H. exact H.
    + intros a b H. apply Z.ltb_lt in H. apply Z.ltb_ge. lia.
    + intros a b c H1 H2. apply Z.ltb_ge in H1, H2. apply Z.ltb_ge. lia.
Qed.

(** X10: a chunk that [insertChunkWithEmbedding] stored can be read back
    by its identifier with every column as given; the insertion only
    succeeds for an existing file and a free position of that file, the
    new identifier is above those of all chunks, and reading any other
    identifier gives what it gave before. *)
Theorem insertChunkWithEmbedding_roundtrip (db db' : Database) (fileId i id : Z)
        (content raw : string) (emb : list Z) :
  insertChunkWithEmbedding fileId i content raw emb db = Ok (db', id) ->
  getChunkWithEmbedding db' id =
    Some {| chunk_id := id; chunk_file_id := fileId; chunk_index := i;
            chunk_content := content; chunk_raw_text := raw;
            chunk_embedding := Some emb |} /\
  (exists f, In f (files db) /\ file_id f = fileId) /\
  (forall c, In c (chunks db) ->
             chunk_id c < id /\ ~ (chunk_file_id c = fileId /\ chunk_index c = i)) /\
  (forall other, other <> id ->
                 getChunkWithEmbedding db' other = getChunkWithEmbedding db other).
Proof.
  unfold insertChunkWithEmbedding, getChunkWithEmbedding. intros H.
  destruct (existsb (fun f => file_id f =? fileId) (files db)) eqn:F;
    cbn [negb] in H; [|discriminate].
  destruct (existsb _ (chunks db)) eqn:U; [discriminate|].
  injection H as <- <-. cbn [chunks setChunks].
  assert (Hfresh : forall c, In c (chunks db) ->
                             chunk_id c < nextRowid (map chunk_id (chunks db)) (seq_chunks db)).
  { intros c Hc. apply nextRowid_fresh, in_map, Hc. }
  split; [|split; [|split]].
  - rewrite find_app_none; [cbn [find chunk_id]; now rewrite Z.eqb_refl|].
    apply find_none_existsb. apply not_true_is_false. intros E.
    apply existsb_exists in E as [c [Hc E]]. apply Z.eqb_eq in E.
    specialize (Hfresh c Hc). lia.
  - apply existsb_exists in F as [f [Hf E]]. apply Z.eqb_eq in E. eauto.
  - intros c Hc. split; [now apply Hfresh|]. intros [E1 E2].
    rewrite <- not_true_iff_false in U. apply U. apply existsb_exists.
    exists c. split; [exact Hc|]. now rewrite E1, E2, !Z.eqb_refl.
  - intros other Hother. apply find_app_last. cbn [chunk_id]. apply Z.eqb_neq. lia.
Qed.

Lemma insertChunkWithEmbedding_roundtrip_witness :
  getChunkWithEmbedding
    (setChunks (setFiles emptyDatabase
                  [{| file_id := 1; file_path := "a.md"; file_hash := "h" |}] (Some 1))
       [{| chunk_id := 1; chunk_file_id := 1; chunk_index := 0; chunk_content := "text";
           chunk_raw_text := "text"; chunk_embedding := Some [0; 0; 128; 63] |}] (Some 1))
    1 =
  Some {| chunk_id := 1; chunk_file_id := 1; chunk_index := 0; chunk_content := "text";
          chunk_raw_text := "text"; chunk_embedding := Some [0; 0; 128; 63] |}.
Proof.
  refine (proj1 (insertChunkWithEmbedding_roundtrip
                   (setFiles emptyDatabase
                      [{| file_id := 1; file_path := "a.md"; file_hash := "h" |}] (Some 1))
                   _ 1 0 1 "text" "text" [0; 0; 128; 63] _)).
  reflexivity.
Defined.

(** X11: after a reset the identifiers start again at 1: the first file
    and, for that file, the first chunk inserted into a reset store both
    get identifier 1, whatever the store held before. *)
Theorem resetDatabase_restarts_ids (db : Database) (p h content raw : string)
        (i : Z) (emb : list Z) :
  exists db1 db2,
    insertFile p h (resetDatabase db) = Ok (db1, 1) /\
    insertChunkWithEmbedding 1 i content raw emb db1 = Ok (db2, 1).
Proof.
  do 2 eexists. split; reflexivity.
Qed.

(** ** The note indexer: what a run keeps *)

Lemma preserves_ret {A : Type} P (a : A) : preserves P (ret a).
Proof. intros s s' o HP H. injection H as <- _. exact HP. Qed.

Lemma preserves_gets {A : Type} P (f : NoteState -> A) : preserves P (gets f).
Proof. intros s s' o HP H. injection H as <- _. exact HP. Qed.

Lemma preserves_liftOutcome {A : Type} P (r : outcome A) : preserves P (liftOutcome r).
Proof. intros s s' o HP H. injection H as <- _. exact HP. Qed.

Lemma preserves_bind {A B : Type} P (m : Eff NoteState A) (k : A -> Eff NoteState B) :
  preserves P m -> (forall a, preserves P (k a)) -> preserves P (bind m k).
Proof.
  intros Hm Hk s s' o HP. unfold bind.
  destruct (m s) as [[s1 [a|msg]]|] eqn:E; [| |discriminate].
  - apply (Hk a). exact (Hm _ _ _ HP E).
  - intros H. injection H as <- _. exact (Hm _ _ _ HP E).
Qed.

Lemma preserves_tryCatch {A : Type} P (m : Eff NoteState A) (h : string -> Eff NoteState A) :
  preserves P m -> (forall msg, preserves P (h msg)) -> preserves P (tryCatch m h).
Proof.
  intros Hm Hh s s' o HP. unfold tryCatch.
  destruct (m s) as [[s1 [a|msg]]|] eqn:E; [| |discriminate].
  - intros H. injection H as <- _. exact (Hm _ _ _ HP E).
  - apply (Hh msg). exact (Hm _ _ _ HP E).
Qed.

Lemma preserves_forEach {A : Type} P (xs : list A) (body : A -> Eff NoteState unit) :
  (forall x, In x xs -> preserves P (body x)) -> preserves P (forEach xs body).
Proof.
  induction xs as [|x xs IH]; intros Hb; cbn [forEach]; [apply preserves_ret|].
  apply preserves_bind; [apply Hb; now left|intros _; apply IH].
  intros y Hy. apply Hb. now right.
Qed.

Lemma preserves_forEachIndexed {A : Type} P (xs : list A)
      (body : Z -> A -> Eff NoteState unit) :
  (forall i x, preserves P (body i x)) ->
  forall start, preserves P (forEachIndexed start xs body).
Proof.
  intros Hb. induction xs as [|x xs IH]; intros start; cbn [forEachIndexed];
    [apply preserves_ret|].
  apply preserves_bind; [apply Hb|intros _; apply IH].
Qed.

Lemma preserves_updStats (Q : Database -> Prop) f :
  preserves (fun s => Q (ns_db s)) (updStats f).
Proof. intros s s' o HP H. injection H as <- _. exact HP. Qed.

Lemma preserves_run {A : Type} (Q : Database -> Prop) (st : Stmt A) :
  stmtPreserves Q st -> preserves (fun s => Q (ns_db s)) (run st).
Proof.
  intros Hst s s' o HP. unfold run. cbn [getDb putDb NoteState_HasDb].
  destruct (st (ns_db s)) as [[db' a]|msg] eqn:E; intros H; injection H as <- _.
  - cbn [ns_db]. exact (Hst _ _ _ HP E).
  - exact HP.
Qed.

Lemma existsb_eqb_In (p : string) (l : list string) :
  existsb (String.eqb p) l = true <-> In p l.
Proof.
  rewrite existsb_exists. split.
  - intros [q [Hq E]]. apply String.eqb_eq in E. now subst.
  - intros H. exists p. split; [exact H|apply String.eqb_refl].
Qed.

(** The statements of operations.ts on the foreign key of [chunks]. *)
Lemma deleteChunksByFileId_owners fileId :
  stmtPreserves chunksHaveFiles (deleteChunksByFileId fileId).
Proof.
  intros db db' a Q H. injection H as <- _. intros c Hc.
  cbn [chunks files setChunks] in *. apply filter_In in Hc as [Hc _]. now apply Q.
Qed.

Lemma deleteFile_owners fileId : stmtPreserves chunksHaveFiles (deleteFile fileId).
Proof.
  intros db db' a Q H. injection H as <- _. intros c Hc.
  cbn [chunks files setChunks setFiles] in *.
  apply filter_In in Hc as [Hc Hne]. apply negb_true_iff, Z.eqb_neq in Hne.
  destruct (Q c Hc) as [f [Hf E]]. exists f. split; [|exact E].
  apply filter_In. split; [exact Hf|]. apply negb_true_iff, Z.eqb_neq. congruence.
Qed.

Lemma updateFileHash_owners fileId hash :
  stmtPreserves chunksHaveFiles (updateFileHash fileId hash).
Proof.
  intros db db' a Q H. injection H as <- _. intros c Hc.
  cbn [chunks files setFiles] in *. destruct (Q c Hc) as [f [Hf E]].
  eexists. split; [apply in_map, Hf|]. cbn beta.
  destruct (file_id f =? fileId); [cbn [file_id]|]; exact E.
Qed.

Lemma insertFile_owners p h : stmtPreserves chunksHaveFiles (insertFile p h).
Proof.
  intros db db' a Q. unfold insertFile. destruct (existsb _ _); [discriminate|].
  intros H. injection H as <- _. intros c Hc. cbn [chunks files setFiles] in *.
  destruct (Q c Hc) as [f [Hf E]]. exists f. split; [|exact E].
  apply in_or_app. now left.
Qed.

Lemma insertChunkWithEmbedding_owners fileId i content raw emb :
  stmtPreserves chunksHaveFiles (insertChunkWithEmbedding fileId i content raw emb).
Proof.
  intros db db' a Q. unfold insertChunkWithEmbedding.
  destruct (existsb (fun f => file_id f =? fileId) (files db)) eqn:F;
    cbn [negb]; [|discriminate].
  destruct (existsb _ (chunks db)); [discriminate|].
  intros H. injection H as <- _. intros c Hc. cbn [chunks files setChunks] in *.
  apply in_app_or in Hc as [Hc|[<-|[]]]; [now apply Q|].
  cbn [chunk_file_id]. apply existsb_exists in F as [f [Hf E]].
  apply Z.eqb_eq in E. eauto.
Qed.

Lemma insertFts_owners rowid content : stmtPreserves chunksHaveFiles (insertFts rowid content).
Proof.
  intros db db' a Q. unfold insertFts. destruct (existsb _ _); [discriminate|].
  intros H. injection H as <- _. exact Q.
Qed.

(** The same statements on the paths of [files]. *)
Lemma deleteChunksByFileId_current cur fileId :
  stmtPreserves (filesAreCurrent cur) (deleteChunksByFileId fileId).
Proof. intros db db' a Q H. injection H as <- _. exact Q. Qed.

Lemma deleteFile_current cur fileId : stmtPreserves (filesAreCurrent cur) (deleteFile fileId).
Proof.
  intros db db' a Q H. injection H as <- _. intros f Hf.
  cbn [files setChunks setFiles] in Hf. apply filter_In in Hf as [Hf _]. now apply Q.
Qed.

Lemma updateFileHash_current cur fileId hash :
  stmtPreserves (filesAreCurrent cur) (updateFileHash fileId hash).
Proof.
  intros db db' a Q H. injection H as <- _. intros f Hf.
  cbn [files setFiles] in Hf. apply in_map_iff in Hf as [g [<- Hg]].
  destruct (file_id g =? fileId); [cbn [file_path]|]; now apply Q.
Qed.

Lemma insertFile_current cur p h :
  In p cur -> stmtPreserves (filesAreCurrent cur) (insertFile p h).
Proof.
  intros Hp db db' a Q. unfold insertFile. destruct (existsb _ _); [discriminate|].
  intros H. injection H as <- _. intros f Hf. cbn [files setFiles] in Hf.
  apply in_app_or in Hf as [Hf|[<-|[]]]; [now apply Q|exact Hp].
Qed.

Lemma insertChunkWithEmbedding_current cur fileId i content raw emb :
  stmtPreserves (filesAreCurrent cur) (insertChunkWithEmbedding fileId i content raw emb).
Proof.
  intros db db' a Q. unfold insertChunkWithEmbedding.
  destruct (negb _); [discriminate|]. destruct (existsb _ _); [discriminate|].
  intros H. injection H as <- _. exact Q.
Qed.

Lemma insertFts_current cur rowid content :
  stmtPreserves (filesAreCurrent cur) (insertFts rowid content).
Proof.
  intros db db' a Q. unfold insertFts. destruct (existsb _ _); [discriminate|].
  intros H. injection H as <- _. exact Q.
Qed.

Section NoteRuns.

Variable fuel : nat.
Variable embedder : Embedder.
Variables chunkSize chunkOverlap : Z.

Lemma insertionsPreserve_stmts (Q : Database -> Prop) :
  (forall fileId i content raw emb,
      stmtPreserves Q (insertChunkWithEmbedding fileId i content raw emb)) ->
  (forall rowid content, stmtPreserves Q (insertFts rowid content)) ->
  insertionsPreserve Q.
Proof.
  intros Hc Hf fileId i content raw emb db db1 id HQ E.
  pose proof (Hc _ _ _ _ _ _ _ _ HQ E) as H1.
  destruct (insertFts id content db1) as [[db2 u]|msg] eqn:F; [|exact H1].
  exact (Hf _ _ _ _ _ H1 F).
Qed.

Lemma processFileContent_preserves (Q : Database -> Prop) fileId file :
  insertionsPreserve Q ->
  preserves (fun s => Q (ns_db s))
            (processFileContent fuel embedder chunkSize chunkOverlap fileId file).
Proof.
  intros Hpair. unfold processFileContent.
  destruct (chunkText fuel (md_content file) chunkSize chunkOverlap) as [chunkList|];
    [|intros s s' o _ H; discriminate].
  apply preserves_forEachIndexed. intros i chunkContent s s' o HP.
  unfold bind at 1. unfold liftOutcome.
  destruct (embedder chunkContent) as [embedding|msg];
    [|intros H; injection H as <- _; exact HP].
  unfold bind at 1. unfold run at 1. cbn [getDb putDb NoteState_HasDb].
  destruct (insertChunkWithEmbedding fileId i chunkContent chunkContent
              (Float32.embeddingBuffer embedding) (ns_db s)) as [[db1 id]|msg] eqn:E;
    [|intros H; injection H as <- _; exact HP].
  pose proof (Hpair _ _ _ _ _ _ _ _ HP E) as H2.
  unfold bind at 1. unfold run at 1. cbn [getDb putDb NoteState_HasDb ns_db].
  destruct (insertFts id chunkContent db1) as [[db2 u]|msg];
    intros H; injection H as <- _; exact H2.
Qed.

Lemma deleteMissing_preserves (Q : Database -> Prop) cur dbFile :
  (forall fileId, stmtPreserves Q (deleteChunksByFileId fileId)) ->
  (forall fileId, stmtPreserves Q (deleteFile fileId)) ->
  preserves (fun s => Q (ns_db s)) (deleteMissing cur dbFile).
Proof.
  intros Hc Hf. unfold deleteMissing. destruct (existsb _ _); [apply preserves_ret|].
  apply preserves_tryCatch; [|intros msg; apply preserves_updStats].
  apply preserves_bind; [apply preserves_run, Hc|intros _].
  apply preserves_bind; [apply preserves_run, Hf|intros _].
  apply preserves_updStats.
Qed.

Lemma indexFile_preserves (Q : Database -> Prop) file :
  (forall fileId, stmtPreserves Q (deleteChunksByFileId fileId)) ->
  (forall fileId hash, stmtPreserves Q (updateFileHash fileId hash)) ->
  (forall hash, stmtPreserves Q (insertFile (md_relative file) hash)) ->
  insertionsPreserve Q ->
  preserves (fun s => Q (ns_db s)) (indexFile fuel embedder chunkSize chunkOverlap file).
Proof.
  intros Hd Hu Hi Hc. unfold indexFile.
  apply preserves_bind; [apply preserves_updStats|intros _].
  apply preserves_tryCatch; [|intros msg; apply preserves_updStats].
  apply preserves_bind; [apply preserves_gets|intros [existing|]].
  - destruct (String.eqb _ _); [apply preserves_updStats|].
    apply preserves_bind; [apply preserves_updStats|intros _].
    apply preserves_bind; [apply preserves_run, Hd|intros _].
    apply preserves_bind; [apply preserves_run, Hu|intros _].
    apply processFileContent_preserves, Hc.
  - apply preserves_bind; [apply preserves_updStats|intros _].
    apply preserves_bind; [apply preserves_run, Hi|intros fileId].
    apply processFileContent_preserves, Hc.
Qed.

(** What [deleteMissing] does to one row of [files]. *)
Lemma deleteMissing_effect cur dbFile s :
  exists s',
    deleteMissing cur dbFile s = Some (s', Ok tt) /\
    (In (file_path dbFile) cur -> s' = s) /\
    (~ In (file_path dbFile) cur ->
     files (ns_db s') =
       filter (fun f => negb (file_id f =? file_id dbFile)) (files (ns_db s)) /\
     ns_stats s' = incDeleted (ns_stats s)).
Proof.
  unfold deleteMissing. destruct (existsb _ cur) eqn:E.
  - apply existsb_eqb_In in E. eexists. split; [reflexivity|]. split; [reflexivity|].
    intros H. contradiction.
  - eexists. split; [reflexivity|]. split.
    + intros H. apply existsb_eqb_In in H. congruence.
    + intros _. split; reflexivity.
Qed.

Lemma deleteMissing_loop cur xs :
  forall s,
    exists s',
      forEach xs (deleteMissing cur) s = Some (s', Ok tt) /\
      filesDeleted (ns_stats s') =
        filesDeleted (ns_stats s) +
        Z.of_nat (List.length
                    (filter (fun f => negb (existsb (String.eqb (file_path f)) cur)) xs)) /\
      filesProcessed (ns_stats s') = filesProcessed (ns_stats s) /\
      filesAdded (ns_stats s') = filesAdded (ns_stats s) /\
      filesUpdated (ns_stats s') = filesUpdated (ns_stats s) /\
      filesSkipped (ns_stats s') = filesSkipped (ns_stats s) /\
      ((forall f, In f (files (ns_db s)) ->
                  In (file_path f) cur \/
                  exists g, In g xs /\ file_id g = file_id f /\ ~ In (file_path g) cur) ->
       filesAreCurrent cur (ns_db s')).
Proof.
  induction xs as [|x xs IH]; intros s.
  - exists s. cbn [forEach filter List.length]. split; [reflexivity|].
    repeat split; try lia. intros H f Hf.
    destruct (H f Hf) as [Hc|[g [[] _]]]. exact Hc.
  - cbn [forEach]. unfold bind at 1.
    destruct (deleteMissing_effect cur x s) as [s1 [E1 [Hcur Hmiss]]]. rewrite E1.
    destruct (IH s1) as [s' [E' [Hd [Hp [Ha [Hu [Hs Hfiles]]]]]]].
    exists s'. split; [exact E'|]. cbn [filter].
    destruct (existsb (String.eqb (file_path x)) cur) eqn:Ex; cbn [negb].
    + apply existsb_eqb_In in Ex. rewrite (Hcur Ex) in *.
      repeat split; try assumption. intros H. apply Hfiles. intros f Hf.
      destruct (H f Hf) as [Hc|[g [[<-|Hg] [Hid Hn]]]]; [now left|contradiction|].
      right. eauto.
    + assert (Hx : ~ In (file_path x) cur).
      { intros H. apply existsb_eqb_In in H. congruence. }
      destruct (Hmiss Hx) as [Hf1 Hst]. rewrite Hst in *.
      cbn [List.length filesDeleted filesProcessed filesAdded filesUpdated filesSkipped
           incDeleted] in *.
      repeat split; try lia. intros H. apply Hfiles. intros f Hf.
      rewrite Hf1 in Hf. apply filter_In in Hf as [Hf Hne].
      apply negb_true_iff, Z.eqb_neq in Hne.
      destruct (H f Hf) as [Hc|[g [[<-|Hg] [Hid Hn]]]]; [now left|congruence|].
      right. eauto.
Qed.

End NoteRuns.











Lemma indexFile_skips fuel embedder chunkSize chunkOverlap file f db st :
  getFileByPath db (md_relative file) = Some f ->
  file_hash f = Sha256.sha256hex (md_content file) ->
  indexFile fuel embedder chunkSize chunkOverlap file {| ns_db := db; ns_stats := st |} =
    Some ({| ns_db := db; ns_stats := incSkipped (incProcessed st) |}, Ok tt).
Proof.
  intros G H. unfold indexFile. unfold bind at 1. unfold updStats at 1, modify.
  unfold tryCatch. unfold bind at 1. unfold gets. cbn [ns_db ns_stats].
  rewrite G, H, String.eqb_refl. reflexivity.
Qed.

Lemma indexFile_loop_skips fuel embedder chunkSize chunkOverlap db markdownFiles :
  (forall m, In m markdownFiles ->
             exists f, getFileByPath db (md_relative m) = Some f /\
                       file_hash f = Sha256.sha256hex (md_content m)) ->
  forall st,
    forEach markdownFiles (indexFile fuel embedder chunkSize chunkOverlap)
            {| ns_db := db; ns_stats := st |} =
      Some ({| ns_db := db;
               ns_stats :=
                 {| filesProcessed := filesProcessed st + Z.of_nat (List.length markdownFiles);
                    filesAdded := filesAdded st;
                    filesUpdated := filesUpdated st;
                    filesSkipped := filesSkipped st + Z.of_nat (List.length markdownFiles);
                    filesDeleted := filesDeleted st;
                    chunksCreated := chunksCreated st;
                    errors := errors st |} |}, Ok tt).
Proof.
  induction markdownFiles as [|x xs IH]; intros H st; cbn [forEach].
  - unfold ret. destruct st. cbn. now rewrite !Z.add_0_r.
  - unfold bind at 1. destruct (H x (or_introl eq_refl)) as [f [G E]].
    rewrite (indexFile_skips _ _ _ _ _ _ _ _ G E).
    rewrite (IH (fun m Hm => H m (or_intror Hm))).
    cbn [List.length filesProcessed filesAdded filesUpdated filesSkipped filesDeleted
         chunksCreated errors incSkipped incProcessed].
    do 3 f_equal. f_equal; lia.
Qed.

Lemma forEach_unchanged {S A : Type} (xs : list A) (body : A -> Eff S unit) (s : S) :
  (forall x, In x xs -> body x s = Some (s, Ok tt)) ->
  forEach xs body s = Some (s, Ok tt).
Proof.
  induction xs as [|x xs IH]; intros H; cbn [forEach]; [reflexivity|].
  unfold bind. rewrite (H x (or_introl eq_refl)). apply IH.
  intros y Hy. apply H. now right.
Qed.

(** X13: a run over files that are all on record with their current
    digest, in a store that holds no other file, changes nothing: the
    database is left as it was, every file is counted as processed and
    skipped, and no chunk is made and no embedding asked for. *)
Theorem ingest_unchanged_is_noop fuel embedder chunkSize chunkOverlap db markdownFiles :
  filesAreCurrent (map md_relative markdownFiles) db ->
  (forall m, In m markdownFiles ->
             exists f, getFileByPath db (md_relative m) = Some f /\
                       file_hash f = Sha256.sha256hex (md_content m)) ->
  ingest fuel embedder chunkSize chunkOverlap db markdownFiles =
    Some (db, {| filesProcessed := Z.of_nat (List.length markdownFiles);
                 filesAdded := 0; filesUpdated := 0;
                 filesSkipped := Z.of_nat (List.length markdownFiles);
                 filesDeleted := 0; chunksCreated := 0; errors := [] |}).
Proof.
  intros Hcur Hrec. unfold ingest, indexFiles. unfold bind at 1. unfold gets, getAllFiles.
  cbn [ns_db]. unfold bind at 1. rewrite forEach_unchanged.
  - rewrite (indexFile_loop_skips _ _ _ _ _ _ Hrec). reflexivity.
  - intros f Hf. unfold deleteMissing.
    rewrite (proj2 (existsb_eqb_In _ _) (Hcur f Hf)). reflexivity.
Qed.

Lemma ingest_unchanged_is_noop_witness :
  ingest 100 stubEmbedder 500 50 oneNoteDb [noteA "hello world"] =
    Some (oneNoteDb, {| filesProcessed := 1; filesAdded := 0; filesUpdated := 0;
                        filesSkipped := 1; filesDeleted := 0; chunksCreated := 0;
                        errors := [] |}).
Proof.
  apply (ingest_unchanged_is_noop 100 stubEmbedder 500 50 oneNoteDb [noteA "hello world"]).
  - intros f [<-|[]]. vm_compute. now left.
  - intros m [<-|[]]. eexists. split; vm_compute; reflexivity.
Defined.

Lemma ingest_inv fuel embedder chunkSize chunkOverlap db markdownFiles db' st :
  ingest fuel embedder chunkSize chunkOverlap db markdownFiles = Some (db', st) ->
  exists o,
    indexFiles fuel embedder chunkSize chunkOverlap markdownFiles
               {| ns_db := db; ns_stats := emptyStats |} =
      Some ({| ns_db := db'; ns_stats := st |}, o).
Proof.
  unfold ingest.
  destruct (indexFiles _ _ _ _ _ _) as [[[db1 st1] o]|]; [|discriminate].
  cbn [ns_db ns_stats]. intros H. injection H as <- <-. eauto.
Qed.

Lemma indexFiles_preserves fuel embedder chunkSize chunkOverlap (Q : Database -> Prop)
      markdownFiles :
  (forall fileId, stmtPreserves Q (deleteChunksByFileId fileId)) ->
  (forall fileId, stmtPreserves Q (deleteFile fileId)) ->
  (forall fileId hash, stmtPreserves Q (updateFileHash fileId hash)) ->
  (forall p hash, stmtPreserves Q (insertFile p hash)) ->
  insertionsPreserve Q ->
  preserves (fun s => Q (ns_db s))
            (indexFiles fuel embedder chunkSize chunkOverlap markdownFiles).
Proof.
  intros Hd Hf Hu Hi Hc. unfold indexFiles.
  apply preserves_bind; [apply preserves_gets|intros dbFiles].
  apply preserves_bind; [|intros _].
  - apply preserves_forEach. intros x _. now apply deleteMissing_preserves.
  - apply preserves_forEach. intros x _. apply indexFile_preserves; auto.
Qed.

(** X14: after a run of the note indexer every row of [files] stands for
    a file that is still on disk, and when every chunk belonged to a file
    before the run, every chunk belongs to a file afterwards: nothing of a
    removed note is left in [files] or [chunks]. *)
Theorem ingest_prunes fuel embedder chunkSize chunkOverlap db markdownFiles db' st :
  ingest fuel embedder chunkSize chunkOverlap db markdownFiles = Some (db', st) ->
  filesAreCurrent (map md_relative markdownFiles) db' /\
  (chunksHaveFiles db -> chunksHaveFiles db').
Proof.
  intros H. apply ingest_inv in H as [o H]. split.
  - unfold indexFiles in H. unfold bind at 1 in H. unfold gets, getAllFiles in H.
    cbn [ns_db] in H. unfold bind at 1 in H.
    destruct (deleteMissing_loop (map md_relative markdownFiles) (files db)
                {| ns_db := db; ns_stats := emptyStats |})
      as [s1 [E1 [_ [_ [_ [_ [_ Hfiles]]]]]]].
    rewrite E1 in H.
    assert (P1 : filesAreCurrent (map md_relative markdownFiles) (ns_db s1)).
    { apply Hfiles. cbn [ns_db]. intros f Hf.
      destruct (in_dec string_dec (file_path f) (map md_relative markdownFiles))
        as [Hin|Hout]; [now left|]. right. exists f. auto. }
    refine (preserves_forEach
              (fun s => filesAreCurrent (map md_relative markdownFiles) (ns_db s))
              markdownFiles _ _ s1 _ o P1 H).
    intros x Hx. apply indexFile_preserves.
    + apply deleteChunksByFileId_current.
    + apply updateFileHash_current.
    + intros hash. apply insertFile_current, in_map, Hx.
    + apply insertionsPreserve_stmts.
      * apply insertChunkWithEmbedding_current.
      * apply insertFts_current.
  - intros Q.
    refine (indexFiles_preserves fuel embedder chunkSize chunkOverlap chunksHaveFiles
              markdownFiles _ _ _ _ _ {| ns_db := db; ns_stats := emptyStats |} _ o Q H).
    + apply deleteChunksByFileId_owners.
    + apply deleteFile_owners.
    + apply updateFileHash_owners.
    + apply insertFile_owners.
    + apply insertionsPreserve_stmts.
      * apply insertChunkWithEmbedding_owners.
      * apply insertFts_owners.
Qed.

Lemma ingest_prunes_witness :
  filesAreCurrent (map md_relative (@nil MarkdownFile))
                  (setFts (setChunks (setFiles emptyDatabase [] (Some 1)) [] (Some 1))
                          (chunks_fts oneNoteDb)).
Proof.
  refine (proj1 (ingest_prunes 100 stubEmbedder 500 50 oneNoteDb [] _ (incDeleted emptyStats) _)).
  vm_compute. reflexivity.
Defined.

(** ** The note indexer: shadow rows *)

Lemma NoDup_snoc {A : Type} (l : list A) (x : A) :
  NoDup l -> ~ In x l -> NoDup (l ++ [x]).
Proof.
  induction 1 as [|y r Hy Hr IH]; intros Hx; cbn [app].
  - constructor; [intros []|constructor].
  - constructor.
    + intros H. apply in_app_or in H as [H|[<-|[]]]; [contradiction|].
      apply Hx. now left.
    + apply IH. intros H. apply Hx. now right.
Qed.

Lemma NoDup_one_row (rows : list FtsRow) (id : Z) :
  NoDup (map fts_rowid rows) -> In id (map fts_rowid rows) ->
  List.length (filter (fun r => fts_rowid r =? id) rows) = 1%nat.
Proof.
  induction rows as [|r rows IH]; intros Hn Hin; [destruct Hin|].
  cbn [map filter] in *. inversion Hn as [|? ? Hr Hrest]; subst.
  destruct (fts_rowid r =? id) eqn:E.
  - apply Z.eqb_eq in E. cbn [List.length]. f_equal.
    assert (Hnone : forall q, In q rows -> (fts_rowid q =? id) = false).
    { intros q Hq. apply Z.eqb_neq. intros Hq'. apply Hr. rewrite E, <- Hq'.
      now apply in_map. }
    clear - Hnone. induction rows as [|q rows IH]; [reflexivity|].
    cbn [filter]. rewrite (Hnone q (or_introl eq_refl)). apply IH.
    intros q' Hq'. apply Hnone. now right.
  - apply Z.eqb_neq in E. destruct Hin as [Hin|Hin]; [contradiction|]. now apply IH.
Qed.

Lemma deleteChunksByFileId_shadowed fileId :
  stmtPreserves chunksShadowed (deleteChunksByFileId fileId).
Proof.
  intros db db' a (Q1 & Q2 & Q3) H. injection H as <- _.
  repeat split; cbn [chunks chunks_fts seq_chunks setChunks]; [exact Q1| |exact Q3].
  intros c Hc. apply filter_In in Hc as [Hc _]. now apply Q2.
Qed.

Lemma deleteFile_shadowed fileId : stmtPreserves chunksShadowed (deleteFile fileId).
Proof.
  intros db db' a (Q1 & Q2 & Q3) H. injection H as <- _.
  repeat split; cbn [chunks chunks_fts seq_chunks setChunks setFiles];
    [exact Q1| |exact Q3].
  intros c Hc. apply filter_In in Hc as [Hc _]. now apply Q2.
Qed.

Lemma updateFileHash_shadowed fileId hash :
  stmtPreserves chunksShadowed (updateFileHash fileId hash).
Proof. intros db db' a Q H. injection H as <- _. exact Q. Qed.

Lemma insertFile_shadowed p h : stmtPreserves chunksShadowed (insertFile p h).
Proof.
  intros db db' a Q. unfold insertFile. destruct (existsb _ _); [discriminate|].
  intros H. injection H as <- _. exact Q.
Qed.

(** In a store whose chunks all have their row, the row of a new chunk is
    never refused: its rowid is new, and the store is as well kept
    afterwards. *)
Lemma insertions_shadowed fileId i content raw emb db db1 id :
  chunksShadowed db ->
  insertChunkWithEmbedding fileId i content raw emb db = Ok (db1, id) ->
  exists db2, insertFts id content db1 = Ok (db2, tt) /\ chunksShadowed db2.
Proof.
  intros (Q1 & Q2 & Q3). unfold insertChunkWithEmbedding.
  destruct (negb _); [discriminate|]. destruct (existsb _ (chunks db)); [discriminate|].
  intros H. injection H as <- <-.
  set (id := nextRowid (map chunk_id (chunks db)) (seq_chunks db)).
  assert (Hlt : forall r, In r (chunks_fts db) -> fts_rowid r < id).
  { intros r Hr. destruct (Q3 r Hr) as [n [Hn Hle]]. unfold id. rewrite Hn.
    pose proof (nextRowid_above_sequence (map chunk_id (chunks db)) n). lia. }
  assert (Hnew : ~ In id (map fts_rowid (chunks_fts db))).
  { intros H. apply in_map_iff in H as [r [E Hr]]. specialize (Hlt r Hr). lia. }
  unfold insertFts. cbn [chunks_fts setChunks].
  assert (E : existsb (fun r => fts_rowid r =? id) (chunks_fts db) = false).
  { apply not_true_is_false. intros H. apply existsb_exists in H as [r [Hr E]].
    apply Z.eqb_eq in E. specialize (Hlt r Hr). lia. }
  rewrite E. eexists. split; [reflexivity|].
  repeat split; cbn [chunks chunks_fts seq_chunks setChunks setFts].
  - rewrite map_app. cbn [map fts_rowid]. now apply NoDup_snoc.
  - intros c Hc. rewrite map_app. apply in_or_app.
    apply in_app_or in Hc as [Hc|[<-|[]]]; [left; now apply Q2|].
    right. now left.
  - intros r Hr. exists id. split; [reflexivity|].
    apply in_app_or in Hr as [Hr|[<-|[]]]; [specialize (Hlt r Hr); lia|].
    cbn [fts_rowid]. lia.
Qed.

Lemma insertionsPreserve_shadowed : insertionsPreserve chunksShadowed.
Proof.
  intros fileId i content raw emb db db1 id Q E.
  destruct (insertions_shadowed _ _ _ _ _ _ _ _ Q E) as [db2 [E2 Q2]].
  rewrite E2. exact Q2.
Qed.

(** X15: in a store where every chunk has its row in [chunks_fts] (with
    distinct rowids, none beyond the counter of [chunks]), every run of
    the note indexer keeps that: afterwards each chunk of the store has
    exactly one row of [chunks_fts] with its identifier. *)
Theorem ingest_keeps_chunks_shadowed fuel embedder chunkSize chunkOverlap db
        markdownFiles db' st :
  chunksShadowed db ->
  ingest fuel embedder chunkSize chunkOverlap db markdownFiles = Some (db', st) ->
  chunksShadowed db' /\
  forall c, In c (chunks db') -> List.length (shadowRowsOf db' (chunk_id c)) = 1%nat.
Proof.
  intros Q H. apply ingest_inv in H as [o H].
  assert (Q' : chunksShadowed db').
  { refine (indexFiles_preserves fuel embedder chunkSize chunkOverlap chunksShadowed
              markdownFiles _ _ _ _ _ {| ns_db := db; ns_stats := emptyStats |} _ o Q H).
    - apply deleteChunksByFileId_shadowed.
    - apply deleteFile_shadowed.
    - apply updateFileHash_shadowed.
    - apply insertFile_shadowed.
    - apply insertionsPreserve_shadowed. }
  split; [exact Q'|]. intros c Hc. destruct Q' as (Q1 & Q2 & _).
  unfold shadowRowsOf. apply NoDup_one_row; [exact Q1|now apply Q2].
Qed.

Lemma ingest_keeps_chunks_shadowed_witness :
  List.length (shadowRowsOf oneNoteDb 1) = 1%nat.
Proof.
  refine (proj2 (ingest_keeps_chunks_shadowed 100 stubEmbedder 500 50 emptyDatabase
                   [noteA "hello world"] oneNoteDb
                   {| filesProcessed := 1; filesAdded := 1; filesUpdated := 0;
                      filesSkipped := 0; filesDeleted := 0; chunksCreated := 1;
                      errors := [] |} _ _)
                {| chunk_id := 1; chunk_file_id := 1; chunk_index := 0;
                   chunk_content := "hello world"; chunk_raw_text := "hello world";
                   chunk_embedding := Some [0; 0; 128; 63; 0; 0; 0; 0; 0; 0; 0; 0] |} _).
  - repeat split; cbn; [constructor|intros c []|intros r []].
  - vm_compute. reflexivity.
  - vm_compute. left. reflexivity.
Defined.

(** X16: no run of the note indexer removes or reorders a row of
    [chunks_fts]: the table after the run is the table before it followed
    by the rows the run added. *)
Theorem ingest_never_removes_shadow_rows fuel embedder chunkSize chunkOverlap db
        markdownFiles db' st :
  ingest fuel embedder chunkSize chunkOverlap db markdownFiles = Some (db', st) ->
  exists added, chunks_fts db' = chunks_fts db ++ added.
Proof.
  intros H. apply ingest_inv in H as [o H].
  exact (indexFiles_appends fuel embedder chunkSize chunkOverlap markdownFiles _ _ _ H).
Qed.

Lemma ingest_never_removes_shadow_rows_witness :
  exists added, chunks_fts oneNoteDb = chunks_fts emptyDatabase ++ added.
Proof.
  apply (ingest_never_removes_shadow_rows 100 stubEmbedder 500 50 emptyDatabase
           [noteA "hello world"] oneNoteDb
           {| filesProcessed := 1; filesAdded := 1; filesUpdated := 0;
              filesSkipped := 0; filesDeleted := 0; chunksCreated := 1;
              errors := [] |}).
  vm_compute. reflexivity.
Defined.

(** X17: a new file whose first chunk cannot be embedded is recorded
    with its digest before the failure: the run reports one error and
    stores no chunk for it, and every later run over the same content
    skips the file, whatever embedder it uses. *)
Theorem failed_file_is_not_retried fuel embedder embedder' chunkSize chunkOverlap db file
        c rest msg st :
  getFileByPath db (md_relative file) = None ->
  chunkText fuel (md_content file) chunkSize chunkOverlap = Some (c :: rest) ->
  embedder c = Throw msg ->
  exists s1 e,
    indexFile fuel embedder chunkSize chunkOverlap file {| ns_db := db; ns_stats := st |} =
      Some (s1, Ok tt) /\
    chunks (ns_db s1) = chunks db /\
    errors (ns_stats s1) = errors st ++ [e] /\
    forall st',
      indexFile fuel embedder' chunkSize chunkOverlap file
                {| ns_db := ns_db s1; ns_stats := st' |} =
        Some ({| ns_db := ns_db s1; ns_stats := incSkipped (incProcessed st') |}, Ok tt).
Proof.
  intros G Hc He.
  pose proof (proj1 (find_none_existsb _ _) G) as Ex.
  unfold indexFile at 1. unfold bind at 1. unfold updStats at 1, modify.
  unfold tryCatch. unfold bind at 1. unfold gets. cbn [ns_db ns_stats].
  rewrite G. unfold bind at 1. unfold updStats at 1, modify. cbn [ns_db ns_stats].
  unfold bind at 1. unfold run at 1. cbn [getDb putDb NoteState_HasDb ns_db ns_stats].
  unfold insertFile. rewrite Ex.
  unfold processFileContent. rewrite Hc. cbn [forEachIndexed].
  unfold bind at 1. unfold bind at 1. unfold liftOutcome. rewrite He.
  do 2 eexists. split; [reflexivity|]. cbn [ns_db ns_stats chunks setFiles].
  split; [reflexivity|]. split; [reflexivity|]. intros st'.
  eapply indexFile_skips.
  - unfold getFileByPath. cbn [files setFiles]. rewrite find_app_none by exact G.
    cbn [find file_path]. rewrite String.eqb_refl. reflexivity.
  - reflexivity.
Qed.

Lemma failed_file_is_not_retried_witness :
  exists s1 e,
    indexFile 100 (fun _ => Throw "model not loaded") 500 50 (noteA "hello world")
              {| ns_db := emptyDatabase; ns_stats := emptyStats |} = Some (s1, Ok tt) /\
    chunks (ns_db s1) = [] /\
    errors (ns_stats s1) = [] ++ [e] /\
    forall st',
      indexFile 100 stubEmbedder 500 50 (noteA "hello world")
                {| ns_db := ns_db s1; ns_stats := st' |} =
        Some ({| ns_db := ns_db s1; ns_stats := incSkipped (incProcessed st') |}, Ok tt).
Proof.
  apply (failed_file_is_not_retried 100 (fun _ => Throw "model not loaded") stubEmbedder
           500 50 emptyDatabase (noteA "hello world") "hello world" []
           "model not loaded" emptyStats); reflexivity.
Defined.

(** ** Conversations: the Copilot parser *)

Lemma wellFormedExchanges_snoc es c :
  wellFormedExchanges es ->
  ex_exchangeIndex c = Z.of_nat (List.length es) ->
  truthy (ex_userMessage c) = true -> truthy (ex_assistantMessage c) = true ->
  wellFormedExchanges (es ++ [c]).
Proof.
  intros [Hi Hm] Hc Hu Ha. split.
  - intros i e Hn. destruct (Nat.lt_ge_cases i (List.length es)) as [Hlt|Hge].
    + rewrite nth_error_app1 in Hn by exact Hlt. now apply Hi.
    + rewrite nth_error_app2 in Hn by exact Hge.
      destruct (i - List.length es)%nat as [|k] eqn:K; cbn in Hn.
      * injection Hn as <-. rewrite Hc. f_equal. lia.
      * destruct k; discriminate.
  - apply Forall_app. split; [exact Hm|]. constructor; [now split|constructor].
Qed.

Lemma extractStep_invariant st event :
  extractInvariant st -> extractInvariant (extractStep st event).
Proof.
  intros H. pose proof H as (Hw & Hi & Hc). unfold extractStep.
  destruct (String.eqb (ev_type event) "user.message").
  { unfold completed. destruct (xs_current st) as [c|] eqn:C.
    - destruct (truthy (ex_userMessage c)) eqn:U, (truthy (ex_assistantMessage c)) eqn:A;
        cbn [andb]; (split; [|split]);
        cbn [xs_exchanges xs_index xs_current ex_exchangeIndex];
        try assumption; try reflexivity.
      + apply wellFormedExchanges_snoc; try assumption. congruence.
      + rewrite length_app. cbn [List.length]. lia.
    - split; [|split]; cbn [xs_exchanges xs_index xs_current ex_exchangeIndex];
        try assumption; reflexivity. }
  destruct (String.eqb (ev_type event) "assistant.message").
  { destruct (xs_current st) as [c|] eqn:C; [|exact H].
    split; [|split]; cbn [xs_exchanges xs_index xs_current]; assumption. }
  destruct (String.eqb (ev_type event) "tool.call" || String.eqb (ev_type event) "tool.invoke")%bool.
  { destruct (xs_current st) as [c|] eqn:C; [|exact H].
    destruct (truthy (d_name (ev_data event))); [|exact H].
    split; [|split]; cbn [xs_exchanges xs_index xs_current]; assumption. }
  exact H.
Qed.

Lemma extractLoop_invariant events :
  forall st, extractInvariant st -> extractInvariant (fold_left extractStep events st).
Proof.
  induction events as [|e r IH]; intros st H; cbn [fold_left]; [exact H|].
  apply IH, extractStep_invariant, H.
Qed.

Lemma truthy_nonempty s : truthy s = true -> s <> EmptyString.
Proof. unfold truthy. intros H. apply negb_true_iff in H. now apply String.eqb_neq. Qed.

Lemma extractExchanges_shape events next :
  exists all,
    wellFormedExchanges all /\
    fst (extractExchanges events next) = map (withConversationId (stampedSessionId events)) all.
Proof.
  unfold extractExchanges, stampedSessionId. cbv zeta. cbn [fst].
  set (st := fold_left extractStep events _).
  assert (H : extractInvariant st).
  { apply extractLoop_invariant. repeat split; cbn; [|constructor].
    intros [|i] e; discriminate. }
  destruct H as (Hw & Hi & Hc). eexists. split; [|reflexivity].
  unfold completed. destruct (xs_current st) as [c|]; [|exact Hw].
  destruct (truthy (ex_userMessage c)) eqn:U, (truthy (ex_assistantMessage c)) eqn:A;
    cbn [andb]; try exact Hw.
  apply wellFormedExchanges_snoc; try assumption. congruence.
Qed.

(** X18: the exchanges [extractExchanges] returns are numbered 0, 1, 2,
    ... in the order of the list, each has a non-empty user text and a
    non-empty assistant text, and all carry the same conversation
    identifier: the session identifier of the first [session.start]
    event, or [unknown] when there is none or it is empty. *)
Theorem extractExchanges_well_formed events next i e :
  nth_error (fst (extractExchanges events next)) i = Some e ->
  ex_exchangeIndex e = Z.of_nat i /\
  ex_userMessage e <> EmptyString /\
  ex_assistantMessage e <> EmptyString /\
  ex_conversationId e = stampedSessionId events.
Proof.
  destruct (extractExchanges_shape events next) as [all [[Hi Hm] ->]].
  rewrite nth_error_map. destruct (nth_error all i) as [x|] eqn:N; [|discriminate].
  cbn [option_map]. intros H. injection H as <-.
  cbn [withConversationId ex_exchangeIndex ex_userMessage ex_assistantMessage
       ex_conversationId].
  rewrite Forall_forall in Hm. destruct (Hm x (nth_error_In _ _ N)) as [U A].
  repeat split; [now apply Hi|now apply truthy_nonempty|now apply truthy_nonempty].
Qed.

Lemma extractExchanges_well_formed_witness :
  ex_exchangeIndex
    {| ex_id := uuid 0; ex_conversationId := "test-session-1"; ex_exchangeIndex := 0;
       ex_timestamp := "10:00:05"; ex_userMessage := "Test question";
       ex_assistantMessage := "Test answer"; ex_toolCalls := Some [];
       ex_parentId := Some "e1" |} = Z.of_nat 0.
Proof.
  refine (proj1 (extractExchanges_well_formed (testEvents "10:00:05" "10:00:10") 0 0 _ _)).
  reflexivity.
Defined.

(** X19: a conversation parsed from a Copilot archive carries the path
    it was read from and the source tag [copilot], its identifier is the
    session identifier of the first [session.start] event, its exchange
    count is the number of exchanges returned with it, and unless that
    session identifier is empty every exchange refers to it. *)
Theorem parseCopilotConversation_consistent env filePath w w' parsed :
  parseCopilotConversation env filePath w = Some (w', Ok parsed) ->
  conv_archivePath (conversation parsed) = filePath /\
  conv_source (conversation parsed) = "copilot" /\
  conv_id (conversation parsed) = conv_sessionId (conversation parsed) /\
  conv_exchangeCount (conversation parsed) = Z.of_nat (List.length (parsedExchanges parsed)) /\
  (conv_id (conversation parsed) <> EmptyString ->
   Forall (fun e => ex_conversationId e = conv_id (conversation parsed))
          (parsedExchanges parsed)).
Proof.
  unfold parseCopilotConversation, bind, liftOutcome.
  destruct (readFile env filePath) as [archive|msg]; [|discriminate].
  destruct (findSessionStart (ar_events archive)) as [ss|] eqn:F; [|discriminate].
  unfold gets.
  destruct (extractExchanges (ar_events archive) (w_uuid w)) as [l n] eqn:X.
  unfold modify, ret. intros H. injection H as _ <-.
  cbn [conversation parsedExchanges conv_archivePath conv_source conv_id conv_sessionId
       conv_exchangeCount].
  repeat split. intros Hid. apply Forall_forall. intros e He.
  destruct (extractExchanges_shape (ar_events archive) (w_uuid w)) as [all [_ E]].
  rewrite X in E. cbn [fst] in E. rewrite E in He.
  apply in_map_iff in He as [x [<- _]]. cbn [withConversationId ex_conversationId].
  unfold stampedSessionId. rewrite F.
  destruct (truthy (d_sessionId (ev_data ss))) eqn:T; [reflexivity|].
  unfold truthy in T. apply negb_false_iff, String.eqb_eq in T. contradiction.
Qed.

Lemma parseCopilotConversation_consistent_witness :
  conv_archivePath (conversation (snd firstParse)) = testPath.
Proof.
  refine (proj1 (parseCopilotConversation_consistent firstExport testPath freshWorld
                   (fst firstParse) (snd firstParse) _)).
  vm_compute. reflexivity.
Defined.

(** ** Conversations: the indexer *)

Lemma bind_inv {S A B : Type} (m : Eff S A) (k : A -> Eff S B) s s' o :
  bind m k s = Some (s', o) ->
  (exists s1 a, m s = Some (s1, Ok a) /\ k a s1 = Some (s', o)) \/
  (exists msg, m s = Some (s', Throw msg) /\ o = Throw msg).
Proof.
  unfold bind. destruct (m s) as [[s1 [a|msg]]|]; [| |discriminate].
  - intros H. left. eauto.
  - intros H. injection H as <- <-. right. eauto.
Qed.

Lemma run_inv {S A : Type} `{HasDb S} (st : Stmt A) s s' o :
  run st s = Some (s', o) ->
  (exists db' a, st (getDb s) = Ok (db', a) /\ s' = putDb s db' /\ o = Ok a) \/
  (exists msg, st (getDb s) = Throw msg /\ s' = s /\ o = Throw msg).
Proof.
  unfold run. destruct (st (getDb s)) as [[db' a]|msg]; intros E; injection E as <- <-.
  - left. eauto.
  - right. eauto.
Qed.

Lemma finishes_bind {S A B : Type} (m : Eff S A) (k : A -> Eff S B) :
  finishes m -> (forall a, finishes (k a)) -> finishes (bind m k).
Proof.
  intros Hm Hk s. unfold bind. specialize (Hm s).
  destruct (m s) as [[s1 [a|msg]]|]; [apply Hk|discriminate|congruence].
Qed.

Lemma finishes_run {S A : Type} `{HasDb S} (st : Stmt A) : finishes (run st).
Proof. intros s. unfold run. destruct (st (getDb s)) as [[db' a]|msg]; discriminate. Qed.

Lemma finishes_forEach {S A : Type} (xs : list A) (body : A -> Eff S unit) :
  (forall x, finishes (body x)) -> finishes (forEach xs body).
Proof.
  intros Hb. induction xs as [|x xs IH]; cbn [forEach]; [discriminate|].
  apply finishes_bind; [apply Hb|intros _; exact IH].
Qed.

Lemma finishes_transaction {S A : Type} `{HasDb S} (m : Eff S A) :
  finishes m -> finishes (transaction m).
Proof.
  intros Hm s. unfold transaction. specialize (Hm s).
  destruct (m s) as [[s1 [a|msg]]|]; [discriminate|discriminate|congruence].
Qed.

Lemma generateExchangeEmbeddings_finishes embedder es :
  finishes (generateExchangeEmbeddings embedder es).
Proof.
  induction es as [|e r IH]; cbn [generateExchangeEmbeddings]; [discriminate|].
  apply finishes_bind; [discriminate|intros _].
  apply finishes_bind; [discriminate|intros embedding].
  apply finishes_bind; [exact IH|discriminate].
Qed.

Lemma parseArtifact_finishes env filePath options :
  finishes (parseArtifact env filePath options).
Proof.
  unfold parseArtifact.
  destruct (hasDbExtension filePath || includes filePath "opencode.db")%bool.
  - destruct (opt_sessionId options) as [sid|]; [destruct (truthy sid)|]; discriminate.
  - unfold parseCopilotConversation. apply finishes_bind; [discriminate|intros archive].
    destruct (findSessionStart (ar_events archive)); [|discriminate].
    apply finishes_bind; [discriminate|intros next].
    destruct (extractExchanges (ar_events archive) next).
    apply finishes_bind; discriminate.
Qed.

(** Indexing one conversation file always comes to an end. *)
Lemma indexConversationFile_finishes env filePath options :
  finishes (indexConversationFile env filePath options).
Proof.
  unfold indexConversationFile.
  apply finishes_bind; [apply parseArtifact_finishes|intros parsed].
  apply finishes_bind; [discriminate|intros fileHash].
  apply finishes_bind; [discriminate|intros existing].
  match goal with |- finishes (if ?b then _ else _) => destruct b end; [discriminate|].
  apply finishes_bind.
  { destruct (opt_embedder options);
      [apply generateExchangeEmbeddings_finishes|discriminate]. }
  intros withEmbeddings. apply finishes_bind; [|discriminate].
  apply finishes_transaction.
  apply finishes_bind; [apply finishes_run|intros _].
  apply finishes_bind; [apply finishes_run|intros _].
  apply finishes_forEach. intros item.
  apply finishes_bind; [apply finishes_run|intros _].
  destruct (snd item); [apply finishes_run|discriminate].
Qed.

Lemma indexLoop_accounting env options filePaths :
  forall w r, exists w' r',
    indexLoop env options filePaths w r = Some (w', r') /\
    conversationsIndexed r' + conversationsSkipped r' +
      Z.of_nat (List.length (indexErrors r')) =
    conversationsIndexed r + conversationsSkipped r +
      Z.of_nat (List.length (indexErrors r)) + Z.of_nat (List.length filePaths) /\
    conversationsDeleted r' = conversationsDeleted r.
Proof.
  induction filePaths as [|p rest IH]; intros w r; cbn [indexLoop].
  - exists w, r. split; [reflexivity|]. cbn [List.length]. lia.
  - pose proof (indexConversationFile_finishes env p options w) as Hf.
    destruct (indexConversationFile env p options w) as [[w1 [fr|err]]|]; [| |congruence].
    + destruct (indexed fr);
        match goal with
        | |- context [indexLoop _ _ _ _ ?r1] =>
            destruct (IH w1 r1) as [w' [r' [E [Hc Hd]]]]
        end;
        exists w', r'; (split; [exact E|]);
        cbn [conversationsIndexed conversationsSkipped indexErrors conversationsDeleted
             List.length] in *; lia.
    + match goal with
      | |- context [indexLoop _ _ _ _ ?r1] =>
          destruct (IH w1 r1) as [w' [r' [E [Hc Hd]]]]
      end.
      exists w', r'. split; [exact E|].
      cbn [conversationsIndexed conversationsSkipped indexErrors conversationsDeleted
           List.length] in *.
      rewrite length_app in Hc. cbn [List.length] in Hc. lia.
Qed.

Lemma filter_filter_and {A : Type} (p q : A -> bool) (l : list A) :
  filter p (filter q l) = filter (fun x => (q x && p x)%bool) l.
Proof.
  induction l as [|x l IH]; [reflexivity|]. cbn [filter].
  destruct (q x); cbn [andb filter]; [destruct (p x); now rewrite IH|exact IH].
Qed.

(** The database and the summary the delete-detection loop leaves. *)
Lemma deleteDetection_spec filePaths rows :
  forall db r,
    let goneId := fun id =>
      existsb (fun row => (archiveGone filePaths row &&
                           String.eqb id (conv_id (row_conversation row)))%bool) rows in
    let out := deleteDetection filePaths rows db r in
    conversations (fst out) =
      filter (fun c => negb (goneId (conv_id (row_conversation c)))) (conversations db) /\
    exchanges (fst out) =
      filter (fun e => negb (goneId (ex_conversationId (row_exchange e)))) (exchanges db) /\
    files (fst out) = files db /\ chunks (fst out) = chunks db /\
    chunks_fts (fst out) = chunks_fts db /\
    conversationsDeleted (snd out) =
      conversationsDeleted r + Z.of_nat (List.length (filter (archiveGone filePaths) rows)) /\
    conversationsIndexed (snd out) = conversationsIndexed r /\
    conversationsSkipped (snd out) = conversationsSkipped r /\
    indexErrors (snd out) = indexErrors r.
Proof.
  induction rows as [|row rest IH]; intros db r; cbv zeta.
  - cbn [deleteDetection existsb fst snd filter List.length negb].
    repeat split; try lia; symmetry; apply forallb_filter_id; apply forallb_forall;
      reflexivity.
  - cbn [deleteDetection existsb filter]. destruct (archiveGone filePaths row) eqn:G.
    + cbn [deleteConversation].
      match goal with
      | |- context [deleteDetection _ _ ?db1 ?r1] =>
          destruct (IH db1 r1) as (H1 & H2 & H3 & H4 & H5 & H6 & H7 & H8 & H9)
      end.
      rewrite H1, H2, H3, H4, H5, H6, H7, H8, H9.
      cbn [conversations exchanges files chunks chunks_fts setConversations
           conversationsDeleted conversationsIndexed conversationsSkipped indexErrors
           List.length andb].
      rewrite !filter_filter_and.
      repeat split; try lia; apply filter_ext; intros x; now rewrite negb_orb.
    + cbn [andb orb]. apply IH.
Qed.

(** X20: a run of [indexConversationFiles] always comes to an end with
    a summary in which every path given is counted exactly once, as
    indexed, as skipped or as an error, and in which
    [conversationsDeleted] is the number of Copilot conversations whose
    archive is no longer among the paths. *)
Theorem indexConversationFiles_accounting env filePaths options w :
  exists w' r,
    indexConversationFiles env filePaths options w = Some (w', r) /\
    conversationsIndexed r + conversationsSkipped r +
      Z.of_nat (List.length (indexErrors r)) = Z.of_nat (List.length filePaths) /\
    conversationsDeleted r =
      Z.of_nat (List.length (filter (archiveGone filePaths)
                               (getAllConversationsBySource (w_db w) "copilot"))).
Proof.
  unfold indexConversationFiles.
  pose proof (deleteDetection_spec filePaths
                (getAllConversationsBySource (w_db w) "copilot") (w_db w) emptyResult)
    as H. cbv zeta in H.
  destruct (deleteDetection filePaths (getAllConversationsBySource (w_db w) "copilot")
                            (w_db w) emptyResult) as [db1 r1].
  cbn [fst snd] in H. destruct H as (_ & _ & _ & _ & _ & Hd & Hi & Hs & He).
  destruct (indexLoop_accounting env options filePaths (putDb w db1) r1)
    as [w' [r' [E [Hc Hd']]]].
  exists w', r'. split; [exact E|]. rewrite He, Hi, Hs in Hc.
  cbn [emptyResult conversationsIndexed conversationsSkipped indexErrors
       conversationsDeleted List.length] in *. lia.
Qed.

(** X21: delete detection removes exactly the conversations whose
    identifier is that of a Copilot conversation with a vanished archive,
    together with exactly the exchanges that refer to them; every other
    conversation and exchange, and the tables of the notes, are left as
    they were. *)
Theorem deleteDetection_exact filePaths db :
  let gone := filter (archiveGone filePaths) (getAllConversationsBySource db "copilot") in
  let db' := fst (deleteDetection filePaths (getAllConversationsBySource db "copilot") db
                                  emptyResult) in
  (forall c, In c (conversations db') <->
             In c (conversations db) /\
             ~ exists g, In g gone /\
                         conv_id (row_conversation g) = conv_id (row_conversation c)) /\
  (forall e, In e (exchanges db') <->
             In e (exchanges db) /\
             ~ exists g, In g gone /\
                         conv_id (row_conversation g) = ex_conversationId (row_exchange e)) /\
  files db' = files db /\ chunks db' = chunks db /\ chunks_fts db' = chunks_fts db.
Proof.
  cbv zeta.
  pose proof (deleteDetection_spec filePaths (getAllConversationsBySource db "copilot")
                db emptyResult) as H. cbv zeta in H.
  destruct H as (H1 & H2 & H3 & H4 & H5 & _).
  assert (Hg : forall id,
             existsb (fun row => (archiveGone filePaths row &&
                                  String.eqb id (conv_id (row_conversation row)))%bool)
                     (getAllConversationsBySource db "copilot") = true <->
             exists g, In g (filter (archiveGone filePaths)
                                    (getAllConversationsBySource db "copilot")) /\
                       conv_id (row_conversation g) = id).
  { intros id. rewrite existsb_exists. split.
    - intros [g [Hin Hb]]. apply andb_true_iff in Hb as [Hb1 Hb2].
      apply String.eqb_eq in Hb2. exists g. split; [|now symmetry].
      apply filter_In. now split.
    - intros [g [Hin <-]]. apply filter_In in Hin as [Hin Hb]. exists g.
      split; [exact Hin|]. now rewrite Hb, String.eqb_refl. }
  rewrite H1, H2. repeat split; try assumption.
  - apply filter_In in H as [H _]. exact H.
  - apply filter_In in H as [_ H]. apply negb_true_iff in H. intros Hex.
    apply Hg in Hex. congruence.
  - intros [Hin Hn]. apply filter_In. split; [exact Hin|]. apply negb_true_iff.
    apply not_true_is_false. intros Hb. apply Hn, Hg, Hb.
  - apply filter_In in H as [H _]. exact H.
  - apply filter_In in H as [_ H]. apply negb_true_iff in H. intros Hex.
    apply Hg in Hex. congruence.
  - intros [Hin Hn]. apply filter_In. split; [exact Hin|]. apply negb_true_iff.
    apply not_true_is_false. intros Hb. apply Hn, Hg, Hb.
Qed.

Lemma generateExchangeEmbeddings_effect embedder es :
  forall w w' o,
    generateExchangeEmbeddings embedder es w = Some (w', o) ->
    w_db w' = w_db w /\
    forall items, o = Ok items -> map fst items = es.
Proof.
  induction es as [|e r IH]; intros w w' o; cbn [generateExchangeEmbeddings].
  - intros H. injection H as <- <-. split; [reflexivity|].
    intros items E. injection E as <-. reflexivity.
  - intros H. apply bind_inv in H as [(w1 & u & E1 & H)|(msg & E1 & ->)];
      [|discriminate].
    injection E1 as <- _.
    apply bind_inv in H as [(w2 & emb & E2 & H)|(msg & E2 & ->)].
    + unfold liftOutcome in E2. injection E2 as <- _.
      apply bind_inv in H as [(w3 & rest & E3 & H)|(msg & E3 & ->)].
      * destruct (IH _ _ _ E3) as [Hdb Hitems]. injection H as <- <-.
        split; [exact Hdb|]. intros items E. injection E as <-.
        cbn [map fst]. now rewrite (Hitems rest eq_refl).
      * destruct (IH _ _ _ E3) as [Hdb _]. split; [exact Hdb|discriminate].
    + unfold liftOutcome in E2. injection E2 as <- _. split; [reflexivity|discriminate].
Qed.

Lemma transaction_inv {A : Type} (m : Eff World A) w w' o :
  transaction m w = Some (w', o) ->
  (exists a, o = Ok a /\ m w = Some (w', Ok a)) \/
  (exists msg, o = Throw msg /\ w_db w' = w_db w).
Proof.
  unfold transaction. destruct (m w) as [[w1 [a|msg]]|]; [| |discriminate].
  - intros H. injection H as <- <-. left. eauto.
  - intros H. injection H as <- <-. right. eauto.
Qed.

(** The steps of [indexConversationFile] up to the transaction. *)
Lemma indexConversationFile_inv env filePath options w w' o :
  indexConversationFile env filePath options w = Some (w', o) ->
  (exists msg, o = Throw msg /\ w_db w' = w_db w) \/
  (exists r, o = Ok r /\ indexed r = false /\ w_db w' = w_db w) \/
  (exists w1 w2 parsed archive withEmbeddings,
      parseArtifact env filePath options w = Some (w1, Ok parsed) /\
      readFile env filePath = Ok archive /\
      map fst withEmbeddings = parsedExchanges parsed /\
      w_db w2 = w_db w /\
      o = Ok {| indexed := true;
                exchangeCount := Z.of_nat (List.length (parsedExchanges parsed)) |} /\
      (run (deleteExchangesForConversation (conv_id (conversation parsed))) ;;;
       run (insertConversation (env_now env) (conversation parsed)
                               (Sha256.sha256hex (ar_content archive))) ;;;
       forEach withEmbeddings (fun item =>
         run (insertExchange (fst item)) ;;;
         match snd item with
         | Some embedding => run (insertExchangeEmbedding (ex_id (fst item)) embedding)
         | None => ret tt
         end)) w2 = Some (w', Ok tt)).
Proof.
  unfold indexConversationFile. intros H.
  apply bind_inv in H as [(w1 & parsed & E1 & H)|(msg & E1 & ->)].
  2:{ left. exists msg. split; [reflexivity|]. now apply parseArtifact_keeps in E1. }
  pose proof (proj1 (parseArtifact_keeps _ _ _ _ _ _ E1)) as D1.
  apply bind_inv in H as [(w1' & fileHash & E2 & H)|(msg & E2 & ->)].
  2:{ left. exists msg. split; [reflexivity|]. unfold liftOutcome in E2.
      injection E2 as <- _. exact D1. }
  unfold liftOutcome in E2. injection E2 as <- E2. unfold computeConversationFileHash in E2.
  destruct (readFile env filePath) as [archive|msg] eqn:R; [|discriminate].
  injection E2 as <-.
  apply bind_inv in H as [(w1' & existing & E3 & H)|(msg & E3 & ->)]; [|discriminate].
  unfold gets in E3. injection E3 as <- <-.
  match type of H with (if ?b then _ else _) _ = _ => destruct b end.
  { injection H as <- <-. right. left. eexists. split; [reflexivity|]. now split. }
  apply bind_inv in H as [(w2 & withEmbeddings & E4 & H)|(msg & E4 & ->)].
  2:{ left. exists msg. split; [reflexivity|].
      destruct (opt_embedder options) as [embedder|]; [|discriminate].
      apply generateExchangeEmbeddings_effect in E4 as [E4 _]. congruence. }
  assert (D2 : w_db w2 = w_db w /\ map fst withEmbeddings = parsedExchanges parsed).
  { destruct (opt_embedder options) as [embedder|].
    - apply generateExchangeEmbeddings_effect in E4 as [E4 Hitems].
      split; [congruence|now apply Hitems].
    - injection E4 as <- <-. split; [exact D1|].
      rewrite map_map. cbn [fst]. apply map_id. }
  destruct D2 as [D2 Hitems].
  apply bind_inv in H as [(w3 & u & E5 & H)|(msg & E5 & ->)].
  - injection H as <- <-.
    apply transaction_inv in E5 as [(a & Ha & E5)|(msg & Hm & _)]; [|discriminate].
    injection Ha as <-. destruct u. right. right.
    exists w1, w2, parsed, archive, withEmbeddings. repeat split; assumption.
  - apply transaction_inv in E5 as [(a & Ha & _)|(msg' & _ & E5)]; [discriminate|].
    left. exists msg. split; [reflexivity|congruence].
Qed.

(** X22: indexing a conversation file is all or nothing on the store:
    unless the call reports the conversation as indexed, whether it throws
    at any step (the transaction is rolled back) or reports a skip, the
    database is exactly what it was before the call. *)
Theorem indexConversationFile_atomic env filePath options w w' o :
  indexConversationFile env filePath options w = Some (w', o) ->
  (forall r, o = Ok r -> indexed r = false) ->
  w_db w' = w_db w.
Proof.
  intros H Hno.
  apply indexConversationFile_inv in H
    as [(msg & _ & D)|[(r & _ & _ & D)|(w1 & w2 & parsed & archive & items & H)]];
    try exact D.
  destruct H as (_ & _ & _ & _ & -> & _). specialize (Hno _ eq_refl). discriminate.
Qed.

Lemma indexConversationFile_atomic_witness :
  w_db {| w_db := emptyDatabase; w_uuid := 0; w_embedded := [] |} = w_db freshWorld.
Proof.
  apply (indexConversationFile_atomic firstExport "/archive/gone.jsonl" withStub freshWorld
           _ (Throw "ENOENT: no such file or directory, open /archive/gone.jsonl")).
  - vm_compute. reflexivity.
  - intros r H. discriminate.
Defined.

Lemma insertExchanges_effect (items : list (Exchange * option (list float))) :
  forall w w',
    forEach items (fun item =>
      run (insertExchange (fst item)) ;;;
      match snd item with
      | Some embedding => run (insertExchangeEmbedding (ex_id (fst item)) embedding)
      | None => ret tt
      end) w = Some (w', Ok tt) ->
    conversations (w_db w') = conversations (w_db w) /\
    map row_exchange (exchanges (w_db w')) =
      map row_exchange (exchanges (w_db w)) ++ map fst items.
Proof.
  induction items as [|item items IH]; intros w w'; cbn [forEach].
  - intros H. injection H as <-. split; [reflexivity|]. cbn [map]. now rewrite app_nil_r.
  - intros H. apply bind_inv in H as [(w1 & u & E1 & H)|(msg & _ & Hm)]; [|discriminate].
    destruct (IH _ _ H) as [Hc He]. rewrite Hc, He. clear IH H Hc He.
    apply bind_inv in E1 as [(w0 & u0 & E0 & E1)|(msg & _ & Hm)]; [|discriminate].
    apply run_inv in E0 as [(db0 & a0 & E0 & -> & _)|(msg & _ & _ & Hm)]; [|discriminate].
    cbn [getDb putDb World_HasDb] in *. unfold insertExchange in E0.
    destruct (existsb _ (exchanges (w_db w))); [discriminate|].
    destruct (negb _); [discriminate|]. injection E0 as <- _.
    assert (E : conversations (w_db w1) = conversations (w_db w) /\
                map row_exchange (exchanges (w_db w1)) =
                  map row_exchange (exchanges (w_db w)) ++ [fst item]).
    { destruct (snd item) as [embedding|].
      - apply run_inv in E1 as [(db1 & a1 & E1 & -> & _)|(msg & Hm & _)]; [|discriminate].
        cbn [getDb putDb World_HasDb w_db] in *. injection E1 as <- _.
        cbn [conversations exchanges setConversations]. split; [reflexivity|].
        rewrite map_map, map_app. cbn [map]. f_equal.
        * apply map_ext. intros x.
          destruct (String.eqb (ex_id (row_exchange x)) (ex_id (fst item))); reflexivity.
        * cbn [row_exchange].
          destruct (String.eqb (ex_id (fst item)) (ex_id (fst item))); reflexivity.
      - injection E1 as <- _. cbn [w_db conversations exchanges setConversations].
        split; [reflexivity|]. now rewrite map_app. }
    destruct E as [-> ->]. split; [reflexivity|]. cbn [map]. now rewrite <- app_assoc.
Qed.

Lemma find_filter_other {A : Type} (p q : A -> bool) (l : list A) :
  (forall x, p x = true -> q x = true) -> find p (filter q l) = find p l.
Proof.
  intros H. induction l as [|x l IH]; [reflexivity|]. cbn [filter find].
  destruct (q x) eqn:Q; cbn [find].
  - destruct (p x); [reflexivity|exact IH].
  - destruct (p x) eqn:P; [apply H in P; congruence|exact IH].
Qed.

(** X23: when a conversation file is indexed, the stored conversation
    is replaced as a whole: the row found under its identifier carries
    the digest of the file, the exchanges of the store are those that did
    not belong to the conversation followed by the parsed exchanges in
    their order, and every other conversation row is as it was. *)
Theorem indexConversationFile_replaces env filePath options w w' r :
  indexConversationFile env filePath options w = Some (w', Ok r) ->
  indexed r = true ->
  exists w1 parsed archive,
    parseArtifact env filePath options w = Some (w1, Ok parsed) /\
    readFile env filePath = Ok archive /\
    exchangeCount r = Z.of_nat (List.length (parsedExchanges parsed)) /\
    (exists row, getConversation (w_db w') (conv_id (conversation parsed)) = Some row /\
                 row_hash row = Sha256.sha256hex (ar_content archive)) /\
    map row_exchange (exchanges (w_db w')) =
      map row_exchange
          (filter (fun x => negb (String.eqb (ex_conversationId (row_exchange x))
                                             (conv_id (conversation parsed))))
                  (exchanges (w_db w)))
      ++ parsedExchanges parsed /\
    (forall id, id <> conv_id (conversation parsed) ->
                getConversation (w_db w') id = getConversation (w_db w) id).
Proof.
  intros H Hidx.
  apply indexConversationFile_inv in H
    as [(msg & Hm & _)|[(r0 & Hr & Hf & _)|(w1 & w2 & parsed & archive & items & H)]];
    [discriminate|injection Hr as <-; congruence|].
  destruct H as (E1 & R & Hitems & D2 & Hr & T). injection Hr as ->.
  exists w1, parsed, archive. split; [exact E1|]. split; [exact R|].
  split; [reflexivity|].
  apply bind_inv in T as [(w3 & u3 & T1 & T)|(msg & _ & Hm)]; [|discriminate].
  apply run_inv in T1 as [(db3 & a3 & T1 & -> & _)|(msg & _ & _ & Hm)]; [|discriminate].
  injection T1 as <- _.
  apply bind_inv in T as [(w4 & u4 & T2 & T)|(msg & _ & Hm)]; [|discriminate].
  apply run_inv in T2 as [(db4 & a4 & T2 & -> & _)|(msg & _ & _ & Hm)]; [|discriminate].
  injection T2 as <- _.
  apply insertExchanges_effect in T as [Hc He]. rewrite Hitems in He.
  cbn [getDb putDb World_HasDb w_db conversations exchanges setConversations] in Hc, He.
  rewrite D2 in Hc, He.
  assert (Hex : (if existsb (fun r0 => String.eqb (conv_id (row_conversation r0))
                                                  (conv_id (conversation parsed)))
                            (conversations (w_db w))
                 then filter (fun r0 => negb (String.eqb (ex_conversationId (row_exchange r0))
                                                         (conv_id (conversation parsed))))
                        (filter (fun r0 => negb (String.eqb
                                                   (ex_conversationId (row_exchange r0))
                                                   (conv_id (conversation parsed))))
                                (exchanges (w_db w)))
                 else filter (fun r0 => negb (String.eqb (ex_conversationId (row_exchange r0))
                                                         (conv_id (conversation parsed))))
                             (exchanges (w_db w)))
                = filter (fun r0 => negb (String.eqb (ex_conversationId (row_exchange r0))
                                                     (conv_id (conversation parsed))))
                         (exchanges (w_db w))).
  { destruct (existsb _ _); [|reflexivity]. rewrite filter_filter_and.
    apply filter_ext. intros x. now rewrite andb_diag. }
  rewrite Hex in He. clear Hex.
  split; [|split; [exact He|]].
  - unfold getConversation. rewrite Hc. eexists. split.
    + rewrite find_app_none.
      * cbn [find row_conversation conv_id]. rewrite String.eqb_refl. reflexivity.
      * apply find_filter_none. intros x ->. reflexivity.
    + reflexivity.
  - intros id Hid. unfold getConversation. rewrite Hc.
    rewrite find_app_last.
    + apply find_filter_other. intros x Hx. apply String.eqb_eq in Hx.
      apply negb_true_iff, String.eqb_neq. congruence.
    + cbn [row_conversation conv_id]. apply String.eqb_neq. congruence.
Qed.

Lemma indexConversationFile_replaces_witness :
  exists w1 parsed archive,
    parseArtifact firstExport testPath withStub freshWorld = Some (w1, Ok parsed) /\
    readFile firstExport testPath = Ok archive /\
    exchangeCount {| indexed := true; exchangeCount := 1 |} =
      Z.of_nat (List.length (parsedExchanges parsed)) /\
    (exists row, getConversation (w_db worldAfterFirst) (conv_id (conversation parsed))
                 = Some row /\
                 row_hash row = Sha256.sha256hex (ar_content archive)) /\
    map row_exchange (exchanges (w_db worldAfterFirst)) =
      map row_exchange
          (filter (fun x => negb (String.eqb (ex_conversationId (row_exchange x))
                                             (conv_id (conversation parsed))))
                  (exchanges (w_db freshWorld)))
      ++ parsedExchanges parsed /\
    (forall id, id <> conv_id (conversation parsed) ->
                getConversation (w_db worldAfterFirst) id = getConversation (w_db freshWorld) id).
Proof.
  apply (indexConversationFile_replaces firstExport testPath withStub freshWorld
           worldAfterFirst {| indexed := true; exchangeCount := 1 |}).
  - vm_compute. reflexivity.
  - reflexivity.
Defined.

(** ** Search *)

Lemma slice0_length {A : Type} (l : list A) (n : Z) :
  0 <= n -> Z.of_nat (List.length (JS.slice0 l n)) <= n.
Proof.
  intros Hn. unfold JS.slice0. destruct (n <? 0) eqn:E; [apply Z.ltb_lt in E; lia|].
  rewrite length_firstn. lia.
Qed.

Lemma sqlLimit_length {A : Type} (l : list A) (n : Z) :
  0 <= n -> Z.of_nat (List.length (sqlLimit n l)) <= n.
Proof.
  intros Hn. unfold sqlLimit. destruct (n <? 0) eqn:E; [apply Z.ltb_lt in E; lia|].
  rewrite length_firstn. lia.
Qed.

Lemma flat_map_length_le {A B : Type} (f : A -> list B) (l : list A) :
  (forall x, (List.length (f x) <= 1)%nat) ->
  (List.length (flat_map f l) <= List.length l)%nat.
Proof.
  intros Hf. induction l as [|x l IH]; [apply Nat.le_refl|].
  cbn [flat_map List.length]. rewrite length_app. specialize (Hf x). lia.
Qed.

Lemma formatResult_length db minScore scoreRange x :
  (List.length (formatResult db minScore scoreRange x) <= 1)%nat.
Proof.
  unfold formatResult. destruct (chunkDetails db (id x)) as [[[? ?] ?]|];
    cbn [List.length]; lia.
Qed.

(** X24: a hybrid search returns at most [limit] results, and every
    result is read from the store: its content and position are those of a
    stored chunk and its path is that of the file the chunk belongs to. *)
Theorem hybridSearch_hydrated fts db query queryEmbedding limit results :
  0 <= limit ->
  hybridSearch fts db query queryEmbedding limit = Ok results ->
  Z.of_nat (List.length results) <= limit /\
  forall r, In r results ->
            exists c f, In c (chunks db) /\ In f (files db) /\
                        file_id f = chunk_file_id c /\
                        sr_content r = chunk_content c /\
                        sr_chunk_index r = chunk_index c /\
                        sr_source_path r = file_path f.
Proof.
  intros Hl. unfold hybridSearch.
  destruct (topResults fts db query queryEmbedding limit) as [top|msg] eqn:Htop;
    [|discriminate].
  intros H. injection H as <-. split.
  - unfold topResults in Htop.
    destruct (bm25Search fts db query (limit * 2)); [|discriminate].
    injection Htop as <-.
    match goal with
    | |- Z.of_nat (List.length (flat_map ?f (JS.slice0 ?m _))) <= _ =>
        pose proof (flat_map_length_le f (JS.slice0 m limit)
                      (fun x => formatResult_length db _ _ x)) as Hle;
        pose proof (slice0_length m limit Hl) as Hs
    end.
    lia.
  - intros r Hr. apply in_flat_map in Hr as [x [_ Hr]]. unfold formatResult in Hr.
    unfold chunkDetails in Hr.
    destruct (find (fun c => chunk_id c =? id x) (chunks db)) as [c|] eqn:Fc;
      [|destruct Hr].
    destruct (find (fun f => file_id f =? chunk_file_id c) (files db)) as [f|] eqn:Ff;
      [|destruct Hr].
    destruct Hr as [<-|[]]. apply find_some in Fc as [Hc _].
    apply find_some in Ff as [Hf Ef]. apply Z.eqb_eq in Ef.
    exists c, f. cbn [sr_content sr_chunk_index sr_source_path]. auto 10.
Qed.

Lemma hybridSearch_hydrated_witness :
  Z.of_nat (List.length [{| sr_content := "hello world"; sr_source_path := "a.md";
                            sr_score := 1; sr_chunk_index := 0 |}]) <= 10.
Proof.
  refine (proj1 (hybridSearch_hydrated matchAll oneNoteDb "hello"
                   [1%float; 0%float; 0%float] 10 _ _ _)).
  - lia.
  - vm_compute. reflexivity.
Defined.

(** X25: every result of a vector search is a stored chunk that has an
    embedding, with its identifier and content and with the cosine
    similarity between the query and the floats read back from its bytes;
    a chunk without embedding is never returned, and for a limit that is
    not negative at most [limit] results come back. *)
Theorem vectorSearch_results db queryEmbedding limit :
  (forall r, In r (vectorSearch db queryEmbedding limit) ->
             exists c bytes,
               In c (chunks db) /\ chunk_embedding c = Some bytes /\
               vec_chunk_id r = chunk_id c /\ vec_content r = chunk_content c /\
               similarity r =
                 cosineSimilarity queryEmbedding (Float32.embeddingArray bytes)) /\
  (List.length (vectorSearch db queryEmbedding limit) <= List.length (chunks db))%nat /\
  (0 <= limit -> Z.of_nat (List.length (vectorSearch db queryEmbedding limit)) <= limit).
Proof.
  unfold vectorSearch. split; [|split].
  - intros r Hr. apply slice0_In, sortBy_In, in_flat_map in Hr as [c [Hc Hr]].
    unfold similarityOf in Hr. destruct (chunk_embedding c) as [bytes|] eqn:E;
      [|destruct Hr].
    destruct Hr as [<-|[]]. exists c, bytes. auto.
  - pose proof (similarities_length queryEmbedding (chunks db)) as H1.
    pose proof (sortBy_length moreSimilar
                  (flat_map (similarityOf queryEmbedding) (chunks db))) as H2.
    unfold JS.slice0. destruct (limit <? 0); rewrite length_firstn; lia.
  - apply slice0_length.
Qed.

(** X26: a lexical search fails exactly when the full-text engine
    rejects the query.  Otherwise every result joins a matching row of
    [chunks_fts] with a stored chunk of the same identifier (a row whose
    chunk is gone yields nothing) and carries the content of that chunk
    and the score of the row; for a limit that is not negative at most
    [limit] results come back. *)
Theorem bm25Search_results fts db query limit :
  match fts (chunks_fts db) query with
  | Throw msg => bm25Search fts db query limit = Throw msg
  | Ok matchRow =>
      exists results,
        bm25Search fts db query limit = Ok results /\
        (forall r, In r results ->
                   exists row c,
                     In row (chunks_fts db) /\ matchRow row = Some (bm25_score r) /\
                     In c (chunks db) /\ chunk_id c = fts_rowid row /\
                     bm25_chunk_id r = fts_rowid row /\
                     bm25_content r = chunk_content c) /\
        (0 <= limit -> Z.of_nat (List.length results) <= limit)
  end.
Proof.
  unfold bm25Search. destruct (fts (chunks_fts db) query) as [matchRow|msg];
    [|reflexivity].
  eexists. split; [reflexivity|]. split; [|apply sqlLimit_length].
  intros r Hr. apply sqlLimit_In, sortBy_In, in_flat_map in Hr as [row [Hrow Hr]].
  destruct (matchRow row) as [sc|] eqn:M; [|destruct Hr].
  apply in_map_iff in Hr as [c [<- Hc]]. apply filter_In in Hc as [Hc E].
  apply Z.eqb_eq in E. exists row, c. cbn [bm25_score bm25_chunk_id bm25_content]. auto 10.
Qed.

Lemma addRanked_ids {T U : Type} k (l : list (RankedResult T)) :
  forall (l' : list (RankedResult U)) rank scores,
    map id l = map id l' ->
    addRanked k rank l scores = addRanked k rank l' scores.
Proof.
  induction l as [|r l IH]; intros [|r' l'] rank scores H; try discriminate;
    [reflexivity|].
  cbn [map] in H. injection H as Hid Hrest. cbn [addRanked]. rewrite Hid.
  now apply IH.
Qed.

Lemma accumulate_ids {T U : Type} k (lists : list (list (RankedResult T))) :
  forall (lists' : list (list (RankedResult U))) scores,
    map (map id) lists = map (map id) lists' ->
    fold_left (fun scores results => addRanked k 0 results scores) lists scores =
    fold_left (fun scores results => addRanked k 0 results scores) lists' scores.
Proof.
  induction lists as [|l lists IH]; intros [|l' lists'] scores H; try discriminate;
    [reflexivity|].
  cbn [map] in H. injection H as Hl Hrest. cbn [fold_left].
  rewrite (addRanked_ids k l l' 0 scores Hl). now apply IH.
Qed.

(** X27: rank fusion looks at positions only: two families of ranked
    lists with the same identifiers in the same order give the same fused
    list, whatever scores their entries carry. *)
Theorem mergeWithRRF_ignores_scores {T U : Type} (lists : list (list (RankedResult T)))
        (lists' : list (list (RankedResult U))) (k : Z) :
  map (map id) lists = map (map id) lists' ->
  mergeWithRRF lists k = mergeWithRRF lists' k.
Proof.
  intros H. unfold mergeWithRRF, accumulate. now rewrite (accumulate_ids k lists lists' [] H).
Qed.

Lemma mergeWithRRF_ignores_scores_witness :
  mergeWithRRF scenarioLists 60 =
  mergeWithRRF [[{| id := 1; score := 9%Z |}; {| id := 2; score := 5%Z |};
                 {| id := 3; score := 1%Z |}];
                [{| id := 2; score := 7%Z |}; {| id := 1; score := 7%Z |};
                 {| id := 4; score := 0%Z |}]] 60.
Proof.
  apply (mergeWithRRF_ignores_scores scenarioLists). reflexivity.
Defined.

Lemma nan_add_l x y : Prim2SF x = S754_nan -> Prim2SF (x + y)%float = S754_nan.
Proof. intros H. rewrite add_spec, H. reflexivity. Qed.

Lemma nan_mul_r x : Prim2SF (x * nan)%float = S754_nan.
Proof.
  rewrite mul_spec. change (Prim2SF nan) with S754_nan.
  destruct (Prim2SF x); reflexivity.
Qed.

Lemma nan_add_r x y : Prim2SF y = S754_nan -> Prim2SF (x + y)%float = S754_nan.
Proof. intros H. rewrite add_spec, H. destruct (Prim2SF x); reflexivity. Qed.

Lemma cosineLoop_nan a :
  forall b dotProduct normA normB,
    Prim2SF dotProduct = S754_nan ->
    Prim2SF (fst (fst (cosineLoop a b dotProduct normA normB))) = S754_nan.
Proof.
  induction a as [|x a IH]; intros b dotProduct normA normB H; cbn [cosineLoop];
    [exact H|].
  apply IH. now apply nan_add_l.
Qed.

Lemma cosineLoop_short a :
  forall b dotProduct normA normB,
    (List.length b < List.length a)%nat ->
    Prim2SF (fst (fst (cosineLoop a b dotProduct normA normB))) = S754_nan.
Proof.
  induction a as [|x a IH]; intros b dotProduct normA normB H; cbn [List.length] in H;
    [lia|].
  cbn [cosineLoop]. destruct b as [|y b].
  - cbn [hd tl]. apply cosineLoop_nan. apply nan_add_r, nan_mul_r.
  - cbn [hd tl List.length] in *. apply IH. lia.
Qed.

Lemma cosineLoop_prefix a :
  forall b dotProduct normA normB,
    cosineLoop a b dotProduct normA normB =
    cosineLoop a (firstn (List.length a) b) dotProduct normA normB.
Proof.
  induction a as [|x a IH]; intros b dotProduct normA normB; [reflexivity|].
  cbn [cosineLoop List.length]. destruct b as [|y b]; [reflexivity|].
  cbn [firstn hd tl]. apply IH.
Qed.

(** X28: [cosineSimilarity] walks the query: components of the stored
    vector beyond the length of the query are never read, and when the
    stored vector is shorter than the query the missing components are
    [undefined] and the similarity is NaN. *)
Theorem cosineSimilarity_dimensions (a b : list float) :
  cosineSimilarity a b = cosineSimilarity a (firstn (List.length a) b) /\
  ((List.length b < List.length a)%nat -> cosineSimilarity a b = nan).
Proof.
  split.
  - unfold cosineSimilarity. now rewrite cosineLoop_prefix.
  - intros H. pose proof (cosineLoop_short a b 0%float 0%float 0%float H) as Hd.
    unfold cosineSimilarity.
    destruct (cosineLoop a b 0%float 0%float 0%float) as [[dotProduct normA] normB].
    cbn [fst] in Hd. apply Prim2SF_inj. rewrite div_spec, Hd. reflexivity.
Qed.

Lemma cosineSimilarity_dimensions_witness :
  cosineSimilarity [1%float; 0%float; 0%float] [1%float; 0%float] = nan.
Proof.
  refine (proj2 (cosineSimilarity_dimensions [1%float; 0%float; 0%float]
                   [1%float; 0%float]) _).
  cbn [List.length]. lia.
Defined.









